(** * Pixel pipeline and metrics engine of [src/app/src/app/page.tsx]

    A shallow embedding of the image-processing closures of the page
    component ([computeMetrics], [boxBlur], [median3x3], [unsharpMask],
    [equalizeLuma], the pixel part of [processImage], the canvas size of
    [drawImageToCanvas]) and the properties their specification states.

    Conventions of the embedding.
    - An integer-valued JavaScript number (a dimension, an index, a counter,
      a byte) is a [Z]; every such value of the program stays far below
      2^53, where the IEEE doubles of the program are exact on integers.
    - Every other number is an IEEE binary64 value, Rocq's primitive [float];
      a [Float32Array] cell keeps [fround] of what is stored into it.
    - [computeMetrics] is written once over the interface [JsArith] of the
      operations it uses. The instance [float_arith] is the program;
      [float_arith_with] is the same arithmetic with [Math.hypot], which
      ECMAScript leaves to the engine, as a parameter.
    - A typed array is a [list]; a store out of range is dropped (as stdpp's
      insert does), a load out of range is [undefined], which arithmetic
      turns into [NaN].
    - A [for] loop is a left fold over the list of values of its counter. *)

From Stdlib Require Import ZArith QArith Reals Lra Lia Floats Uint63 Sorted.
From stdpp Require Import base list sorting.

Open Scope Z_scope.

(** ** Numbers *)

(** The arithmetic the metrics engine performs on non-integer numbers. *)
Class JsArith (F : Type) := {
  num : Z -> F;                 (* an integer-valued number *)
  lit : Q -> F;                 (* a decimal literal of the source text *)
  NaN : F;                      (* what [undefined] becomes in arithmetic *)
  add : F -> F -> F;
  sub : F -> F -> F;
  mul : F -> F -> F;
  div : F -> F -> F;
  neg : F -> F;
  Math_min : F -> F -> F;
  Math_max : F -> F -> F;
  Math_abs : F -> F;
  Math_hypot : F -> F -> F;
  fround : F -> F               (* the value a Float32Array cell keeps *)
}.

Declare Scope num_scope.
Delimit Scope num_scope with num.
Notation "x + y" := (add x y) : num_scope.
Notation "x - y" := (sub x y) : num_scope.
Notation "x * y" := (mul x y) : num_scope.
Notation "x / y" := (div x y) : num_scope.
Notation "- x" := (neg x) : num_scope.

(** *** The IEEE binary64 instance *)

Definition ofZ64 (z : Z) : float :=
  match z with
  | Z0 => PrimFloat.zero
  | Zpos _ => PrimFloat.of_uint63 (Uint63.of_Z z)
  | Zneg p => PrimFloat.opp (PrimFloat.of_uint63 (Uint63.of_Z (Zpos p)))
  end.

(** A decimal literal [n/10^k] denotes the double nearest to it, which is
    the correctly rounded quotient of the two (exact) integers. *)
Definition lit64 (q : Q) : float :=
  PrimFloat.div (ofZ64 (Qnum q)) (ofZ64 (Zpos (Qden q))).

(** [Math.fround]: round to nearest-even binary32, widened back. *)
Definition fround64 (x : float) : float :=
  match Prim2SF x with
  | S754_finite s m e => SF2Prim (binary_round 24 128 s m e)
  | _ => x
  end.

Definition Math_min64 (x y : float) : float :=
  if PrimFloat.is_nan x || PrimFloat.is_nan y then PrimFloat.nan
  else if PrimFloat.ltb x y then x
  else if PrimFloat.ltb y x then y
  else if PrimFloat.get_sign x then x else y.

Definition Math_max64 (x y : float) : float :=
  if PrimFloat.is_nan x || PrimFloat.is_nan y then PrimFloat.nan
  else if PrimFloat.ltb y x then x
  else if PrimFloat.ltb x y then y
  else if PrimFloat.get_sign x then y else x.

(** [Math.hypot] is implementation-approximated in ECMAScript: an engine
    may return a neighbour of the correctly rounded value. [Math_hypot64],
    the rounded square root of the rounded sum of squares, is one such
    function; what is proved of the gradient energy of every image is proved
    for every [Math.hypot] that meets [hypot_contract] below. *)
Definition Math_hypot64 (x y : float) : float :=
  if PrimFloat.is_infinity x || PrimFloat.is_infinity y then PrimFloat.infinity
  else PrimFloat.sqrt (PrimFloat.add (PrimFloat.mul x x) (PrimFloat.mul y y)).

#[export] Instance float_arith : JsArith float := {|
  num := ofZ64;
  lit := lit64;
  NaN := PrimFloat.nan;
  add := PrimFloat.add;
  sub := PrimFloat.sub;
  mul := PrimFloat.mul;
  div := PrimFloat.div;
  neg := PrimFloat.opp;
  Math_min := Math_min64;
  Math_max := Math_max64;
  Math_abs := PrimFloat.abs;
  Math_hypot := Math_hypot64;
  fround := fround64
|}.

(** [Math.round]: the nearest integer, ties towards +infinity. *)
Definition Math_round (x : float) : float :=
  match Prim2SF x with
  | S754_finite s m e =>
      if 0 <=? e then x
      else
        let d := 2 ^ (- e) in
        let n := if s then Z.neg m else Z.pos m in
        let r := (2 * n + d) / (2 * d) in
        if (r =? 0) && s then PrimFloat.neg_zero else ofZ64 r
  | _ => x
  end.

(** The conversion of a store into a [Uint8ClampedArray] (ToUint8Clamp):
    NaN is 0, the value is clamped to [0,255] and rounded, ties to even. *)
Definition ToUint8Clamp (x : float) : Z :=
  match Prim2SF x with
  | S754_nan | S754_zero _ => 0
  | S754_infinity s => if s then 0 else 255
  | S754_finite true _ _ => 0
  | S754_finite false m e =>
      if 0 <=? e then Z.min 255 (Z.pos m * 2 ^ e)
      else
        let d := 2 ^ (- e) in
        let f := Z.pos m / d in
        let twice_rem := 2 * (Z.pos m mod d) in
        if 255 <=? f then 255
        else if twice_rem <? d then f
        else if d <? twice_rem then f + 1
        else if Z.even f then f else f + 1
  end.

(** The conversion of a store into a [Uint8Array] (ToUint8): truncate,
    then reduce modulo 256; NaN and the infinities are 0. *)
Definition ToUint8 (x : float) : Z :=
  match Prim2SF x with
  | S754_finite s m e =>
      let t := if 0 <=? e then Z.pos m * 2 ^ e else Z.pos m / 2 ^ (- e) in
      (if s then - t else t) mod 256
  | _ => 0
  end.

(** The same arithmetic with the engine's [Math.hypot] as a parameter;
    [float_arith] is [float_arith_with Math_hypot64]. *)
Definition float_arith_with (hypot : float -> float -> float)
    : JsArith float := {|
  num := ofZ64;
  lit := lit64;
  NaN := PrimFloat.nan;
  add := PrimFloat.add;
  sub := PrimFloat.sub;
  mul := PrimFloat.mul;
  div := PrimFloat.div;
  neg := PrimFloat.opp;
  Math_min := Math_min64;
  Math_max := Math_max64;
  Math_abs := PrimFloat.abs;
  Math_hypot := hypot;
  fround := fround64
|}.

(** ** Loops and typed arrays *)

(** The values of [k] in [for (k = lo; k < hi; k++)]. *)
Definition zrange (lo hi : Z) : list Z :=
  (fun k => lo + Z.of_nat k) <$> seq 0 (Z.to_nat (hi - lo)).

(** The values of the pixel counter [p] in
    [for (i = 0, p = 0; i < n; i += 4, p++)]; there [i = 4 * p]. *)
Definition pixels (n : Z) : list Z := zrange 0 ((n + 3) / 4).

(** [a[i]], for any array kind: [None] is [undefined]. *)
Definition load {A} (a : list A) (i : Z) : option A :=
  if i <? 0 then None else a !! Z.to_nat i.

(** [a[i] = v] once [v] is converted to the element type. *)
Definition store {A} (a : list A) (i : Z) (v : A) : list A :=
  if i <? 0 then a else <[Z.to_nat i := v]> a.

(** [new XArray(n)]: zero-filled. In the source a length that is negative
    or not below 2^53 throws a RangeError instead; this total function is
    what the constructor returns for the other lengths, and the theorems
    below are stated for those. *)
Definition new_array {A} (zero : A) (n : Z) : list A :=
  replicate (Z.to_nat n) zero.

Definition len {A} (a : list A) : Z := Z.of_nat (length a).

(** ** The metrics engine *)

Record ImageData := { width : Z; height : Z; data : list Z }.

(** The values a [Uint8ClampedArray] cell holds. *)
Definition byte (v : Z) : Prop := 0 <= v <= 255.

(** What the platform guarantees of every [ImageData]: [data] is a
    [Uint8ClampedArray] of [4 * width * height] bytes. *)
Definition wf_image (d : ImageData) : Prop :=
  len (data d) = 4 * width d * height d /\ Forall byte (data d).

Record Metrics (F : Type) := {
  blurVariance : F;
  gradientEnergy : F;
  symmetryScore : F;
  spoofRisk : F
}.
Arguments blurVariance {F} _.
Arguments gradientEnergy {F} _.
Arguments symmetryScore {F} _.
Arguments spoofRisk {F} _.

Section MetricsEngine.
Context {F : Type} `{JsArith F}.

(** A byte read for arithmetic. *)
Definition byte_at (a : list Z) (i : Z) : F :=
  match load a i with Some v => num v | None => NaN end.

(** A Float32Array cell read for arithmetic, and a store into one. *)
Definition f32_at (a : list F) (i : Z) : F :=
  match load a i with Some v => v | None => NaN end.

Definition f32_store (a : list F) (i : Z) (v : F) : list F :=
  store a i (fround v).

(** [const idx = (x, y) => y * w + x]. *)
Definition idx (w x y : Z) : Z := y * w + x.

(** Lines 77-83: the grayscale plane. *)
Definition grayscale (d : ImageData) : list F :=
  foldl (fun gray j =>
           let i := 4 * j in
           let r := byte_at (data d) i in
           let g := byte_at (data d) (i + 1) in
           let b := byte_at (data d) (i + 2) in
           f32_store gray j
             (lit 0.299 * r + lit 0.587 * g + lit 0.114 * b)%num)
        (new_array (num 0) (width d * height d))
        (pixels (len (data d))).

(** [gray[idx(x, y)]]. *)
Definition gray_at (w : Z) (gray : list F) (x y : Z) : F :=
  f32_at gray (idx w x y).

(** Lines 87-98: the Laplacian plane, the running sum of its interior
    values and their number. *)
Definition laplacian (w h : Z) (gray : list F) : list F * F * Z :=
  foldl (fun st y =>
    foldl (fun '(lap, mean, count) x =>
             let v := (- gray_at w gray (x - 1) y - gray_at w gray (x + 1) y
                       - gray_at w gray x (y - 1) - gray_at w gray x (y + 1)
                       + num 4 * gray_at w gray x y)%num in
             (f32_store lap (idx w x y) v, (mean + v)%num, count + 1))
          st (zrange 1 (w - 1)))
    (new_array (num 0) (w * h), num 0, 0) (zrange 1 (h - 1)).

(** Lines 100-104: the sum of squared deviations, over [lap.length]. *)
Definition sum_sq_dev (lap : list F) (mean : F) : F :=
  foldl (fun variance l => let dv := (l - mean)%num in
                           (variance + dv * dv)%num)
        (num 0) lap.

(** Lines 108-115: the accumulated Sobel magnitude. *)
Definition sobel_gx (w : Z) (gray : list F) (x y : Z) : F :=
  (- gray_at w gray (x - 1) (y - 1) - num 2 * gray_at w gray (x - 1) y
   - gray_at w gray (x - 1) (y + 1) + gray_at w gray (x + 1) (y - 1)
   + num 2 * gray_at w gray (x + 1) y + gray_at w gray (x + 1) (y + 1))%num.

Definition sobel_gy (w : Z) (gray : list F) (x y : Z) : F :=
  (- gray_at w gray (x - 1) (y - 1) - num 2 * gray_at w gray x (y - 1)
   - gray_at w gray (x + 1) (y - 1) + gray_at w gray (x - 1) (y + 1)
   + num 2 * gray_at w gray x (y + 1) + gray_at w gray (x + 1) (y + 1))%num.

Definition sobel_sum (w h : Z) (gray : list F) : F :=
  foldl (fun st y =>
    foldl (fun gradEnergy x =>
             let gx := sobel_gx w gray x y in
             let gy := sobel_gy w gray x y in
             (gradEnergy + Math_hypot gx gy)%num)
          st (zrange 1 (w - 1)))
    (num 0) (zrange 1 (h - 1)).

(** Lines 119-128: the accumulated mirror agreement and the pair count. *)
Definition symmetry_sum (w h : Z) (gray : list F) : F * Z :=
  let mid := w / 2 in
  foldl (fun st y =>
    foldl (fun '(sym, pix) x =>
             let a := gray_at w gray x y in
             let b := gray_at w gray (w - 1 - x) y in
             ((sym + (num 1 - Math_min (num 1)
                                (Math_abs (a - b) / num 255)))%num,
              pix + 1))
          st (zrange 0 mid))
    (num 0, 0) (zrange 0 h).

Definition computeMetrics (d : ImageData) : Metrics F :=
  let gray := grayscale d in
  let w := width d in
  let h := height d in
  let '(lap, mean, count) := laplacian w h gray in
  let mean := (mean / num (Z.max 1 count))%num in
  let variance := sum_sq_dev lap mean in
  let variance := (variance / num (Z.max 1 count))%num in
  let gradEnergy := sobel_sum w h gray in
  let gradEnergy := (gradEnergy / num (Z.max 1 ((w - 2) * (h - 2))))%num in
  let '(sym, pix) := symmetry_sum w h gray in
  let symmetryScore := (sym / num (Z.max 1 pix))%num in
  let blurNorm := Math_min (num 1) (variance / num 2000)%num in
  let gradNorm := Math_min (num 1) (gradEnergy / num 50)%num in
  let symNorm := symmetryScore in
  let spoofRisk :=
    Math_min (num 1)
      (lit 0.6 * (num 1 - blurNorm) + lit 0.3 * gradNorm
       + lit 0.1 * symNorm)%num in
  {| blurVariance := variance; gradientEnergy := gradEnergy;
     symmetryScore := symmetryScore; spoofRisk := spoofRisk |}.

(** *** What the specification asks of the blur measure

    The population variance of the Laplacian over the interior pixels
    [1 <= x < w-1], [1 <= y < h-1] only. *)
Definition interior (w h : Z) : list (Z * Z) :=
  y ← zrange 1 (h - 1); x ← zrange 1 (w - 1); [(x, y)].

Definition laplacian_at (w : Z) (gray : list F) (p : Z * Z) : F :=
  let '(x, y) := p in
  (num 4 * gray_at w gray x y - gray_at w gray (x - 1) y
   - gray_at w gray (x + 1) y - gray_at w gray x (y - 1)
   - gray_at w gray x (y + 1))%num.

Definition sum_list (vs : list F) : F :=
  foldl (fun s v => (s + v)%num) (num 0) vs.

Definition population_variance (vs : list F) : F :=
  let n := num (len vs) in
  let m := (sum_list vs / n)%num in
  (sum_list ((fun v => ((v - m) * (v - m))%num) <$> vs) / n)%num.

Definition interior_laplacian_variance (d : ImageData) : F :=
  population_variance
    (laplacian_at (width d) (grayscale d) <$> interior (width d) (height d)).
End MetricsEngine.

(** ** The filters

    These run on the program's doubles only. *)

Open Scope num_scope.

(** A store of an integer-valued or [undefined] value into a
    [Uint8ClampedArray] cell. *)
Definition clamp_u8 (v : option Z) : Z :=
  match v with Some z => Z.max 0 (Z.min 255 z) | None => 0 end.

(** A store of a double into a [Uint8ClampedArray] cell. *)
Definition u8c_store (a : list Z) (i : Z) (v : float) : list Z :=
  store a i (ToUint8Clamp v).

(** *** [boxBlur], lines 141-172

    The two passes of the source have the same body up to the first cell
    [ti], the last cell of the line, the distance [stride] between two cells
    of a line and the length [n] of a line; [blur_line] is that body
    (lines 150-156 with [stride = chan], [n = w]; lines 162-168 with
    [stride = w * chan], [n = h]). *)
Definition blur_line (src out : list Z) (iarr : float)
    (r n stride ti last : Z) : list Z :=
  let li := ti in
  let ri := (ti + r * stride)%Z in
  let fv := byte_at src ti in
  let lv := byte_at src last in
  let val := num (r + 1) * fv in
  let val :=
    foldl (fun val j => val + byte_at src (ti + j * stride)) val (zrange 0 r) in
  let '(out, ti, ri, val) :=
    foldl (fun '(out, ti, ri, val) (_ : Z) =>
             (u8c_store out ti (Math_round (val * iarr)),
              (ti + stride)%Z, (ri + stride)%Z,
              val + (byte_at src ri - fv)))
          (out, ti, ri, val) (zrange 0 (r + 1)) in
  let '(out, ti, li, ri, val) :=
    foldl (fun '(out, ti, li, ri, val) (_ : Z) =>
             (u8c_store out ti (Math_round (val * iarr)),
              (ti + stride)%Z, (li + stride)%Z, (ri + stride)%Z,
              val + (byte_at src ri - byte_at src li)))
          (out, ti, li, ri, val) (zrange (r + 1) (n - r)) in
  let '(out, ti, li, val) :=
    foldl (fun '(out, ti, li, val) (_ : Z) =>
             (u8c_store out ti (Math_round (val * iarr)),
              (ti + stride)%Z, (li + stride)%Z,
              val + (lv - byte_at src li)))
          (out, ti, li, val) (zrange (n - r) n) in
  out.

Definition boxBlur (src : list Z) (w h r : Z) : list Z :=
  let tmp := new_array 0%Z (len src) in
  let dst := new_array 0%Z (len src) in
  let chan := 4%Z in
  let iarr := num 1 / num (r + r + 1) in
  let tmp :=
    foldl (fun tmp y =>
      foldl (fun tmp c =>
               blur_line src tmp iarr r w chan
                 ((y * w) * chan + c) ((y * w + (w - 1)) * chan + c))
            tmp (zrange 0 chan))
      tmp (zrange 0 h) in
  let dst :=
    foldl (fun dst x =>
      foldl (fun dst c =>
               blur_line tmp dst iarr r h (w * chan)
                 (x * chan + c) (((h - 1) * w + x) * chan + c))
            dst (zrange 0 chan))
      dst (zrange 0 w) in
  dst.

(** What the specification asks of the blur: along each row, per channel,
    the rounded mean of the [2r+1] samples at columns [x-r .. x+r], a column
    out of range replaced by the nearest edge column; then the same along
    each column of that result. *)
Definition nearest (hi k : Z) : Z := Z.max 0 (Z.min hi k).

(** [Math.round] of the exact quotient [s / n], for [n > 0]. *)
Definition rounded_mean (s n : Z) : Z := ((2 * s + n) / (2 * n))%Z.

Definition window_sum (sample : Z -> Z) (hi r k : Z) : Z :=
  foldl (fun s j => (s + sample (nearest hi j))%Z) 0%Z
        (zrange (k - r) (k + r + 1)).

Definition box_rows (src : list Z) (w h r : Z) : list Z :=
  (fun i : Z =>
     let c := (i mod 4)%Z in
     let x := ((i / 4) mod w)%Z in
     let y := ((i / 4) / w)%Z in
     rounded_mean
       (window_sum (fun k => default 0%Z (load src (((y * w + k) * 4 + c)%Z)))
                   (w - 1) r x)
       (2 * r + 1)) <$> zrange 0 (len src).

Definition box_columns (src : list Z) (w h r : Z) : list Z :=
  (fun i : Z =>
     let c := (i mod 4)%Z in
     let x := ((i / 4) mod w)%Z in
     let y := ((i / 4) / w)%Z in
     rounded_mean
       (window_sum (fun k => default 0%Z (load src (((k * w + x) * 4 + c)%Z)))
                   (h - 1) r y)
       (2 * r + 1)) <$> zrange 0 (len src).

Definition separable_box_mean (src : list Z) (w h r : Z) : list Z :=
  box_columns (box_rows src w h r) w h r.

(** *** [median3x3], lines 174-196 *)

(** [const idx = (x, y, c) => (y * w + x) * chan + c]. *)
Definition idx4 (w x y c : Z) : Z := (y * w + x) * 4 + c.

(** The order [vals.sort((a, b) => a - b)] sorts by: numbers ascending,
    [undefined] after every number. *)
Definition sort_le (a b : option Z) : Prop :=
  match a, b with
  | Some x, Some y => (x <= y)%Z
  | _, None => True
  | None, Some _ => False
  end.

#[export] Instance sort_le_dec a b : Decision (sort_le a b).
Proof. destruct a, b; simpl; apply _. Defined.

(** Lines 181-188: the nine samples of channel [c] around [(x, y)]. *)
Definition neighbourhood (src : list Z) (w h x y c : Z) : list (option Z) :=
  foldl (fun vals j =>
    foldl (fun vals i =>
             let xx := Z.max 0 (Z.min (w - 1) (x + i)) in
             let yy := Z.max 0 (Z.min (h - 1) (y + j)) in
             vals ++ [load src (idx4 w xx yy c)])
          vals (zrange (-1) 2))
    [] (zrange (-1) 2).

(** What the specification asks of the median: the nine samples of the
    3x3 neighbourhood, each coordinate clamped on its own. *)
Definition window3x3 (src : list Z) (w h x y c : Z) : list Z :=
  j ← [-1; 0; 1]%Z; i ← [-1; 0; 1]%Z;
  [default 0%Z (load src (idx4 w (nearest (w - 1) (x + i))
                                  (nearest (h - 1) (y + j)) c))].

(** Lines 180-192: the body of the loop over [x]. *)
Definition median_pixel (src : list Z) (w h x y : Z) (dst : list Z) : list Z :=
  let dst :=
    foldl (fun dst c =>
             let vals := neighbourhood src w h x y c in
             let vals := merge_sort sort_le vals in
             store dst (idx4 w x y c) (clamp_u8 (mjoin (vals !! 4%nat))))
          dst (zrange 0 3) in
  store dst (idx4 w x y 3) (clamp_u8 (load src (idx4 w x y 3))).

Definition median3x3 (src : list Z) (w h : Z) : list Z :=
  let dst := new_array 0%Z (len src) in
  foldl (fun dst y =>
           foldl (fun dst x => median_pixel src w h x y dst) dst (zrange 0 w))
        dst (zrange 0 h).

(** The value [median3x3] leaves in cell [i] of its output. *)
Definition median_cell (src : list Z) (w h i : Z) : Z :=
  let c := (i mod 4)%Z in
  let x := ((i / 4) mod w)%Z in
  let y := ((i / 4) / w)%Z in
  if (c <? 3)%Z
  then clamp_u8 (mjoin (merge_sort sort_le (neighbourhood src w h x y c) !! 4%nat))
  else clamp_u8 (load src i).

(** *** [unsharpMask], lines 198-211 *)

(** [dst[k] = Math.max(0, Math.min(255, Math.round(v)))]: the byte kept. *)
Definition clamp_round (v : float) : Z :=
  ToUint8Clamp (Math_max (num 0) (Math_min (num 255) (Math_round v))).

(** Lines 203-206: the byte stored for a source sample [s] and the blurred
    sample [b]. *)
Definition sharpened (amount s b : float) : Z :=
  let v := s + amount * (s - b) in
  clamp_round v.

(** Lines 202-208: the body of the loop over [i]. *)
Definition unsharp_pixel (src blurred : list Z) (amount : float) (i : Z)
    (dst : list Z) : list Z :=
  let dst :=
    foldl (fun dst c =>
             let s := byte_at src (i + c) in
             let b := byte_at blurred (i + c) in
             store dst (i + c) (sharpened amount s b))
          dst (zrange 0 3) in
  store dst (i + 3) (clamp_u8 (load src (i + 3))).

Definition unsharpMask (src : list Z) (w h radius : Z) (amount : float)
    : list Z :=
  let blurred := boxBlur src w h radius in
  let dst := new_array 0%Z (len src) in
  foldl (fun dst p => unsharp_pixel src blurred amount (4 * p) dst)
        dst (pixels (len src)).

(** *** [equalizeLuma], lines 213-251 *)

(** Lines 220-223: the luma and chroma of a pixel given as bytes. *)
Definition luma (r g b : float) : float :=
  lit 0.299 * r + lit 0.587 * g + lit 0.114 * b.
Definition chroma_u (r g b : float) : float :=
  - lit 0.14713 * r - lit 0.28886 * g + lit 0.436 * b.
Definition chroma_v (r g b : float) : float :=
  lit 0.615 * r - lit 0.51499 * g - lit 0.10001 * b.

(** Lines 215-226: the planes [yArr] (Uint8Array), [uArr], [vArr]
    (Float32Array). *)
Definition yuv_planes (src : list Z) (w h : Z)
    : list Z * list float * list float :=
  foldl (fun '(yArr, uArr, vArr) k =>
           let i := (4 * k)%Z in
           let r := byte_at src i / num 255 in
           let g := byte_at src (i + 1) / num 255 in
           let b := byte_at src (i + 2) / num 255 in
           let y := luma r g b in
           let u := chroma_u r g b in
           let v := chroma_v r g b in
           (store yArr k (ToUint8 (Math_round (y * num 255))),
            f32_store uArr k u, f32_store vArr k v))
        (new_array 0%Z (w * h), new_array (num 0) (w * h),
         new_array (num 0) (w * h))
        (pixels (len src)).

(** A store into a [Uint32Array] cell. *)
Definition u32_store (a : list Z) (i : Z) (v : Z) : list Z :=
  store a i (v mod 2 ^ 32)%Z.

(** Lines 227-228: [hist[yArr[i]]++]. *)
Definition histogram (yArr : list Z) : list Z :=
  foldl (fun hist i =>
           match load yArr i with
           | Some bin =>
               match load hist bin with
               | Some n => u32_store hist bin (n + 1)
               | None => hist
               end
           | None => hist
           end)
        (new_array 0%Z 256) (zrange 0 (len yArr)).

(** Lines 229-231: the running sum [cum] and the table [cdf]. *)
Definition cumulative (hist : list Z) : list Z :=
  snd (foldl (fun '(cum, cdf) i =>
                let cum := (cum + default 0 (load hist i))%Z in
                (cum, u32_store cdf i cum))
             (0%Z, new_array 0%Z 256) (zrange 0 256)).

(** Line 232: [cdf.find(v => v > 0) ?? 0]. *)
Definition cdf_min (cdf : list Z) : Z :=
  default 0%Z (find (fun v => 0 <? v)%Z cdf).

(** Lines 233-237: the equalized luma plane. *)
Definition equalized (yArr cdf : list Z) (cdfMin total w h : Z) : list float :=
  foldl (fun eqY i =>
           let c :=
             match load yArr i with
             | Some bin => match load cdf bin with
                           | Some c => num (c - cdfMin)
                           | None => NaN
                           end
             | None => NaN
             end in
           f32_store eqY i
             (Math_max (num 0)
                (Math_min (num 1) (c / num (Z.max 1 (total - cdfMin))))))
        (new_array (num 0) (w * h)) (zrange 0 (len yArr)).

(** Lines 245-247: the channel byte of a reconstructed component. *)
Definition to_channel (x : float) : Z := clamp_round (x * num 255).

Definition rebuild_r (y u v : float) : float := y + lit 1.13983 * v.
Definition rebuild_g (y u v : float) : float :=
  y - lit 0.39465 * u - lit 0.58060 * v.
Definition rebuild_b (y u v : float) : float := y + lit 2.03211 * u.

(** Lines 238-249: the output buffer. *)
Definition reconstruct (src : list Z) (eqY uArr vArr : list float) : list Z :=
  foldl (fun dst p =>
           let i := (4 * p)%Z in
           let y := f32_at eqY p in
           let u := f32_at uArr p in
           let v := f32_at vArr p in
           let r := rebuild_r y u v in
           let g := rebuild_g y u v in
           let b := rebuild_b y u v in
           let dst := store dst i (to_channel r) in
           let dst := store dst (i + 1) (to_channel g) in
           let dst := store dst (i + 2) (to_channel b) in
           store dst (i + 3) (clamp_u8 (load src (i + 3))))
        (new_array 0%Z (len src)) (pixels (len src)).

Definition equalizeLuma (src : list Z) (w h : Z) : list Z :=
  let '(yArr, uArr, vArr) := yuv_planes src w h in
  let hist := histogram yArr in
  let cdf := cumulative hist in
  let cdfMin := cdf_min cdf in
  let total := (w * h)%Z in
  let eqY := equalized yArr cdf cdfMin total w h in
  reconstruct src eqY uArr vArr.

(** The table [cdf] and the plane [eqY] that [equalizeLuma] builds. *)
Definition cdf_table (src : list Z) (w h : Z) : list Z :=
  cumulative (histogram (yuv_planes src w h).1.1).

Definition equalized_plane (src : list Z) (w h : Z) : list float :=
  let cdf := cdf_table src w h in
  equalized (yuv_planes src w h).1.1 cdf (cdf_min cdf) (w * h) w h.

(** The normalized channels of pixel [p] (line 220, with [i = 4 * p]). *)
Definition red (src : list Z) (p : Z) : float := byte_at src (4 * p) / num 255.
Definition green (src : list Z) (p : Z) : float :=
  byte_at src (4 * p + 1) / num 255.
Definition blue (src : list Z) (p : Z) : float :=
  byte_at src (4 * p + 2) / num 255.

(** What lines 224-225 leave in [yArr[p]], [uArr[p]], [vArr[p]]. *)
Definition stored_y (src : list Z) (p : Z) : Z :=
  ToUint8 (Math_round (luma (red src p) (green src p) (blue src p) * num 255)).
Definition stored_u (src : list Z) (p : Z) : float :=
  fround (chroma_u (red src p) (green src p) (blue src p)).
Definition stored_v (src : list Z) (p : Z) : float :=
  fround (chroma_v (red src p) (green src p) (blue src p)).

(** The value [reconstruct] leaves in cell [i] of its output. *)
Definition rebuilt_cell (src : list Z) (eqY uArr vArr : list float) (i : Z) : Z :=
  let p := (i / 4)%Z in
  let y := f32_at eqY p in
  let u := f32_at uArr p in
  let v := f32_at vArr p in
  match (i mod 4)%Z with
  | 0%Z => to_channel (rebuild_r y u v)
  | 1%Z => to_channel (rebuild_g y u v)
  | 2%Z => to_channel (rebuild_b y u v)
  | _ => clamp_u8 (load src i)
  end.

Close Scope num_scope.

(** ** The rest of the pixel code of the page *)

Open Scope num_scope.

(** The value [unsharpMask] leaves in cell [i] of its output (lines 203-208),
    [blurred] being the blurred copy. *)
Definition unsharp_cell (src blurred : list Z) (amount : float) (i : Z) : Z :=
  if (i mod 4 <? 3)%Z
  then sharpened amount (byte_at src i) (byte_at blurred i)
  else clamp_u8 (load src i).

(** [new ImageData(data, sw, sh)]: the constructor throws unless [data] holds
    [4 * sw * sh] cells, with [sw] and [sh] positive. *)
Definition new_ImageData (a : list Z) (sw sh : Z) : option ImageData :=
  if ((0 <? sw) && (0 <? sh) && (len a =? 4 * sw * sh))%Z
  then Some {| width := sw; height := sh; data := a |}
  else None.

(** [processImage], lines 258-270: the enhanced image put back on the canvas
    and the metrics record; [None] is the exception of the constructor. The
    face detection that follows reads neither. *)
Definition processImage (imgData : ImageData)
    : option (ImageData * Metrics float) :=
  let w := width imgData in
  let h := height imgData in
  let denoised := median3x3 (data imgData) w h in
  let equalized := equalizeLuma denoised w h in
  let sharpened := unsharpMask equalized w h 1 (lit 0.8) in
  match new_ImageData sharpened w h with
  | Some outData => Some (outData, computeMetrics outData)
  | None => None
  end.

(** The conversion of a store into an [unsigned long] attribute such as
    [canvas.width] (ToUint32): truncate, then reduce modulo 2^32. *)
Definition ToUint32 (x : float) : Z :=
  match Prim2SF x with
  | S754_finite s m e =>
      let t := if (0 <=? e)%Z then (Z.pos m * 2 ^ e)%Z
               else (Z.pos m / 2 ^ (- e))%Z in
      ((if s then - t else t) mod 2 ^ 32)%Z
  | _ => 0%Z
  end.

(** [drawImageToCanvas], lines 58-64: the canvas size for a decoded image of
    [img.width] x [img.height]. *)
Definition drawImageToCanvas (img_width img_height : Z) : Z * Z :=
  let maxDim := 1024%Z in
  let scale :=
    Math_min (num 1) (num maxDim / num (Z.max img_width img_height)) in
  let w := Math_round (num img_width * scale) in
  let h := Math_round (num img_height * scale) in
  (ToUint32 w, ToUint32 h).

Close Scope num_scope.

Section Planes.
Context {F : Type} `{JsArith F}.

(** What line 82 leaves in [gray[j]]. *)
Definition gray_of (d : ImageData) (j : Z) : F :=
  fround (lit 0.299 * byte_at (data d) (4 * j)
          + lit 0.587 * byte_at (data d) (4 * j + 1)
          + lit 0.114 * byte_at (data d) (4 * j + 2))%num.
End Planes.

(** The sum of a list of counters. *)
Definition total_of (l : list Z) : Z := foldr Z.add 0 l.

(** The values a cell of [hist] or [cdf] holds below 2^32 pixels, and the
    values a cell of [yArr] holds. *)
Definition counter (c : Z) : Prop := 0 <= c.
Definition bin_index (y : Z) : Prop := 0 <= y < 256.

(** The sides of an image that needs no scaling, for exhaustive checks. *)
Definition small_sides : list Z := zrange 0 1025.

(** What a pass of [boxBlur] stores in cell [x] of a line of [n] cells
    that starts at [ti]: the rounded mean of the window of the cell before,
    [x - 1], a cell out of the line replaced by the nearest end of it. *)
Definition late_mean (src : list Z) (r n stride ti x : Z) : Z :=
  rounded_mean
    (window_sum (fun k => default 0%Z (load src (ti + k * stride)%Z))
                (n - 1) r (x - 1))
    (2 * r + 1).

Definition late_rows (src : list Z) (w h r : Z) : list Z :=
  (fun i : Z =>
     let c := (i mod 4)%Z in
     let x := ((i / 4) mod w)%Z in
     let y := ((i / 4) / w)%Z in
     late_mean src r w 4 ((y * w) * 4 + c) x) <$> zrange 0 (len src).

Definition late_columns (src : list Z) (w h r : Z) : list Z :=
  (fun i : Z =>
     let c := (i mod 4)%Z in
     let x := ((i / 4) mod w)%Z in
     let y := ((i / 4) / w)%Z in
     late_mean src r h (w * 4) (x * 4 + c) y) <$> zrange 0 (len src).

Definition late_box_mean (src : list Z) (w h r : Z) : list Z :=
  late_columns (late_rows src w h r) w h r.

(** The sums of three bytes and the differences of two, for exhaustive
    checks. *)
Definition window_sums : list Z := Eval vm_compute in zrange 0 766.
Definition byte_differences : list Z := Eval vm_compute in zrange (-255) 256.

(** ** The values of doubles *)

Definition pow2 (e : Z) : R := powerRZ 2 e.
Definition F2R (m e : Z) : R := (IZR m * pow2 e)%R.

(** [z] lies in the cell of the grid [2^e] that starts at [m]; [exact]
    tells whether it is the start of the cell. *)
Definition inb (z : R) (m e : Z) (exact : bool) : Prop :=
  (F2R m e <= z < F2R (m + 1) e)%R /\ (exact = true <-> z = F2R m e).

Definition exact_loc (l : location) : bool :=
  match l with loc_Exact => true | _ => false end.

Definition exact_rec (mrs : shr_record) : bool :=
  negb (shr_r mrs) && negb (shr_s mrs).

(** A positive mantissa at its canonical exponent. *)
Definition canonical (prec emax m e : Z) : Prop :=
  0 < m /\ fexp prec emax (Zdigits2 m + e) = e.

(** What the rounding of a magnitude [z >= 0] with sign [sx] may return:
    never NaN; a zero only when no canonical number is below [z]; an
    infinity only when no canonical number within the exponent range is
    above [z]; otherwise a canonical number between every canonical number
    below [z] and every canonical number above [z]. *)
Definition rounds_to (prec emax : Z) (sx : bool) (z : R) (r : spec_float)
    : Prop :=
  match r with
  | S754_zero s =>
      s = sx /\ forall ml el, canonical prec emax ml el -> ~ (F2R ml el <= z)%R
  | S754_finite s m e =>
      s = sx /\ canonical prec emax (Z.pos m) e /\ e <= emax - prec /\
      (forall mu eu, canonical prec emax mu eu -> (z <= F2R mu eu)%R ->
         (F2R (Z.pos m) e <= F2R mu eu)%R) /\
      (forall ml el, canonical prec emax ml el -> (F2R ml el <= z)%R ->
         (F2R ml el <= F2R (Z.pos m) e)%R)
  | S754_infinity s =>
      s = sx /\
      forall mu eu, canonical prec emax mu eu -> eu <= emax - prec ->
        ~ (z <= F2R mu eu)%R
  | S754_nan => False
  end.

(** The real value of a finite number (0 for the others), and the kinds of
    numbers. *)
Definition SF2R (x : spec_float) : R :=
  match x with
  | S754_finite s m e => F2R (cond_Zopp s (Z.pos m)) e
  | _ => 0%R
  end.

Definition SFfin (x : spec_float) : Prop :=
  match x with S754_zero _ | S754_finite _ _ _ => True | _ => False end.

Definition SFnonneg (x : spec_float) : Prop :=
  match x with
  | S754_zero _ | S754_finite false _ _ | S754_infinity false => True
  | _ => False
  end.

Definition SFnumber (x : spec_float) : Prop :=
  match x with S754_nan => False | _ => True end.

(** What a comparison of two finite numbers returns, against their
    values. *)
Definition compares (x y : spec_float) (c : comparison) : Prop :=
  match c with
  | Lt => (SF2R x < SF2R y)%R
  | Eq => SF2R x = SF2R y
  | Gt => (SF2R y < SF2R x)%R
  end.

(** The same for the doubles of the program. *)
Definition B2R (x : float) : R := SF2R (Prim2SF x).
Definition finite (x : float) : Prop := SFfin (Prim2SF x).
Definition nonneg (x : float) : Prop := SFnonneg (Prim2SF x).
Definition number (x : float) : Prop := SFnumber (Prim2SF x).

(** A finite double between two integers. *)
Definition within (a b : Z) (x : float) : Prop :=
  finite x /\ (IZR a <= B2R x <= IZR b)%R.

(** What is asked of the engine's [Math.hypot]: on finite arguments it
    returns a number (not NaN) that is not negative. *)
Definition hypot_contract (hypot : float -> float -> float) : Prop :=
  forall x y, finite x -> finite y -> nonneg (hypot x y).

(** [x] is the finite number [N * 2^E]. *)
Definition dyadic (N E : Z) (x : float) : Prop :=
  finite x /\ B2R x = F2R N E.

(** A single-precision number in [0, 765], which is what a cell of the
    grayscale plane holds: at most 24 binary digits on a grid that is not
    finer than 2^-149. *)
Definition single (M E : Z) (g : float) : Prop :=
  dyadic M E g /\ Z.abs M < 2 ^ 24 /\ -149 <= E /\ (0 <= B2R g <= 765)%R.

(** The two zeros of the doubles. *)
Definition is_zero (x : float) : Prop := x = 0%float \/ x = (-0)%float.

(** What ECMAScript prescribes for [Math.hypot] when every argument is a
    zero: the result is +0. *)
Definition hypot_of_zeros (hypot : float -> float -> float) : Prop :=
  forall x y, is_zero x -> is_zero y -> hypot x y = 0%float.

(** ** Sample inputs *)

Definition one_pixel : ImageData :=
  {| width := 1; height := 1; data := [200; 120; 40; 255] |}.

Definition centre_dot : ImageData :=
  {| width := 3; height := 3;
     data := [0; 0; 0; 255;  0; 0; 0; 255;        0; 0; 0; 255;
              0; 0; 0; 255;  255; 255; 255; 255;  0; 0; 0; 255;
              0; 0; 0; 255;  0; 0; 0; 255;        0; 0; 0; 255] |}.

(** A 3x3 buffer whose three rows are black, dark grey, white. *)
Definition ramp : list Z :=
  [0; 0; 0; 255;  90; 90; 90; 255;  255; 255; 255; 255;
   0; 0; 0; 255;  90; 90; 90; 255;  255; 255; 255; 255;
   0; 0; 0; 255;  90; 90; 90; 255;  255; 255; 255; 255].

(** A 2x1 buffer of two different opaque pixels. *)
Definition two_pixels : list Z := [10; 20; 30; 255;  50; 60; 70; 255].

(** A single opaque teal pixel. *)
Definition teal_pixel : list Z := [4; 201; 187; 255].

(** A 2x2 buffer of one colour. *)
Definition flat_orange : list Z :=
  [230; 140; 20; 255;  230; 140; 20; 255;
   230; 140; 20; 255;  230; 140; 20; 255].

(** The buffer of [n] pixels of one colour [px]. *)
Definition flat (n : nat) (px : list Z) : list Z := mjoin (replicate n px).

(** The image of [w] x [h] pixels of one colour. *)
Definition flat_image (w h r g b a : Z) : ImageData :=
  {| width := w; height := h; data := flat (Z.to_nat (w * h)) [r; g; b; a] |}.

(** The values of a byte, for exhaustive checks. *)
Definition all_bytes : list Z := zrange 0 256.

(** The zero of the sign of [s - b]. *)
Definition signed_zero (s b : Z) : float :=
  if s <? b then PrimFloat.neg_zero else PrimFloat.zero.

(** * Properties *)

(** ** The conversions on sample values *)

Example Math_round_ties :
  Math_round 2.5%float = 3%float /\ Math_round (-2.5)%float = (-2)%float /\
  Math_round 0.25%float = 0%float /\ Math_round (-0.25)%float = (-0)%float.
Proof. repeat split; vm_compute; reflexivity. Qed.

Example ToUint8Clamp_samples :
  ToUint8Clamp 2.5%float = 2 /\ ToUint8Clamp 3.5%float = 4 /\
  ToUint8Clamp 300%float = 255 /\ ToUint8Clamp (-7)%float = 0 /\
  ToUint8Clamp PrimFloat.nan = 0.
Proof. repeat split; vm_compute; reflexivity. Qed.

Example ToUint8_samples :
  ToUint8 259.75%float = 3 /\ ToUint8 (-1)%float = 255 /\
  ToUint8 PrimFloat.nan = 0.
Proof. repeat split; vm_compute; reflexivity. Qed.

(** The single nearest to one tenth is 13421773 * 2^-27. *)
Example fround_tenth :
  fround64 (lit64 0.1) = SF2Prim (S754_finite false 13421773 (-27)).
Proof. vm_compute. reflexivity. Qed.

(** ** Loops *)

Lemma zrange_empty lo hi : hi <= lo -> zrange lo hi = [].
Proof.
  intros Hle. unfold zrange.
  replace (Z.to_nat (hi - lo)) with 0%nat by lia. reflexivity.
Qed.

Lemma zrange_snoc lo hi : lo <= hi -> zrange lo (hi + 1) = zrange lo hi ++ [hi].
Proof.
  intros Hle. unfold zrange.
  replace (Z.to_nat (hi + 1 - lo)) with (S (Z.to_nat (hi - lo))) by lia.
  rewrite seq_S, fmap_app. simpl. do 2 f_equal. lia.
Qed.

Lemma elem_of_zrange k lo hi : k ∈ zrange lo hi <-> lo <= k < hi.
Proof.
  unfold zrange. rewrite list_elem_of_fmap. split.
  - intros (n & -> & Hn). apply elem_of_seq in Hn. lia.
  - intros Hk. exists (Z.to_nat (k - lo)). split; [lia|].
    apply elem_of_seq. lia.
Qed.

Lemma length_zrange lo hi : length (zrange lo hi) = Z.to_nat (hi - lo).
Proof. unfold zrange. by rewrite length_fmap, length_seq. Qed.

(** A loop invariant indexed by the counter. *)
Lemma foldl_zrange_ind {St} (P : Z -> St -> Prop) (f : St -> Z -> St) s lo hi :
  lo <= hi ->
  P lo s ->
  (forall k s, lo <= k < hi -> P k s -> P (k + 1) (f s k)) ->
  P hi (foldl f s (zrange lo hi)).
Proof.
  intros Hle H0 Hstep.
  assert (Hn : forall n : nat, lo + Z.of_nat n <= hi ->
            P (lo + Z.of_nat n) (foldl f s (zrange lo (lo + Z.of_nat n)))).
  { induction n as [|n IH]; intros Hb.
    - rewrite zrange_empty by lia. simpl.
      replace (lo + Z.of_nat 0) with lo by lia. exact H0.
    - replace (lo + Z.of_nat (S n)) with (lo + Z.of_nat n + 1) by lia.
      rewrite zrange_snoc, foldl_app by lia. simpl.
      apply Hstep; [lia|]. apply IH. lia. }
  specialize (Hn (Z.to_nat (hi - lo))).
  replace (lo + Z.of_nat (Z.to_nat (hi - lo))) with hi in Hn by lia.
  apply Hn. lia.
Qed.

(** A loop invariant that ignores the counter. *)
Lemma foldl_invariant {St B} (P : St -> Prop) (f : St -> B -> St) (l : list B) s :
  P s -> (forall s b, b ∈ l -> P s -> P (f s b)) -> P (foldl f s l).
Proof.
  revert s. induction l as [|b l IH]; intros s Hs Hstep; simpl; [done|].
  apply IH.
  - apply Hstep; [by left | done].
  - intros s' b' Hin. apply Hstep. by right.
Qed.

(** A loop whose body runs no iteration of its inner loop. *)
Lemma foldl_idle {St B} (f : St -> B -> St) (l : list B) s :
  (forall s b, f s b = s) -> foldl f s l = s.
Proof. intros Hf. apply foldl_invariant; [done|]. intros ? ? _ ->. apply Hf. Qed.

(** ** Loads and stores *)

Lemma length_store {A} (a : list A) i v : length (store a i v) = length a.
Proof. unfold store. case_match; [done|]. apply length_insert. Qed.

Lemma load_store_eq {A} (a : list A) i v :
  0 <= i < len a -> load (store a i v) i = Some v.
Proof.
  unfold load, store, len. intros Hi.
  destruct (Z.ltb_spec i 0); [lia|].
  apply list_lookup_insert_eq. lia.
Qed.

Lemma load_store_ne {A} (a : list A) i j v :
  i <> j -> load (store a i v) j = load a j.
Proof.
  unfold load, store. intros Hne.
  destruct (Z.ltb_spec j 0); [done|].
  destruct (Z.ltb_spec i 0); [done|].
  apply list_lookup_insert_ne. lia.
Qed.

Lemma load_Some_lt {A} (a : list A) i v : load a i = Some v -> 0 <= i < len a.
Proof.
  unfold load, len. destruct (Z.ltb_spec i 0); [done|].
  intros Hl%lookup_lt_Some. lia.
Qed.

Lemma load_lt_Some {A} (a : list A) i : 0 <= i < len a -> is_Some (load a i).
Proof.
  unfold load, len. intros Hi. destruct (Z.ltb_spec i 0); [lia|].
  apply lookup_lt_is_Some. lia.
Qed.

Lemma load_ge_None {A} (a : list A) i : len a <= i -> load a i = None.
Proof.
  unfold load, len. intros Hi. destruct (Z.ltb_spec i 0); [done|].
  apply lookup_ge_None. lia.
Qed.

Lemma load_ext {A} (a b : list A) :
  length a = length b ->
  (forall i, 0 <= i < len a -> load a i = load b i) -> a = b.
Proof.
  intros Hlen Hload. apply list_eq. intros n.
  destruct (decide (n < length a)%nat) as [Hn|Hn].
  - specialize (Hload (Z.of_nat n)). unfold load, len in Hload.
    destruct (Z.ltb_spec (Z.of_nat n) 0); [lia|].
    rewrite Nat2Z.id in Hload. apply Hload. lia.
  - rewrite !lookup_ge_None_2 by lia. done.
Qed.

Lemma len_new_array {A} (z : A) n : len (new_array z n) = Z.max 0 n.
Proof. unfold len, new_array. rewrite length_replicate. lia. Qed.

(** ** The composite score (claim C4) *)

(** C4. For every image and whatever the arithmetic, the [spoofRisk] field of
    the record [computeMetrics] returns is
    [min(1, 0.6 * (1 - min(1, blurVariance / 2000))
            + 0.3 * min(1, gradientEnergy / 50) + 0.1 * symmetryScore)]
    of the other three fields of that record. *)
Theorem spoofRisk_formula {F} `{JsArith F} (d : ImageData) :
  let m := computeMetrics d in
  spoofRisk m =
  Math_min (num 1)
    (lit 0.6 * (num 1 - Math_min (num 1) (blurVariance m / num 2000))
     + lit 0.3 * Math_min (num 1) (gradientEnergy m / num 50)
     + lit 0.1 * symmetryScore m)%num.
Proof.
  unfold computeMetrics.
  destruct (laplacian _ _ _) as [[lap mean] count].
  destruct (symmetry_sum _ _ _) as [sym pix].
  reflexivity.
Qed.

(** ** Degenerate geometry (claim C8) *)

Section Degenerate.
Context {F : Type} `{JsArith F}.

Lemma laplacian_no_interior w h (gray : list F) :
  w < 3 \/ h < 3 ->
  laplacian w h gray = (new_array (num 0) (w * h), num 0, 0).
Proof.
  intros [Hw|Hh]; unfold laplacian.
  - apply foldl_idle. intros st y. by rewrite zrange_empty by lia.
  - by rewrite (zrange_empty 1 (h - 1)) by lia.
Qed.

Lemma sobel_sum_no_interior w h (gray : list F) :
  w < 3 \/ h < 3 -> sobel_sum w h gray = num 0.
Proof.
  intros [Hw|Hh]; unfold sobel_sum.
  - apply foldl_idle. intros st y. by rewrite zrange_empty by lia.
  - by rewrite (zrange_empty 1 (h - 1)) by lia.
Qed.

Lemma symmetry_sum_no_pair h (gray : list F) :
  symmetry_sum 1 h gray = (num 0, 0).
Proof. unfold symmetry_sum. apply foldl_idle. intros st y. done. Qed.
End Degenerate.

Lemma sum_sq_dev_zeros (n : nat) :
  sum_sq_dev (replicate n 0%float) 0%float = 0%float.
Proof.
  unfold sum_sq_dev. apply foldl_invariant; [done|].
  intros s b Hb%elem_of_replicate ->. destruct Hb as [-> _]. reflexivity.
Qed.

(** C8. On an image with no interior pixel (width below 3 or height below
    3) [computeMetrics] returns a record whose [blurVariance] and
    [gradientEnergy] are 0; on a 1x1 image its [symmetryScore] is 0 too.
    The function is total: no load or store of a typed array throws. *)
Theorem computeMetrics_degenerate (d : ImageData) :
  1 <= width d -> 1 <= height d ->
  width d < 3 \/ height d < 3 ->
  let m := computeMetrics (F := float) d in
  blurVariance m = 0%float /\
  gradientEnergy m = 0%float /\
  (width d = 1 -> height d = 1 -> symmetryScore m = 0%float).
Proof.
  intros Hw Hh Hsmall. unfold computeMetrics.
  rewrite laplacian_no_interior, sobel_sum_no_interior by done.
  assert (Hden : Z.max 1 ((width d - 2) * (height d - 2)) = 1) by nia.
  rewrite Hden.
  destruct (symmetry_sum _ _ _) as [sym pix] eqn:Hsym. simpl.
  split; [|split].
  - change (ofZ64 0 / ofZ64 (Z.max 1 0))%float with 0%float.
    unfold new_array. by rewrite sum_sq_dev_zeros.
  - reflexivity.
  - intros Hw1 Hh1. rewrite Hw1, symmetry_sum_no_pair in Hsym.
    injection Hsym as <- <-. reflexivity.
Qed.

Lemma computeMetrics_degenerate_witness :
  blurVariance (computeMetrics (F := float) one_pixel) = 0%float /\
  gradientEnergy (computeMetrics (F := float) one_pixel) = 0%float /\
  symmetryScore (computeMetrics (F := float) one_pixel) = 0%float.
Proof.
  destruct (computeMetrics_degenerate one_pixel
              ltac:(simpl; lia) ltac:(simpl; lia) ltac:(simpl; lia))
    as (Hblur & Hgrad & Hsym).
  exact (conj Hblur (conj Hgrad (Hsym eq_refl eq_refl))).
Defined.

(** The record the program's own doubles give on the sample image. *)
Example metrics_of_centre_dot :
  computeMetrics (F := float) centre_dot
  = {| blurVariance := 8323200%float; gradientEnergy := 0%float;
       symmetryScore := 1%float; spoofRisk := lit64 0.1 |}.
Proof. vm_compute. reflexivity. Qed.

(** ** The blur measure on the source (claim C1) *)

(** C1. The specification asks for the population variance of the Laplacian
    over the interior pixels only. On the 3x3 image with one white pixel at
    the centre the interior is that one pixel, whose variance is 0; the
    loop of lines 101-104 runs over the whole [lap] array, border cells
    included, and [computeMetrics] returns 8323200 = 8 * 1020^2. *)
Theorem blurVariance_counts_border :
  blurVariance (computeMetrics (F := float) centre_dot) = 8323200%float /\
  interior_laplacian_variance (F := float) centre_dot = 0%float.
Proof. split; vm_compute; reflexivity. Qed.

(** ** The box blur on the source (claims C2, C3) *)

(** C2. The specification asks for the rounded mean of each sample's own
    edge-replicated window. With radius 1 on the 3x3 ramp the row means are
    30, 115, 200; [boxBlur] writes each window's mean one cell late and
    returns 0, 30, 115 in every row. *)
Theorem boxBlur_window_late :
  boxBlur ramp 3 3 1 =
    [0; 0; 0; 255;  30; 30; 30; 255;  115; 115; 115; 255;
     0; 0; 0; 255;  30; 30; 30; 255;  115; 115; 115; 255;
     0; 0; 0; 255;  30; 30; 30; 255;  115; 115; 115; 255] /\
  separable_box_mean ramp 3 3 1 =
    [30; 30; 30; 255;  115; 115; 115; 255;  200; 200; 200; 255;
     30; 30; 30; 255;  115; 115; 115; 255;  200; 200; 200; 255;
     30; 30; 30; 255;  115; 115; 115; 255;  200; 200; 200; 255].
Proof. split; vm_compute; reflexivity. Qed.

(** C3. The specification asks [boxBlur] with radius 0 to be the identity.
    On a 2x1 buffer it returns the first pixel twice. *)
Theorem boxBlur_radius_0_not_identity :
  boxBlur two_pixels 2 1 0 = [10; 20; 30; 255;  10; 20; 30; 255] /\
  boxBlur two_pixels 2 1 0 <> two_pixels.
Proof. split; [vm_compute; reflexivity | vm_compute; discriminate]. Qed.

(** ** Loops that fill an array block by block *)

Lemma len_store {A} (a : list A) i v : len (store a i v) = len a.
Proof. unfold len. by rewrite length_store. Qed.

Lemma len_nonneg {A} (a : list A) : 0 <= len a.
Proof. unfold len. lia. Qed.

(** Iteration [k] of the loop writes the cells [off + B*k .. off + B*(k+1) - 1]
    of the array [arr] of its state, the value of cell [i] being [val i], and
    no other cell. Then after [n] iterations the cells [off .. off + B*n - 1]
    hold [val] and the others are untouched. *)
Lemma loop_cells {St A} (arr : St -> list A) (body : St -> Z -> St)
    (val : Z -> option A) (B off n L : Z) (s0 : St) :
  0 <= B -> 0 <= n ->
  len (arr s0) = L ->
  (forall s k, 0 <= k < n -> len (arr s) = L -> len (arr (body s k)) = L) ->
  (forall s k i, 0 <= k < n -> len (arr s) = L ->
     ~ (off + B * k <= i < off + B * (k + 1)) ->
     load (arr (body s k)) i = load (arr s) i) ->
  (forall s k i, 0 <= k < n -> len (arr s) = L ->
     off + B * k <= i < off + B * (k + 1) -> 0 <= i < L ->
     load (arr (body s k)) i = val i) ->
  len (arr (foldl body s0 (zrange 0 n))) = L /\
  (forall i, off <= i < off + B * n -> 0 <= i < L ->
     load (arr (foldl body s0 (zrange 0 n))) i = val i) /\
  (forall i, ~ (off <= i < off + B * n) ->
     load (arr (foldl body s0 (zrange 0 n))) i = load (arr s0) i).
Proof.
  intros HB Hn HL Hlen Hframe Hcell.
  apply (foldl_zrange_ind
    (fun k s => len (arr s) = L /\
       (forall i, off <= i < off + B * k -> 0 <= i < L -> load (arr s) i = val i) /\
       (forall i, ~ (off <= i < off + B * k) -> load (arr s) i = load (arr s0) i)));
    [done| |].
  - split; [done|]. split; [intros i Hi; lia | done].
  - intros k s Hk (Hl & Hin & Hout). split; [by apply Hlen|]. split.
    + intros i Hi HiL.
      destruct (decide (off + B * k <= i)) as [Hge|Hlt].
      * apply Hcell; try done. lia.
      * rewrite Hframe by (try done; lia). apply Hin; lia.
    + intros i Hi. rewrite Hframe by (try done; nia). apply Hout. nia.
Qed.

(** ** The median filter (claim C5) *)

Lemma clamp_u8_byte (v : option Z) : byte (clamp_u8 v).
Proof. unfold byte, clamp_u8. destruct v; lia. Qed.

Lemma clamp_u8_id (v : Z) : byte v -> clamp_u8 (Some v) = v.
Proof. unfold byte, clamp_u8. lia. Qed.

Lemma load_byte (src : list Z) i v : Forall byte src -> load src i = Some v -> byte v.
Proof.
  unfold load. intros Hall. destruct (Z.ltb_spec i 0); [done|].
  intros Hl. by eapply Forall_lookup_1.
Qed.

Lemma load_default (src : list Z) i :
  0 <= i < len src -> load src i = Some (default 0 (load src i)).
Proof. intros Hi. by destruct (load_lt_Some src i Hi) as [v ->]. Qed.

Lemma nearest_range hi k : 0 <= hi -> 0 <= nearest hi k <= hi.
Proof. unfold nearest. lia. Qed.

Lemma idx4_range w h x y c :
  0 <= x < w -> 0 <= y < h -> 0 <= c < 4 -> 0 <= idx4 w x y c < 4 * w * h.
Proof. unfold idx4. intros Hx Hy Hc. nia. Qed.

Lemma idx4_row w x y c :
  0 <= x < w -> 0 <= c < 4 ->
  4 * w * y + 4 * x <= idx4 w x y c < 4 * w * y + 4 * (x + 1).
Proof. unfold idx4. intros Hx Hc. nia. Qed.

Lemma neighbourhood_window (src : list Z) w h x y c :
  1 <= w -> 1 <= h -> len src = 4 * w * h -> 0 <= c < 4 ->
  neighbourhood src w h x y c = Some <$> window3x3 src w h x y c.
Proof.
  intros Hw Hh Hlen Hc. unfold neighbourhood, window3x3.
  change (zrange (-1) 2) with [-1; 0; 1]. simpl.
  unfold nearest.
  repeat match goal with
         | |- context [Some (default 0 (load src ?i))] =>
             rewrite <- (load_default src i)
               by (rewrite Hlen; apply idx4_range; lia)
         end.
  reflexivity.
Qed.

#[export] Instance sort_le_total : Total sort_le.
Proof. intros [x|] [y|]; simpl; lia. Qed.

Lemma Sorted_numbers (l : list Z) : Sorted sort_le (Some <$> l) -> Sorted Z.le l.
Proof.
  induction l as [|a l IH]; simpl; intros Hs; [constructor|].
  inversion Hs as [|? ? Hs' Hhd]; subst. constructor; [by apply IH|].
  destruct l as [|b l]; [constructor|].
  inversion Hhd; subst. by constructor.
Qed.

Lemma all_numbers (vals : list (option Z)) (win : list Z) :
  vals ≡ₚ Some <$> win ->
  exists l, vals = Some <$> l /\ l ≡ₚ win.
Proof.
  intros Hp. exists (default 0 <$> vals). split.
  - assert (Hall : Forall is_Some vals).
    { rewrite Hp. apply Forall_fmap, Forall_true. by eexists. }
    clear Hp. induction Hall as [|v vals [z ->] _ IH]; [done|].
    simpl. by f_equal.
  - rewrite Hp, <- list_fmap_compose.
    rewrite (list_fmap_ext (default 0 ∘ Some) (@Datatypes.id Z) win) by done.
    by rewrite list_fmap_id.
Qed.

(** The sample at rank 4 of the sorted neighbourhood is a sample of the
    ascending arrangement of the specification's window. *)
Lemma rank_4_of_window (src : list Z) w h x y c :
  1 <= w -> 1 <= h -> len src = 4 * w * h -> Forall byte src -> 0 <= c < 4 ->
  exists sorted : list Z,
    sorted ≡ₚ window3x3 src w h x y c /\ Sorted Z.le sorted /\
    Some (clamp_u8 (mjoin (merge_sort sort_le (neighbourhood src w h x y c) !! 4%nat)))
    = sorted !! 4%nat.
Proof.
  intros Hw Hh Hlen Hbytes Hc.
  rewrite neighbourhood_window by done.
  destruct (all_numbers _ _ (merge_sort_Permutation sort_le
             (Some <$> window3x3 src w h x y c))) as (l & Hl & Hperm).
  exists l. split; [done|]. split.
  - apply Sorted_numbers. rewrite <- Hl. apply Sorted_merge_sort, _.
  - rewrite Hl, list_lookup_fmap.
    assert (Hlen9 : length l = 9%nat) by (by rewrite Hperm).
    destruct (lookup_lt_is_Some_2 l 4) as [v Hv]; [lia|].
    rewrite Hv. simpl. f_equal. apply clamp_u8_id.
    assert (Hin : v ∈ window3x3 src w h x y c).
    { rewrite <- Hperm. by eapply list_elem_of_lookup_2. }
    unfold window3x3 in Hin. simpl in Hin.
    repeat match goal with
           | H : _ ∈ _ :: _ |- _ => apply elem_of_cons in H as [->|H]
           | H : _ ∈ [] |- _ => by apply elem_of_nil in H
           end;
      match goal with
      | |- byte (default 0 (load src ?i)) =>
          destruct (load src i) as [u|] eqn:Hu;
            [by eapply load_byte | simpl; unfold byte; lia]
      end.
Qed.

Lemma idx4_decode w x y c :
  0 <= x < w -> 0 <= c < 4 ->
  idx4 w x y c mod 4 = c /\
  (idx4 w x y c / 4) mod w = x /\
  (idx4 w x y c / 4) / w = y.
Proof.
  intros Hx Hc. unfold idx4.
  assert (Hq : ((y * w + x) * 4 + c) / 4 = y * w + x).
  { symmetry. apply (Z.div_unique _ 4 _ c); lia. }
  rewrite Hq. split; [|split].
  - symmetry. apply (Z.mod_unique _ 4 (y * w + x)); lia.
  - symmetry. apply (Z.mod_unique _ w y); lia.
  - symmetry. apply (Z.div_unique _ w _ x); lia.
Qed.

Lemma median_cell_idx4 src w h x y c :
  0 <= x < w -> 0 <= c < 4 ->
  median_cell src w h (idx4 w x y c) =
  if c <? 3
  then clamp_u8 (mjoin (merge_sort sort_le (neighbourhood src w h x y c) !! 4%nat))
  else clamp_u8 (load src (idx4 w x y c)).
Proof.
  intros Hx Hc. unfold median_cell.
  destruct (idx4_decode w x y c Hx Hc) as (-> & -> & ->). done.
Qed.

(** Rewrites a load from a pile of stores down to the store that wrote the
    cell, or to the array below the pile. *)
Ltac load_through :=
  repeat first
    [ rewrite load_store_eq by (rewrite ?len_store; lia)
    | rewrite load_store_ne by lia ].

Lemma median_pixel_cells src w h x y dst :
  0 <= x < w ->
  len (median_pixel src w h x y dst) = len dst /\
  (forall i, ~ (4 * w * y + 4 * x <= i < 4 * w * y + 4 * (x + 1)) ->
     load (median_pixel src w h x y dst) i = load dst i) /\
  (forall i, 4 * w * y + 4 * x <= i < 4 * w * y + 4 * (x + 1) ->
     0 <= i < len dst ->
     load (median_pixel src w h x y dst) i = Some (median_cell src w h i)).
Proof.
  intros Hx. unfold median_pixel. change (zrange 0 3) with [0; 1; 2]. simpl.
  pose proof (idx4_row w x y 0 Hx ltac:(lia)) as H0.
  pose proof (idx4_row w x y 1 Hx ltac:(lia)) as H1.
  pose proof (idx4_row w x y 2 Hx ltac:(lia)) as H2.
  pose proof (idx4_row w x y 3 Hx ltac:(lia)) as H3.
  split; [by rewrite !len_store|]. split.
  - intros i Hi. load_through. done.
  - intros i Hi HiL.
    assert (Hcases : i = idx4 w x y 0 \/ i = idx4 w x y 1 \/
                     i = idx4 w x y 2 \/ i = idx4 w x y 3)
      by (unfold idx4 in *; lia).
    destruct Hcases as [-> | [-> | [-> | ->]]];
      rewrite median_cell_idx4 by lia; simpl;
      unfold idx4 in *; load_through; done.
Qed.

Lemma median3x3_cells src w h :
  1 <= w -> 1 <= h -> len src = 4 * w * h ->
  len (median3x3 src w h) = len src /\
  forall i, 0 <= i < len src ->
    load (median3x3 src w h) i = Some (median_cell src w h i).
Proof.
  intros Hw Hh Hlen. unfold median3x3.
  assert (Hrow : forall dst y,
    len dst = len src ->
    len (foldl (fun dst x => median_pixel src w h x y dst) dst (zrange 0 w))
      = len src /\
    (forall i, 4 * w * y <= i < 4 * w * y + 4 * w -> 0 <= i < len src ->
       load (foldl (fun dst x => median_pixel src w h x y dst) dst (zrange 0 w)) i
       = Some (median_cell src w h i)) /\
    (forall i, ~ (4 * w * y <= i < 4 * w * y + 4 * w) ->
       load (foldl (fun dst x => median_pixel src w h x y dst) dst (zrange 0 w)) i
       = load dst i)).
  { intros dst y Hdst.
    apply (loop_cells (fun d : list Z => d)
             (fun dst x => median_pixel src w h x y dst)
             (fun i => Some (median_cell src w h i)) 4 (4 * w * y) w (len src));
      [lia | lia | done | | |].
    - intros s k Hk Hs.
      destruct (median_pixel_cells src w h k y s Hk) as (-> & _ & _). done.
    - intros s k i Hk Hs Hi.
      destruct (median_pixel_cells src w h k y s Hk) as (_ & Hf & _).
      apply Hf. lia.
    - intros s k i Hk Hs Hi HiL.
      destruct (median_pixel_cells src w h k y s Hk) as (_ & _ & Hc).
      apply Hc; lia. }
  destruct (loop_cells (fun d : list Z => d)
              (fun dst y =>
                 foldl (fun dst x => median_pixel src w h x y dst) dst (zrange 0 w))
              (fun i => Some (median_cell src w h i)) (4 * w) 0 h (len src)
              (new_array 0 (len src))) as (Hl & Hcells & _);
    [lia | lia | rewrite len_new_array; pose proof (len_nonneg src); lia | | | |].
  - intros s k Hk Hs. by destruct (Hrow s k Hs) as (? & _ & _).
  - intros s k i Hk Hs Hi. destruct (Hrow s k Hs) as (_ & _ & Hf).
    apply Hf. lia.
  - intros s k i Hk Hs Hi HiL. destruct (Hrow s k Hs) as (_ & Hc & _).
    apply Hc; lia.
  - split; [done|]. intros i Hi. apply Hcells; lia.
Qed.

(** C5. For a [w]x[h] RGBA buffer, [w, h >= 1], [median3x3] returns a buffer
    of the same length in which, at every pixel, each of R, G, B is the
    element of rank 4 (0-based) of the ascending arrangement of the nine
    samples of that channel in the 3x3 neighbourhood with coordinates
    clamped to [0,w-1] and [0,h-1], and alpha is the source alpha. *)
Theorem median3x3_rank_4 (src : list Z) (w h : Z) :
  1 <= w -> 1 <= h -> len src = 4 * w * h -> Forall byte src ->
  length (median3x3 src w h) = length src /\
  forall x y, 0 <= x < w -> 0 <= y < h ->
    (forall c, 0 <= c < 3 ->
       exists sorted : list Z,
         sorted ≡ₚ window3x3 src w h x y c /\ Sorted Z.le sorted /\
         load (median3x3 src w h) (idx4 w x y c) = sorted !! 4%nat) /\
    load (median3x3 src w h) (idx4 w x y 3) = load src (idx4 w x y 3).
Proof.
  intros Hw Hh Hlen Hbytes.
  destruct (median3x3_cells src w h Hw Hh Hlen) as [Hl Hcells].
  split; [unfold len in Hl; lia|].
  intros x y Hx Hy. split.
  - intros c Hc.
    destruct (rank_4_of_window src w h x y c) as (sorted & Hp & Hs & H4);
      [done.. | lia |].
    exists sorted. split; [done|]. split; [done|].
    rewrite Hcells by (rewrite Hlen; apply idx4_range; lia).
    rewrite median_cell_idx4 by lia.
    destruct (Z.ltb_spec c 3); [done | lia].
  - rewrite Hcells by (rewrite Hlen; apply idx4_range; lia).
    rewrite median_cell_idx4 by lia. simpl.
    destruct (load_lt_Some src (idx4 w x y 3)) as [v Hv];
      [rewrite Hlen; apply idx4_range; lia|].
    rewrite Hv. f_equal. apply clamp_u8_id. by eapply load_byte.
Qed.

Lemma median3x3_rank_4_witness :
  length (median3x3 ramp 3 3) = length ramp /\
  (exists sorted : list Z,
     sorted ≡ₚ window3x3 ramp 3 3 1 2 0 /\ Sorted Z.le sorted /\
     load (median3x3 ramp 3 3) (idx4 3 1 2 0) = sorted !! 4%nat) /\
  load (median3x3 ramp 3 3) (idx4 3 1 2 3) = load ramp (idx4 3 1 2 3).
Proof.
  assert (Hbytes : Forall byte ramp).
  { unfold ramp. repeat (constructor; [unfold byte; lia|]). constructor. }
  destruct (median3x3_rank_4 ramp 3 3 ltac:(lia) ltac:(lia) eq_refl Hbytes)
    as [Hlen Hpixel].
  destruct (Hpixel 1 2 ltac:(lia) ltac:(lia)) as [Hrgb Halpha].
  exact (conj Hlen (conj (Hrgb 0 ltac:(lia)) Halpha)).
Defined.

(** ** Buffers of bytes *)

Lemma ToUint8Clamp_byte (x : float) : byte (ToUint8Clamp x).
Proof.
  unfold ToUint8Clamp, byte.
  destruct (Prim2SF x) as [s|s| |s m e]; try destruct s; try lia.
  destruct (Z.leb_spec 0 e).
  - assert (0 < 2 ^ e) by (apply Z.pow_pos_nonneg; lia). nia.
  - assert (0 < 2 ^ (- e)) by (apply Z.pow_pos_nonneg; lia).
    assert (0 <= Z.pos m / 2 ^ (- e)) by (apply Z.div_pos; lia).
    repeat case_match; lia.
Qed.

Lemma store_bytes (a : list Z) i v :
  Forall byte a -> byte v -> Forall byte (store a i v).
Proof. unfold store. intros Ha Hv. case_match; [done|]. by apply Forall_insert. Qed.

Lemma new_array_bytes n : Forall byte (new_array 0 n).
Proof. apply Forall_replicate. unfold byte. lia. Qed.

Lemma blur_line_bytes src out iarr r n stride ti last :
  Forall byte out ->
  len (blur_line src out iarr r n stride ti last) = len out /\
  Forall byte (blur_line src out iarr r n stride ti last).
Proof.
  intros Hout. unfold blur_line.
  set (val0 := foldl _ _ (zrange 0 r)). clearbody val0.
  set (st1 := foldl _ _ (zrange 0 (r + 1))).
  assert (H1 : len st1.1.1.1 = len out /\ Forall byte st1.1.1.1).
  { subst st1. apply (foldl_invariant
      (fun st : list Z * Z * Z * float =>
         len st.1.1.1 = len out /\ Forall byte st.1.1.1)); [done|].
    intros [[[o t] ri] v] _ _ [Hl Hb]. simpl in *. unfold u8c_store.
    rewrite len_store. split; [done|].
    apply store_bytes; [done | apply ToUint8Clamp_byte]. }
  destruct st1 as [[[o1 t1] r1] v1]. simpl in H1.
  set (st2 := foldl _ _ (zrange (r + 1) (n - r))).
  assert (H2 : len st2.1.1.1.1 = len out /\ Forall byte st2.1.1.1.1).
  { subst st2. apply (foldl_invariant
      (fun st : list Z * Z * Z * Z * float =>
         len st.1.1.1.1 = len out /\ Forall byte st.1.1.1.1)); [done|].
    intros [[[[o t] li] ri] v] _ _ [Hl Hb]. simpl in *. unfold u8c_store.
    rewrite len_store. split; [done|].
    apply store_bytes; [done | apply ToUint8Clamp_byte]. }
  destruct st2 as [[[[o2 t2] l2] r2] v2]. simpl in H2.
  set (st3 := foldl _ _ (zrange (n - r) n)).
  assert (H3 : len st3.1.1.1 = len out /\ Forall byte st3.1.1.1).
  { subst st3. apply (foldl_invariant
      (fun st : list Z * Z * Z * float =>
         len st.1.1.1 = len out /\ Forall byte st.1.1.1)); [done|].
    intros [[[o t] li] v] _ _ [Hl Hb]. simpl in *. unfold u8c_store.
    rewrite len_store. split; [done|].
    apply store_bytes; [done | apply ToUint8Clamp_byte]. }
  destruct st3 as [[[o3 t3] l3] v3]. done.
Qed.

Lemma boxBlur_bytes src w h r :
  len (boxBlur src w h r) = len src /\ Forall byte (boxBlur src w h r).
Proof.
  unfold boxBlur.
  assert (Hpass : forall (from : list Z) (n stride : Z)
                    (first last : Z -> Z -> Z) (counters : list Z) iarr,
    let out :=
      foldl (fun out a =>
               foldl (fun out c =>
                        blur_line from out iarr r n stride (first a c) (last a c))
                     out (zrange 0 4))
            (new_array 0 (len src)) counters in
    len out = len src /\ Forall byte out).
  { intros from n stride first last counters iarr.
    apply (foldl_invariant (fun out => len out = len src /\ Forall byte out)).
    - split; [|apply new_array_bytes].
      rewrite len_new_array. pose proof (len_nonneg src). lia.
    - intros out a _ Hout.
      apply (foldl_invariant (fun out => len out = len src /\ Forall byte out));
        [done|].
      intros out' c _ [Hl Hb].
      destruct (blur_line_bytes from out' iarr r n stride (first a c) (last a c) Hb)
        as [Hl' Hb'].
      split; [congruence | done]. }
  apply (Hpass _ h (w * 4) (fun x c => x * 4 + c)
           (fun x c => ((h - 1) * w + x) * 4 + c)).
Qed.

(** ** Sharpening with gain 0 (claim C9) *)

Lemma elem_of_all_bytes v : byte v -> v ∈ all_bytes.
Proof. unfold byte, all_bytes. intros Hv. apply elem_of_zrange. lia. Qed.

Lemma fmap_eq_pointwise {A B} (f g : A -> B) (l : list A) :
  f <$> l = g <$> l -> forall x, x ∈ l -> f x = g x.
Proof.
  induction l as [|a l IH]; simpl; intros Heq x Hx.
  - by apply elem_of_nil in Hx.
  - injection Heq as Ha Hl. apply elem_of_cons in Hx as [->|Hx]; auto.
Qed.

(** With gain 0 the correction term [amount * (s - b)] is a zero, of the
    sign of [s - b]: checked on the 256 x 256 pairs of bytes, a row at a
    time. *)
Lemma zero_gain_term_checked :
  Forall (fun s =>
            (fun b => (0 * (ofZ64 s - ofZ64 b))%float) <$> all_bytes
            = signed_zero s <$> all_bytes)
         all_bytes.
Proof.
  unfold all_bytes at 3.
  let l := eval vm_compute in (zrange 0 256) in change (zrange 0 256) with l.
  repeat (constructor; [vm_compute; reflexivity|]). constructor.
Qed.

Lemma zero_gain_term s b :
  byte s -> byte b -> (0 * (ofZ64 s - ofZ64 b))%float = signed_zero s b.
Proof.
  intros Hs Hb.
  pose proof zero_gain_term_checked as Hall.
  rewrite Forall_forall in Hall.
  apply (fmap_eq_pointwise _ _ _ (Hall s (elem_of_all_bytes s Hs)) b).
  by apply elem_of_all_bytes.
Qed.

(** Adding a zero of either sign to a byte and storing it gives the byte
    back: checked on the 256 bytes. *)
Lemma store_plus_zero_checked :
  forallb (fun s => (clamp_round (ofZ64 s + 0)%float =? s)
                    && (clamp_round (ofZ64 s + -0)%float =? s))
          all_bytes = true.
Proof. vm_compute. reflexivity. Qed.

Lemma sharpened_0 s b : byte s -> byte b -> sharpened 0%float (num s) (num b) = s.
Proof.
  intros Hs Hb. unfold sharpened. simpl.
  rewrite zero_gain_term by done.
  pose proof store_plus_zero_checked as Hall.
  rewrite forallb_forall in Hall.
  specialize (Hall s (proj1 (list_elem_of_In _ _) (elem_of_all_bytes s Hs))).
  apply andb_prop in Hall as [Hpos Hneg].
  unfold signed_zero. destruct (s <? b); by apply Z.eqb_eq.
Qed.


Lemma byte_at_load (a : list Z) i v :
  load a i = Some v -> byte_at (F := float) a i = ofZ64 v.
Proof. unfold byte_at. by intros ->. Qed.

Lemma unsharp_pixel_cells (src blurred : list Z) p dst :
  Forall byte src -> Forall byte blurred ->
  len blurred = len src -> len dst = len src ->
  len (unsharp_pixel src blurred 0%float (4 * p) dst) = len dst /\
  (forall i, ~ (4 * p <= i < 4 * (p + 1)) ->
     load (unsharp_pixel src blurred 0%float (4 * p) dst) i = load dst i) /\
  (forall i, 4 * p <= i < 4 * (p + 1) -> 0 <= i < len dst ->
     load (unsharp_pixel src blurred 0%float (4 * p) dst) i = load src i).
Proof.
  intros Hsrc Hblur Hlb Hld. unfold unsharp_pixel.
  change (zrange 0 3) with [0; 1; 2]. simpl.
  split; [by rewrite !len_store|]. split.
  - intros i Hi. load_through. done.
  - intros i Hi HiL.
    assert (Hcases : i = 4 * p + 0 \/ i = 4 * p + 1 \/
                     i = 4 * p + 2 \/ i = 4 * p + 3) by lia.
    destruct (load_lt_Some src i) as [s Hs]; [lia|].
    destruct (load_lt_Some blurred i) as [b Hb]; [lia|].
    pose proof (load_byte _ _ _ Hsrc Hs) as Hsb.
    pose proof (load_byte _ _ _ Hblur Hb) as Hbb.
    destruct Hcases as [-> | [-> | [-> | ->]]]; load_through;
      rewrite ?(byte_at_load _ _ _ Hs), ?(byte_at_load _ _ _ Hb), Hs;
      f_equal; [by apply sharpened_0.. | by apply clamp_u8_id].
Qed.

(** C9. For every buffer of bytes, width, height and radius, [unsharpMask]
    with amount 0 returns a buffer equal to its input, colour samples and
    alpha alike. *)
Theorem unsharpMask_amount_0 (src : list Z) (w h radius : Z) :
  Forall byte src -> unsharpMask src w h radius 0%float = src.
Proof.
  intros Hsrc. unfold unsharpMask, pixels.
  destruct (boxBlur_bytes src w h radius) as [Hlb Hblur].
  pose proof (len_nonneg src) as Hl0.
  destruct (loop_cells (fun d : list Z => d)
              (fun dst p =>
                 unsharp_pixel src (boxBlur src w h radius) 0%float (4 * p) dst)
              (load src) 4 0 ((len src + 3) / 4) (len src)
              (new_array 0 (len src))) as (Hl & Hcells & _);
    [lia | apply Z.div_pos; lia | rewrite len_new_array; lia | | | |].
  - intros s k Hk Hs.
    destruct (unsharp_pixel_cells src _ k s Hsrc Hblur Hlb Hs) as (-> & _ & _).
    done.
  - intros s k i Hk Hs Hi.
    destruct (unsharp_pixel_cells src _ k s Hsrc Hblur Hlb Hs) as (_ & Hf & _).
    apply Hf. lia.
  - intros s k i Hk Hs Hi HiL.
    destruct (unsharp_pixel_cells src _ k s Hsrc Hblur Hlb Hs) as (_ & _ & Hc).
    apply Hc; lia.
  - simpl in Hl, Hcells. apply load_ext; [apply Nat2Z.inj, Hl|].
    intros i Hi. rewrite Hl in Hi. apply Hcells; [|done].
    pose proof (Z.mul_div_le (len src + 3) 4).
    pose proof (Z.mod_pos_bound (len src + 3) 4).
    pose proof (Z.div_mod (len src + 3) 4). lia.
Qed.

Lemma unsharpMask_amount_0_witness :
  unsharpMask two_pixels 2 1 1 0%float = two_pixels.
Proof.
  apply (unsharpMask_amount_0 two_pixels 2 1 1).
  unfold two_pixels. repeat (constructor; [unfold byte; lia|]). constructor.
Defined.

(** ** The luma equalizer (claims C6, C10) *)

Lemma pixels_count (src : list Z) w h :
  len src = 4 * w * h -> (len src + 3) / 4 = w * h.
Proof.
  intros ->. symmetry. apply (Z.div_unique _ 4 _ 3); lia.
Qed.

Lemma f32_at_load (a : list float) i v : load a i = Some v -> f32_at a i = v.
Proof. unfold f32_at. by intros ->. Qed.

(** The three planes hold, at every pixel, the values computed from that
    pixel's own bytes. *)
Lemma yuv_planes_cells (src : list Z) w h :
  0 <= w * h -> len src = 4 * w * h ->
  len (yuv_planes src w h).1.1 = w * h /\
  len (yuv_planes src w h).1.2 = w * h /\
  len (yuv_planes src w h).2 = w * h /\
  forall k, 0 <= k < w * h ->
    load (yuv_planes src w h).1.1 k = Some (stored_y src k) /\
    load (yuv_planes src w h).1.2 k = Some (stored_u src k) /\
    load (yuv_planes src w h).2 k = Some (stored_v src k).
Proof.
  intros Hwh Hlen. unfold yuv_planes, pixels. rewrite (pixels_count src w h Hlen).
  match goal with
  | |- context [foldl ?f ?s0 (zrange 0 (w * h))] =>
      set (body := f); set (init := s0)
  end.
  destruct (loop_cells (fun st : list Z * list float * list float => st.1.1)
              body (fun k => Some (stored_y src k)) 1 0 (w * h) (w * h) init)
    as (Hly & Hy & _);
    [lia | lia | simpl; rewrite len_new_array; lia
    | intros [[ya ua] va] k Hk Hs; simpl in *; by rewrite len_store
    | intros [[ya ua] va] k i Hk Hs Hi; simpl in *;
      apply load_store_ne; lia
    | intros [[ya ua] va] k i Hk Hs Hi HiL; simpl in *;
      assert (i = k) as -> by lia; apply load_store_eq; lia
    |].
  destruct (loop_cells (fun st : list Z * list float * list float => st.1.2)
              body (fun k => Some (stored_u src k)) 1 0 (w * h) (w * h) init)
    as (Hlu & Hu & _);
    [lia | lia | simpl; rewrite len_new_array; lia
    | intros [[ya ua] va] k Hk Hs; simpl in *; unfold f32_store;
      by rewrite len_store
    | intros [[ya ua] va] k i Hk Hs Hi; simpl in *;
      apply load_store_ne; lia
    | intros [[ya ua] va] k i Hk Hs Hi HiL; simpl in *;
      assert (i = k) as -> by lia; apply load_store_eq; lia
    |].
  destruct (loop_cells (fun st : list Z * list float * list float => st.2)
              body (fun k => Some (stored_v src k)) 1 0 (w * h) (w * h) init)
    as (Hlv & Hv & _);
    [lia | lia | simpl; rewrite len_new_array; lia
    | intros [[ya ua] va] k Hk Hs; simpl in *; unfold f32_store;
      by rewrite len_store
    | intros [[ya ua] va] k i Hk Hs Hi; simpl in *;
      apply load_store_ne; lia
    | intros [[ya ua] va] k i Hk Hs Hi HiL; simpl in *;
      assert (i = k) as -> by lia; apply load_store_eq; lia
    |].
  split; [done|]. split; [done|]. split; [done|].
  intros k Hk. split; [apply Hy; lia|]. split; [apply Hu; lia | apply Hv; lia].
Qed.

Lemma cell_decode p c : 0 <= c < 4 -> (4 * p + c) / 4 = p /\ (4 * p + c) mod 4 = c.
Proof.
  intros Hc. split; symmetry.
  - apply (Z.div_unique _ 4 _ c); lia.
  - apply (Z.mod_unique _ 4 p); lia.
Qed.

Lemma rebuilt_cell_at src eqY uArr vArr p :
  let y := f32_at eqY p in
  let u := f32_at uArr p in
  let v := f32_at vArr p in
  rebuilt_cell src eqY uArr vArr (4 * p + 0) = to_channel (rebuild_r y u v) /\
  rebuilt_cell src eqY uArr vArr (4 * p + 1) = to_channel (rebuild_g y u v) /\
  rebuilt_cell src eqY uArr vArr (4 * p + 2) = to_channel (rebuild_b y u v) /\
  rebuilt_cell src eqY uArr vArr (4 * p + 3) = clamp_u8 (load src (4 * p + 3)).
Proof.
  unfold rebuilt_cell.
  destruct (cell_decode p 0 ltac:(lia)) as [-> ->].
  destruct (cell_decode p 1 ltac:(lia)) as [-> ->].
  destruct (cell_decode p 2 ltac:(lia)) as [-> ->].
  destruct (cell_decode p 3 ltac:(lia)) as [-> ->].
  done.
Qed.

Lemma reconstruct_cells (src : list Z) (eqY uArr vArr : list float) :
  len (reconstruct src eqY uArr vArr) = len src /\
  forall i, 0 <= i < len src ->
    load (reconstruct src eqY uArr vArr) i
    = Some (rebuilt_cell src eqY uArr vArr i).
Proof.
  unfold reconstruct, pixels.
  pose proof (len_nonneg src) as Hl0.
  match goal with
  | |- context [foldl ?f ?s0 (zrange 0 ?n)] => set (body := f)
  end.
  destruct (loop_cells (fun d : list Z => d) body
              (fun i => Some (rebuilt_cell src eqY uArr vArr i))
              4 0 ((len src + 3) / 4) (len src) (new_array 0 (len src)))
    as (Hl & Hcells & _);
    [lia | apply Z.div_pos; lia | rewrite len_new_array; lia | | | |].
  - intros s k Hk Hs. subst body. simpl. by rewrite !len_store.
  - intros s k i Hk Hs Hi. subst body. simpl. load_through. done.
  - intros s k i Hk Hs Hi HiL. subst body. simpl in *.
    destruct (rebuilt_cell_at src eqY uArr vArr k) as (E0 & E1 & E2 & E3).
    assert (Hcases : i = 4 * k \/ i = 4 * k + 1 \/
                     i = 4 * k + 2 \/ i = 4 * k + 3) by lia.
    replace (4 * k + 0) with (4 * k) in E0 by lia.
    destruct Hcases as [-> | [-> | [-> | ->]]]; load_through;
      by rewrite ?E0, ?E1, ?E2, ?E3.
  - simpl in *. split; [done|]. intros i Hi. apply Hcells; [|done].
    pose proof (Z.mod_pos_bound (len src + 3) 4).
    pose proof (Z.div_mod (len src + 3) 4). lia.
Qed.

(** C6, as the code has it. For a [w]x[h] RGBA buffer, at every pixel [p]
    the output of [equalizeLuma] is the reconstruction
    [R = Y' + 1.13983 V], [G = Y' - 0.39465 U - 0.58060 V],
    [B = Y' + 2.03211 U] from the equalized luma [Y' = eqY[p]] of the
    plane the function builds and from the [U], [V] of that pixel's own
    normalized RGB, [U = -0.14713 R - 0.28886 G + 0.436 B],
    [V = 0.615 R - 0.51499 G - 0.10001 B], each rounded to single precision
    by its stay in a Float32Array; the output alpha is the source alpha. *)
Theorem equalizeLuma_chroma_alpha (src : list Z) (w h : Z) :
  1 <= w -> 1 <= h -> len src = 4 * w * h -> Forall byte src ->
  forall p, 0 <= p < w * h ->
    let y' := f32_at (equalized_plane src w h) p in
    load (equalizeLuma src w h) (4 * p + 0)
      = Some (to_channel (rebuild_r y' (stored_u src p) (stored_v src p))) /\
    load (equalizeLuma src w h) (4 * p + 1)
      = Some (to_channel (rebuild_g y' (stored_u src p) (stored_v src p))) /\
    load (equalizeLuma src w h) (4 * p + 2)
      = Some (to_channel (rebuild_b y' (stored_u src p) (stored_v src p))) /\
    load (equalizeLuma src w h) (4 * p + 3) = load src (4 * p + 3).
Proof.
  intros Hw Hh Hlen Hbytes p Hp.
  unfold equalizeLuma, equalized_plane, cdf_table.
  destruct (yuv_planes_cells src w h ltac:(nia) Hlen) as (_ & _ & _ & Hplanes).
  destruct (Hplanes p Hp) as (_ & Hu & Hv).
  destruct (yuv_planes src w h) as [[yArr uArr] vArr]. simpl in Hu, Hv.
  simpl fst.
  set (eqY := equalized _ _ _ _ _ _).
  destruct (reconstruct_cells src eqY uArr vArr) as [_ Hcells].
  destruct (rebuilt_cell_at src eqY uArr vArr p) as (E0 & E1 & E2 & E3).
  rewrite (f32_at_load _ _ _ Hu), (f32_at_load _ _ _ Hv) in E0, E1, E2.
  cbv zeta.
  rewrite !Hcells by lia. rewrite E0, E1, E2, E3.
  split; [done|]. split; [done|]. split; [done|].
  destruct (load_lt_Some src (4 * p + 3)) as [a Ha]; [lia|].
  rewrite Ha. f_equal. apply clamp_u8_id. by eapply load_byte.
Qed.

Lemma equalizeLuma_chroma_alpha_witness :
  load (equalizeLuma flat_orange 2 2) (4 * 3 + 0)
    = Some (to_channel (rebuild_r (f32_at (equalized_plane flat_orange 2 2) 3)
                                  (stored_u flat_orange 3)
                                  (stored_v flat_orange 3))) /\
  load (equalizeLuma flat_orange 2 2) (4 * 3 + 1)
    = Some (to_channel (rebuild_g (f32_at (equalized_plane flat_orange 2 2) 3)
                                  (stored_u flat_orange 3)
                                  (stored_v flat_orange 3))) /\
  load (equalizeLuma flat_orange 2 2) (4 * 3 + 2)
    = Some (to_channel (rebuild_b (f32_at (equalized_plane flat_orange 2 2) 3)
                                  (stored_u flat_orange 3)
                                  (stored_v flat_orange 3))) /\
  load (equalizeLuma flat_orange 2 2) (4 * 3 + 3)
    = load flat_orange (4 * 3 + 3).
Proof.
  apply (equalizeLuma_chroma_alpha flat_orange 2 2);
    [lia | lia | reflexivity | | lia].
  unfold flat_orange. repeat (constructor; [unfold byte; lia|]). constructor.
Defined.

(** C6, as the claim states it, fails on the 1x1 teal buffer: the [U] kept
    for the reconstruction of its pixel is not the double the formula gives
    for that pixel but the nearest single, and the blue byte of the output,
    46, is not the byte 47 that the formula's own [U], [V] reconstruct to. *)
Lemma chroma_not_exact :
  let r := red teal_pixel 0 in
  let g := green teal_pixel 0 in
  let b := blue teal_pixel 0 in
  f32_at (yuv_planes teal_pixel 1 1).1.2 0 <> chroma_u r g b /\
  load (equalizeLuma teal_pixel 1 1) 2 = Some 46 /\
  to_channel (rebuild_b (f32_at (equalized_plane teal_pixel 1 1) 0)
                        (chroma_u r g b) (chroma_v r g b)) = 47.
Proof.
  split; [|split; vm_compute; reflexivity].
  intros Heq. apply (f_equal Prim2SF) in Heq. vm_compute in Heq. discriminate.
Qed.

(** *** A single populated bin *)

Lemma ToUint8_range (x : float) : 0 <= ToUint8 x < 256.
Proof.
  unfold ToUint8. destruct (Prim2SF x); try lia. apply Z.mod_pos_bound. lia.
Qed.

Lemma load_new_array {A} (z : A) n i :
  0 <= i < n -> load (new_array z n) i = Some z.
Proof.
  intros Hi. unfold load, new_array. destruct (Z.ltb_spec i 0); [lia|].
  apply lookup_replicate_2. lia.
Qed.

Lemma load_nat {A} (a : list A) (i : nat) : load a (Z.of_nat i) = a !! i.
Proof.
  unfold load. destruct (Z.ltb_spec (Z.of_nat i) 0); [lia|].
  by rewrite Nat2Z.id.
Qed.

(** [find] returns the first element that passes the test. *)
Lemma find_first {A} (P : A -> bool) (l : list A) (k : nat) (v : A) :
  (forall i u, (i < k)%nat -> l !! i = Some u -> P u = false) ->
  l !! k = Some v -> P v = true -> find P l = Some v.
Proof.
  revert k. induction l as [|a l IH]; intros k Hbefore Hk Hv; [done|].
  destruct k as [|k]; simpl in *.
  - injection Hk as ->. by rewrite Hv.
  - rewrite (Hbefore 0%nat a) by (done || lia).
    apply (IH k); [|done..].
    intros i u Hi Hu. apply (Hbefore (S i) u); [lia | done].
Qed.

Section SingleBin.
Variables (yArr : list Z) (bin n : Z).
Hypothesis Hbin : 0 <= bin < 256.
Hypothesis Hn : 0 < n < 2 ^ 32.
Hypothesis Hlen : len yArr = n.
Hypothesis Hall : forall k, 0 <= k < n -> load yArr k = Some bin.

Lemma histogram_single :
  len (histogram yArr) = 256 /\
  load (histogram yArr) bin = Some n /\
  forall j, 0 <= j < 256 -> j <> bin -> load (histogram yArr) j = Some 0.
Proof.
  unfold histogram. rewrite Hlen.
  apply (foldl_zrange_ind
    (fun k hist => len hist = 256 /\ load hist bin = Some k /\
       forall j, 0 <= j < 256 -> j <> bin -> load hist j = Some 0));
    [lia| |].
  - split; [by rewrite len_new_array|].
    split; [by apply load_new_array|].
    intros j Hj _. by apply load_new_array.
  - intros k hist Hk (Hl & Hb & Hothers).
    rewrite (Hall k Hk), Hb. simpl. unfold u32_store.
    rewrite Z.mod_small by lia. rewrite len_store.
    split; [done|]. split; [apply load_store_eq; lia|].
    intros j Hj Hne. rewrite load_store_ne by done. by apply Hothers.
Qed.

Lemma cumulative_single :
  len (cumulative (histogram yArr)) = 256 /\
  forall i, 0 <= i < 256 ->
    load (cumulative (histogram yArr)) i = Some (if i <? bin then 0 else n).
Proof.
  destruct histogram_single as (Hl & Hb & Hothers).
  unfold cumulative.
  set (P := fun (k : Z) (st : Z * list Z) =>
    st.1 = (if k <=? bin then 0 else n) /\ len st.2 = 256 /\
    forall i, 0 <= i < k -> load st.2 i = Some (if i <? bin then 0 else n)).
  assert (Hend : P 256 (foldl (fun '(cum, cdf) i =>
                    let cum := cum + default 0 (load (histogram yArr) i) in
                    (cum, u32_store cdf i cum))
                  (0, new_array 0 256) (zrange 0 256))).
  { apply foldl_zrange_ind; [lia| |]; unfold P.
    - split; [|split]; simpl.
      + by destruct (Z.leb_spec 0 bin); [|lia].
      + by rewrite len_new_array.
      + intros i Hi. lia.
    - intros k [cum cdf] Hk (Hcum & Hlc & Hcells). simpl in *.
      assert (Hnew : cum + default 0 (load (histogram yArr) k)
                     = if k <? bin then 0 else n).
      { subst cum. destruct (decide (k = bin)) as [->|Hne].
        - rewrite Hb. simpl.
          destruct (Z.leb_spec bin bin), (Z.ltb_spec bin bin); lia.
        - rewrite Hothers by done. simpl.
          destruct (Z.leb_spec k bin), (Z.ltb_spec k bin); lia. }
      rewrite Hnew. unfold u32_store. rewrite len_store.
      split; [|split; [done|]].
      + destruct (Z.leb_spec (k + 1) bin), (Z.ltb_spec k bin); lia.
      + intros i Hi. destruct (decide (i = k)) as [->|Hne].
        * rewrite load_store_eq by lia. f_equal.
          apply Z.mod_small. destruct (k <? bin); lia.
        * rewrite load_store_ne by done. apply Hcells. lia. }
  unfold P in Hend. destruct Hend as (_ & Hlc & Hcells). split; [done|].
  intros i Hi. by apply Hcells.
Qed.

Lemma cdf_min_single : cdf_min (cumulative (histogram yArr)) = n.
Proof.
  destruct cumulative_single as [Hl Hcells]. unfold cdf_min.
  rewrite (find_first _ _ (Z.to_nat bin) n); [done| | |].
  - intros i u Hi Hu. rewrite <- load_nat, Hcells in Hu by lia.
    injection Hu as <-. destruct (Z.ltb_spec (Z.of_nat i) bin); [done | lia].
  - rewrite <- load_nat, Z2Nat.id, Hcells by lia.
    by rewrite Z.ltb_irrefl.
  - apply Z.ltb_lt. lia.
Qed.

Lemma equalized_single w h :
  n = w * h ->
  forall p, 0 <= p < n ->
    load (equalized yArr (cumulative (histogram yArr)) n n w h) p = Some 0%float.
Proof.
  intros Hwh. destruct cumulative_single as [Hl Hcells].
  unfold equalized. rewrite Hlen.
  match goal with
  | |- context [foldl ?f ?s0 (zrange 0 n)] => set (body := f); set (init := s0)
  end.
  destruct (loop_cells (fun e : list float => e) body (fun _ => Some 0%float)
              1 0 n n init) as (_ & Hzero & _);
    [lia | lia | subst init; rewrite len_new_array; lia | | | |].
  - intros s k Hk Hs. subst body. simpl. unfold f32_store. by rewrite len_store.
  - intros s k i Hk Hs Hi. subst body. simpl. unfold f32_store.
    apply load_store_ne. lia.
  - intros s k i Hk Hs Hi HiL. subst body. simpl in *.
    assert (i = k) as -> by lia.
    rewrite (Hall k Hk), Hcells by lia. rewrite Z.ltb_irrefl, Z.sub_diag.
    unfold f32_store. rewrite load_store_eq by lia. reflexivity.
  - intros p Hp. apply Hzero; lia.
Qed.
End SingleBin.

(** C10. When the quantized luma of every pixel of a [w]x[h] buffer falls in
    one bin [bin], the table has [cdf[bin] = total = cdfMin], the equalized
    luma [Y'] of every pixel is exactly 0, and every output pixel is the
    reconstruction from luminance 0 and that pixel's stored [U], [V]. *)
Theorem equalizeLuma_single_bin (src : list Z) (w h bin : Z) :
  1 <= w -> 1 <= h -> len src = 4 * w * h -> w * h < 2 ^ 32 ->
  (forall k, 0 <= k < w * h -> load (yuv_planes src w h).1.1 k = Some bin) ->
  load (cdf_table src w h) bin = Some (w * h) /\
  cdf_min (cdf_table src w h) = w * h /\
  forall p, 0 <= p < w * h ->
    f32_at (equalized_plane src w h) p = 0%float /\
    load (equalizeLuma src w h) (4 * p + 0)
      = Some (to_channel (rebuild_r 0%float (stored_u src p) (stored_v src p))) /\
    load (equalizeLuma src w h) (4 * p + 1)
      = Some (to_channel (rebuild_g 0%float (stored_u src p) (stored_v src p))) /\
    load (equalizeLuma src w h) (4 * p + 2)
      = Some (to_channel (rebuild_b 0%float (stored_u src p) (stored_v src p))).
Proof.
  intros Hw Hh Hlen Hsmall Hall.
  destruct (yuv_planes_cells src w h ltac:(nia) Hlen) as (Hly & _ & _ & Hplanes).
  assert (Hn : 0 < w * h < 2 ^ 32) by nia.
  assert (Hbin : 0 <= bin < 256).
  { destruct (Hplanes 0 ltac:(lia)) as (Hy0 & _).
    rewrite (Hall 0 ltac:(lia)) in Hy0. injection Hy0 as ->.
    apply ToUint8_range. }
  pose proof (cumulative_single _ bin (w * h) Hbin Hn Hly Hall) as [_ Hcdf].
  pose proof (cdf_min_single _ bin (w * h) Hbin Hn Hly Hall) as Hmin.
  pose proof (equalized_single _ bin (w * h) Hbin Hn Hly Hall w h eq_refl)
    as Hzero.
  unfold cdf_table, equalized_plane, equalizeLuma.
  split; [rewrite Hcdf by lia; by rewrite Z.ltb_irrefl|].
  split; [done|].
  intros p Hp. destruct (Hplanes p Hp) as (_ & Hu & Hv).
  unfold cdf_table. rewrite Hmin.
  destruct (yuv_planes src w h) as [[yArr uArr] vArr]. simpl in *.
  rewrite Hmin.
  set (eqY := equalized _ _ _ _ _ _) in *.
  pose proof (f32_at_load _ _ _ (Hzero p Hp)) as Hy.
  split; [done|].
  destruct (reconstruct_cells src eqY uArr vArr) as [_ Hcells].
  destruct (rebuilt_cell_at src eqY uArr vArr p) as (E0 & E1 & E2 & _).
  rewrite Hy, (f32_at_load _ _ _ Hu), (f32_at_load _ _ _ Hv) in E0, E1, E2.
  rewrite !Hcells by lia. rewrite E0, E1, E2.
  split; [reflexivity|]. split; reflexivity.
Qed.

Lemma equalizeLuma_single_bin_witness :
  load (cdf_table flat_orange 2 2) 153 = Some (2 * 2) /\
  cdf_min (cdf_table flat_orange 2 2) = 2 * 2 /\
  f32_at (equalized_plane flat_orange 2 2) 3 = 0%float /\
  load (equalizeLuma flat_orange 2 2) (4 * 3 + 0)
    = Some (to_channel (rebuild_r 0%float (stored_u flat_orange 3)
                                          (stored_v flat_orange 3))) /\
  load (equalizeLuma flat_orange 2 2) (4 * 3 + 1)
    = Some (to_channel (rebuild_g 0%float (stored_u flat_orange 3)
                                          (stored_v flat_orange 3))) /\
  load (equalizeLuma flat_orange 2 2) (4 * 3 + 2)
    = Some (to_channel (rebuild_b 0%float (stored_u flat_orange 3)
                                          (stored_v flat_orange 3))).
Proof.
  assert (Hall : forall k, 0 <= k < 2 * 2 ->
            load (yuv_planes flat_orange 2 2).1.1 k = Some 153).
  { intros k Hk.
    assert (Hcases : k = 0 \/ k = 1 \/ k = 2 \/ k = 3) by lia.
    destruct Hcases as [-> | [-> | [-> | ->]]]; vm_compute; reflexivity. }
  destruct (equalizeLuma_single_bin flat_orange 2 2 153
              ltac:(lia) ltac:(lia) eq_refl eq_refl Hall)
    as (Hcdf & Hmin & Hpixel).
  exact (conj Hcdf (conj Hmin (Hpixel 3 ltac:(lia)))).
Defined.

(** The flat orange 2x2 buffer comes out as four dark red pixels. *)
Example equalizeLuma_flat_orange :
  equalizeLuma flat_orange 2 2
  = [77; 0; 0; 255;  77; 0; 0; 255;  77; 0; 0; 255;  77; 0; 0; 255].
Proof. vm_compute. reflexivity. Qed.

(** ** The defect of the box blur, on every line (claims C2, C3)

    With radius 0 a line of [n] bytes comes out one cell late: cell 0 keeps
    its byte and cell [x >= 1] receives the byte of cell [x - 1]. *)

Lemma unit_scale_checked :
  (fun a => (ofZ64 1 * ofZ64 a)%float) <$> all_bytes = ofZ64 <$> all_bytes.
Proof. vm_compute. reflexivity. Qed.

Lemma round_store_checked :
  forallb (fun a => ToUint8Clamp (Math_round (ofZ64 a * 1)%float) =? a)
          all_bytes = true.
Proof. vm_compute. reflexivity. Qed.

Lemma slide_checked :
  Forall (fun a =>
            (fun b => (ofZ64 a + (ofZ64 b - ofZ64 a))%float) <$> all_bytes
            = ofZ64 <$> all_bytes)
         all_bytes.
Proof.
  unfold all_bytes at 3.
  let l := eval vm_compute in (zrange 0 256) in change (zrange 0 256) with l.
  repeat (constructor; [vm_compute; reflexivity|]). constructor.
Qed.

Lemma unit_scale a : byte a -> (ofZ64 1 * ofZ64 a)%float = ofZ64 a.
Proof.
  intros Ha. apply (fmap_eq_pointwise _ _ _ unit_scale_checked a).
  by apply elem_of_all_bytes.
Qed.

Lemma round_store a : byte a -> ToUint8Clamp (Math_round (ofZ64 a * 1)%float) = a.
Proof.
  intros Ha%elem_of_all_bytes%list_elem_of_In.
  pose proof round_store_checked as Hall. rewrite forallb_forall in Hall.
  by apply Z.eqb_eq, Hall.
Qed.

Lemma slide a b : byte a -> byte b -> (ofZ64 a + (ofZ64 b - ofZ64 a))%float = ofZ64 b.
Proof.
  intros Ha Hb. pose proof slide_checked as Hall. rewrite Forall_forall in Hall.
  apply (fmap_eq_pointwise _ _ _ (Hall a (elem_of_all_bytes a Ha)) b).
  by apply elem_of_all_bytes.
Qed.

Example iarr_radius_0 : (num 1 / num (0 + 0 + 1))%num = 1%float.
Proof. reflexivity. Qed.

Lemma blur_line_radius_0 (src out : list Z) (n stride ti : Z) :
  Forall byte src -> 1 <= n -> 1 <= stride -> 0 <= ti ->
  ti + (n - 1) * stride < len src -> len out = len src ->
  len (blur_line src out 1%float 0 n stride ti (ti + (n - 1) * stride))
    = len src /\
  (forall x, 0 <= x < n ->
     load (blur_line src out 1%float 0 n stride ti (ti + (n - 1) * stride))
          (ti + x * stride)
     = load src (ti + Z.max 0 (x - 1) * stride)) /\
  (forall i, (forall x, 0 <= x < n -> i <> ti + x * stride) ->
     load (blur_line src out 1%float 0 n stride ti (ti + (n - 1) * stride)) i
     = load out i).
Proof.
  intros Hsrc Hn Hstride Hti Hlast Hlen.
  assert (Hcell : forall x, 0 <= x < n ->
            exists a, load src (ti + x * stride) = Some a /\ byte a).
  { intros x Hx. destruct (load_lt_Some src (ti + x * stride)) as [a Ha]; [nia|].
    exists a. split; [done|]. by eapply load_byte. }
  unfold blur_line.
  change (zrange 0 0) with (@nil Z). change (zrange 0 (0 + 1)) with [0].
  rewrite (zrange_empty (n - 0) n) by lia. simpl.
  destruct (Hcell 0 ltac:(lia)) as (a0 & Ha0 & Hb0).
  replace (ti + 0 * stride) with ti in * by lia.
  rewrite (byte_at_load _ _ _ Ha0), unit_scale, slide by done.
  unfold u8c_store. rewrite round_store by done.
  set (P := fun (k : Z) (st : list Z * Z * Z * Z * float) =>
    let '(o, t, l, r, v) := st in
    t = ti + k * stride /\ l = ti + (k - 1) * stride /\ r = ti + k * stride /\
    v = byte_at src (ti + (k - 1) * stride) /\ len o = len src /\
    (forall x, 0 <= x < k ->
       load o (ti + x * stride) = load src (ti + Z.max 0 (x - 1) * stride)) /\
    (forall i, (forall x, 0 <= x < n -> i <> ti + x * stride) ->
       load o i = load out i)).
  match goal with
  | |- context [foldl ?f ?s0 (zrange (0 + 1) (n - 0))] =>
      assert (Hend : P n (foldl f s0 (zrange (0 + 1) (n - 0))))
  end.
  { replace (n - 0) with n by lia.
    apply (foldl_zrange_ind P); [lia| |]; unfold P.
    - split; [lia|]. split; [lia|]. split; [lia|].
      split; [replace (ti + (0 + 1 - 1) * stride) with ti by lia;
              by rewrite (byte_at_load _ _ _ Ha0)|].
      rewrite len_store. split; [done|]. split.
      + intros x Hx. assert (x = 0) as -> by lia.
        replace (ti + 0 * stride) with ti by lia.
        replace (ti + Z.max 0 (0 - 1) * stride) with ti by lia.
        rewrite load_store_eq by nia. done.
      + intros i Hi. apply load_store_ne. specialize (Hi 0 ltac:(lia)). lia.
    - intros k [[[[o t] l] r] v] Hk (-> & -> & -> & -> & Hlo & Hdone & Hframe).
      destruct (Hcell (k - 1) ltac:(lia)) as (a & Ha & Hba).
      destruct (Hcell k ltac:(lia)) as (b & Hb & Hbb).
      rewrite (byte_at_load _ _ _ Ha), (byte_at_load _ _ _ Hb). simpl.
      rewrite slide, round_store by done. rewrite len_store.
      split; [lia|]. split; [lia|]. split; [lia|].
      split; [replace (ti + (k + 1 - 1) * stride) with (ti + k * stride) by lia;
              by rewrite (byte_at_load _ _ _ Hb)|].
      split; [done|]. split.
      + intros x Hx. destruct (decide (x = k)) as [->|Hne].
        * rewrite load_store_eq by nia.
          replace (Z.max 0 (k - 1)) with (k - 1) by lia. done.
        * rewrite load_store_ne by nia. apply Hdone. lia.
      + intros i Hi. rewrite load_store_ne; [by apply Hframe|].
        specialize (Hi k ltac:(lia)). lia. }
  destruct (foldl _ _ (zrange (0 + 1) (n - 0))) as [[[[o t] l] r] v].
  unfold P in Hend. destruct Hend as (_ & _ & _ & _ & Hlo & Hdone & Hframe).
  done.
Qed.

(** ** Buffers of one colour (the example of claim C10) *)

Lemma load_skip_pixel {A} (x0 x1 x2 x3 : A) (l : list A) i :
  0 <= i -> load (x0 :: x1 :: x2 :: x3 :: l) (4 + i) = load l i.
Proof.
  intros Hi. unfold load.
  destruct (Z.ltb_spec (4 + i) 0), (Z.ltb_spec i 0); try lia.
  replace (Z.to_nat (4 + i)) with (S (S (S (S (Z.to_nat i))))) by lia. done.
Qed.

Lemma len_flat n r g b a : len (flat n [r; g; b; a]) = 4 * Z.of_nat n.
Proof.
  unfold len, flat. induction n as [|n IH]; [done|].
  simpl replicate. simpl mjoin. simpl length. lia.
Qed.

Lemma load_flat n r g b a (k : nat) c :
  (k < n)%nat -> 0 <= c < 4 ->
  load (flat n [r; g; b; a]) (4 * Z.of_nat k + c) = load [r; g; b; a] c.
Proof.
  revert k. induction n as [|n IH]; intros k Hk Hc; [lia|].
  change (flat (S n) [r; g; b; a]) with (r :: g :: b :: a :: flat n [r; g; b; a]).
  destruct k as [|k].
  - replace (4 * Z.of_nat 0 + c) with c by lia.
    assert (Hcases : c = 0 \/ c = 1 \/ c = 2 \/ c = 3) by lia.
    by destruct Hcases as [-> | [-> | [-> | ->]]].
  - replace (4 * Z.of_nat (S k) + c) with (4 + (4 * Z.of_nat k + c)) by lia.
    rewrite load_skip_pixel by lia. apply IH; [lia | done].
Qed.

Lemma stored_y_flat n r g b a k :
  0 <= k < Z.of_nat n ->
  stored_y (flat n [r; g; b; a]) k = stored_y [r; g; b; a] 0.
Proof.
  intros Hk. unfold stored_y, red, green, blue, byte_at.
  replace k with (Z.of_nat (Z.to_nat k)) by lia.
  replace (4 * Z.of_nat (Z.to_nat k)) with (4 * Z.of_nat (Z.to_nat k) + 0) at 1
    by lia.
  rewrite !load_flat by lia. reflexivity.
Qed.

(** The luma of a buffer of one colour falls in a single bin. *)
Lemma flat_single_bin w h r g b a :
  0 <= w -> 0 <= h ->
  forall k, 0 <= k < w * h ->
    load (yuv_planes (flat (Z.to_nat (w * h)) [r; g; b; a]) w h).1.1 k
    = Some (stored_y [r; g; b; a] 0).
Proof.
  intros Hw Hh k Hk.
  destruct (yuv_planes_cells (flat (Z.to_nat (w * h)) [r; g; b; a]) w h)
    as (_ & _ & _ & Hplanes); [lia | rewrite len_flat; lia |].
  destruct (Hplanes k Hk) as (-> & _). f_equal. apply stored_y_flat. lia.
Qed.

(** * Further properties of the pixel code *)

(** ** Shapes *)

Lemma cells_bytes (out : list Z) (f : Z -> Z) :
  (forall i, 0 <= i < len out -> load out i = Some (f i)) ->
  (forall i, byte (f i)) -> Forall byte out.
Proof.
  intros Hcells Hf. apply Forall_lookup. intros n v Hn.
  pose proof (lookup_lt_Some _ _ _ Hn) as Hlt.
  rewrite <- load_nat, Hcells in Hn by (unfold len; lia).
  injection Hn as <-. apply Hf.
Qed.

(** X1. For every buffer, width, height and radius, [boxBlur] returns a
    buffer of the length of its input whose cells are all bytes: no load out
    of range, no NaN and no overshoot of the running sum leaves the range
    [0, 255] or changes the size. *)
Theorem boxBlur_shape (src : list Z) (w h r : Z) :
  length (boxBlur src w h r) = length src /\ Forall byte (boxBlur src w h r).
Proof.
  destruct (boxBlur_bytes src w h r) as [Hl Hb].
  split; [apply Nat2Z.inj, Hl | done].
Qed.

Lemma load_negative {A} (a : list A) i : i < 0 -> load a i = None.
Proof. unfold load. intros Hi. by destruct (Z.ltb_spec i 0); [|lia]. Qed.

Lemma load_same_length {A} (a b : list A) i :
  len a = len b -> load b i = None -> load a i = None.
Proof.
  intros Hl Hb. destruct (decide (0 <= i < len a)) as [Hi|Hi].
  - destruct (load_lt_Some b i) as [v Hv]; [lia | congruence].
  - destruct (decide (i < 0)); [by apply load_negative | apply load_ge_None; lia].
Qed.

(** ** [unsharpMask] for every gain *)

Lemma unsharp_cell_at src blurred amount p :
  unsharp_cell src blurred amount (4 * p + 0)
    = sharpened amount (byte_at src (4 * p + 0)) (byte_at blurred (4 * p + 0)) /\
  unsharp_cell src blurred amount (4 * p + 1)
    = sharpened amount (byte_at src (4 * p + 1)) (byte_at blurred (4 * p + 1)) /\
  unsharp_cell src blurred amount (4 * p + 2)
    = sharpened amount (byte_at src (4 * p + 2)) (byte_at blurred (4 * p + 2)) /\
  unsharp_cell src blurred amount (4 * p + 3) = clamp_u8 (load src (4 * p + 3)).
Proof.
  unfold unsharp_cell.
  destruct (cell_decode p 0 ltac:(lia)) as [_ ->].
  destruct (cell_decode p 1 ltac:(lia)) as [_ ->].
  destruct (cell_decode p 2 ltac:(lia)) as [_ ->].
  destruct (cell_decode p 3 ltac:(lia)) as [_ ->].
  done.
Qed.

Lemma unsharp_pixel_any (src blurred : list Z) amount p dst :
  len (unsharp_pixel src blurred amount (4 * p) dst) = len dst /\
  (forall i, ~ (4 * p <= i < 4 * (p + 1)) ->
     load (unsharp_pixel src blurred amount (4 * p) dst) i = load dst i) /\
  (forall i, 4 * p <= i < 4 * (p + 1) -> 0 <= i < len dst ->
     load (unsharp_pixel src blurred amount (4 * p) dst) i
     = Some (unsharp_cell src blurred amount i)).
Proof.
  unfold unsharp_pixel. change (zrange 0 3) with [0; 1; 2]. simpl.
  split; [by rewrite !len_store|]. split.
  - intros i Hi. load_through. done.
  - intros i Hi HiL.
    destruct (unsharp_cell_at src blurred amount p) as (E0 & E1 & E2 & E3).
    assert (Hcases : i = 4 * p + 0 \/ i = 4 * p + 1 \/
                     i = 4 * p + 2 \/ i = 4 * p + 3) by lia.
    destruct Hcases as [-> | [-> | [-> | ->]]]; load_through;
      by rewrite ?E0, ?E1, ?E2, ?E3.
Qed.

Lemma unsharpMask_cells (src : list Z) (w h radius : Z) amount :
  len (unsharpMask src w h radius amount) = len src /\
  forall i, 0 <= i < len src ->
    load (unsharpMask src w h radius amount) i
    = Some (unsharp_cell src (boxBlur src w h radius) amount i).
Proof.
  unfold unsharpMask, pixels. pose proof (len_nonneg src) as Hl0.
  destruct (loop_cells (fun d : list Z => d)
              (fun dst p =>
                 unsharp_pixel src (boxBlur src w h radius) amount (4 * p) dst)
              (fun i => Some (unsharp_cell src (boxBlur src w h radius) amount i))
              4 0 ((len src + 3) / 4) (len src)
              (new_array 0 (len src))) as (Hl & Hcells & _);
    [lia | apply Z.div_pos; lia | rewrite len_new_array; lia | | | |].
  - intros s k Hk Hs.
    destruct (unsharp_pixel_any src (boxBlur src w h radius) amount k s)
      as (-> & _ & _). done.
  - intros s k i Hk Hs Hi.
    destruct (unsharp_pixel_any src (boxBlur src w h radius) amount k s)
      as (_ & Hf & _). apply Hf. lia.
  - intros s k i Hk Hs Hi HiL.
    destruct (unsharp_pixel_any src (boxBlur src w h radius) amount k s)
      as (_ & _ & Hc). apply Hc; lia.
  - simpl in *. split; [done|]. intros i Hi. apply Hcells; [|done].
    pose proof (Z.mod_pos_bound (len src + 3) 4).
    pose proof (Z.div_mod (len src + 3) 4). lia.
Qed.

Lemma sharpened_byte amount s b : byte (sharpened amount s b).
Proof. unfold sharpened, clamp_round. apply ToUint8Clamp_byte. Qed.

Lemma unsharp_cell_byte src blurred amount i : byte (unsharp_cell src blurred amount i).
Proof.
  unfold unsharp_cell. case_match; [apply sharpened_byte | apply clamp_u8_byte].
Qed.

Lemma unsharpMask_bytes src w h radius amount :
  Forall byte (unsharpMask src w h radius amount).
Proof.
  destruct (unsharpMask_cells src w h radius amount) as [Hl Hcells].
  apply (cells_bytes _ (unsharp_cell src (boxBlur src w h radius) amount)).
  - intros i Hi. apply Hcells. lia.
  - apply unsharp_cell_byte.
Qed.

Lemma alpha_kept (src out : list Z) (f : Z -> Z) :
  Forall byte src -> len out = len src ->
  (forall i, 0 <= i < len src -> load out i = Some (f i)) ->
  (forall p, f (4 * p + 3) = clamp_u8 (load src (4 * p + 3))) ->
  forall p, load out (4 * p + 3) = load src (4 * p + 3).
Proof.
  intros Hsrc Hl Hcells Hf p.
  destruct (load src (4 * p + 3)) as [a|] eqn:Ha.
  - rewrite Hcells by (by eapply load_Some_lt). rewrite Hf, Ha.
    f_equal. apply clamp_u8_id. by eapply load_byte.
  - by apply (load_same_length out src).
Qed.

(** X2. For every buffer of bytes and every width, height, radius and gain,
    [unsharpMask] returns a buffer of bytes of the same length in which every
    alpha cell is the source alpha and every colour cell is
    [max(0, min(255, round(s + amount * (s - b))))] of the source byte [s]
    and the byte [b] of [boxBlur] in that same cell. *)
Theorem unsharpMask_cellwise (src : list Z) (w h radius : Z) (amount : float) :
  Forall byte src ->
  length (unsharpMask src w h radius amount) = length src /\
  Forall byte (unsharpMask src w h radius amount) /\
  (forall p, load (unsharpMask src w h radius amount) (4 * p + 3)
             = load src (4 * p + 3)) /\
  (forall p c s b, 0 <= c < 3 ->
     load src (4 * p + c) = Some s ->
     load (boxBlur src w h radius) (4 * p + c) = Some b ->
     load (unsharpMask src w h radius amount) (4 * p + c)
     = Some (sharpened amount (num s) (num b))).
Proof.
  intros Hsrc.
  destruct (unsharpMask_cells src w h radius amount) as [Hl Hcells].
  split; [apply Nat2Z.inj, Hl|]. split; [apply unsharpMask_bytes|]. split.
  - apply (alpha_kept src _ _ Hsrc Hl Hcells). intros p.
    by destruct (unsharp_cell_at src (boxBlur src w h radius) amount p)
      as (_ & _ & _ & ->).
  - intros p c s b Hc Hs Hb.
    rewrite Hcells by (by eapply load_Some_lt). f_equal.
    unfold unsharp_cell.
    destruct (cell_decode p c ltac:(lia)) as [_ ->].
    destruct (Z.ltb_spec c 3); [|lia].
    by rewrite (byte_at_load _ _ _ Hs), (byte_at_load _ _ _ Hb).
Qed.

Lemma unsharpMask_cellwise_witness :
  length (unsharpMask two_pixels 2 1 1 (lit64 0.8)) = length two_pixels /\
  Forall byte (unsharpMask two_pixels 2 1 1 (lit64 0.8)) /\
  load (unsharpMask two_pixels 2 1 1 (lit64 0.8)) (4 * 1 + 3)
    = load two_pixels (4 * 1 + 3) /\
  load (unsharpMask two_pixels 2 1 1 (lit64 0.8)) (4 * 1 + 0)
    = Some (sharpened (lit64 0.8) (ofZ64 50) (ofZ64 23)).
Proof.
  assert (Hbytes : Forall byte two_pixels).
  { unfold two_pixels. repeat (constructor; [unfold byte; lia|]). constructor. }
  destruct (unsharpMask_cellwise two_pixels 2 1 1 (lit64 0.8) Hbytes)
    as (Hlen & Hb & Halpha & Hrgb).
  refine (conj Hlen (conj Hb (conj (Halpha 1) (Hrgb 1 0 50 23 _ _ _))));
    [lia | reflexivity | vm_compute; reflexivity].
Defined.

(** ** [median3x3] on a buffer of one colour *)

Lemma load_flat_at n r g b a j c :
  0 <= j < Z.of_nat n -> 0 <= c < 4 ->
  load (flat n [r; g; b; a]) (4 * j + c) = load [r; g; b; a] c.
Proof.
  intros Hj Hc. replace j with (Z.of_nat (Z.to_nat j)) by lia.
  apply load_flat; lia.
Qed.

Lemma flat_bytes n r g b a :
  byte r -> byte g -> byte b -> byte a -> Forall byte (flat n [r; g; b; a]).
Proof.
  intros Hr Hg Hb Ha. unfold flat. induction n as [|n IH]; [constructor|].
  simpl replicate. simpl mjoin.
  do 4 (constructor; [done|]). exact IH.
Qed.

Lemma channel_of_colour r g b a c :
  0 <= c < 4 -> load [r; g; b; a] c = Some (default 0 (load [r; g; b; a] c)).
Proof. intros Hc. apply load_default. unfold len. simpl. lia. Qed.

Lemma window3x3_flat w h r g b a x y c :
  1 <= w -> 1 <= h -> 0 <= c < 4 ->
  Forall (fun v => v = default 0 (load [r; g; b; a] c))
         (window3x3 (flat (Z.to_nat (w * h)) [r; g; b; a]) w h x y c).
Proof.
  intros Hw Hh Hc. unfold window3x3. simpl.
  repeat (constructor;
          [unfold idx4;
           match goal with
           | |- context [load _ ((?yy * w + ?xx) * 4 + c)] =>
               pose proof (nearest_range (w - 1) (x + -1) ltac:(lia));
               pose proof (nearest_range (w - 1) (x + 0) ltac:(lia));
               pose proof (nearest_range (w - 1) (x + 1) ltac:(lia));
               pose proof (nearest_range (h - 1) (y + -1) ltac:(lia));
               pose proof (nearest_range (h - 1) (y + 0) ltac:(lia));
               pose proof (nearest_range (h - 1) (y + 1) ltac:(lia));
               replace ((yy * w + xx) * 4 + c) with (4 * (yy * w + xx) + c)
                 by lia;
               rewrite load_flat_at by nia; reflexivity
           end|]).
  constructor.
Qed.

(** X3. [median3x3] returns a buffer of one colour unchanged, whatever its
    width and height; in particular every 1x1 image, whose nine clamped
    neighbours are the pixel itself. *)
Theorem median3x3_flat (w h r g b a : Z) :
  1 <= w -> 1 <= h -> byte r -> byte g -> byte b -> byte a ->
  median3x3 (flat (Z.to_nat (w * h)) [r; g; b; a]) w h
  = flat (Z.to_nat (w * h)) [r; g; b; a].
Proof.
  intros Hw Hh Hr Hg Hb Ha.
  set (src := flat (Z.to_nat (w * h)) [r; g; b; a]).
  assert (Hlen : len src = 4 * w * h) by (unfold src; rewrite len_flat; nia).
  assert (Hbytes : Forall byte src) by (by apply flat_bytes).
  destruct (median3x3_cells src w h Hw Hh Hlen) as [Hl Hcells].
  apply load_ext; [apply Nat2Z.inj, Hl|].
  intros i Hi. rewrite Hl in Hi. rewrite Hcells by done.
  pose proof (Z.div_mod i 4 ltac:(lia)) as Hdm.
  pose proof (Z.mod_pos_bound i 4 ltac:(lia)) as Hc.
  assert (Hsrc : load src i = load [r; g; b; a] (i mod 4)).
  { rewrite Hdm at 1. apply load_flat_at; [|done]. lia. }
  rewrite Hsrc, channel_of_colour by done. f_equal.
  unfold median_cell. destruct (Z.ltb_spec (i mod 4) 3) as [Hrgb|Halpha].
  - destruct (rank_4_of_window src w h ((i / 4) mod w) (i / 4 / w) (i mod 4))
      as (sorted & Hperm & _ & H4); [done..|].
    pose proof (window3x3_flat w h r g b a ((i / 4) mod w) (i / 4 / w) (i mod 4)
                  Hw Hh Hc) as Hwin.
    fold src in Hwin. rewrite <- Hperm in Hwin.
    assert (Hlen9 : length sorted = 9%nat) by (by rewrite Hperm).
    destruct (lookup_lt_is_Some_2 sorted 4) as [v Hv]; [lia|].
    rewrite Hv in H4. injection H4 as ->.
    by apply (Forall_lookup_1 _ _ _ _ Hwin Hv).
  - rewrite Hsrc, channel_of_colour by done. apply clamp_u8_id.
    assert (Hin : Forall byte [r; g; b; a]).
    { do 4 (constructor; [done|]). constructor. }
    eapply load_byte; [exact Hin|]. by apply channel_of_colour.
Qed.

Lemma median3x3_flat_witness :
  median3x3 (flat (Z.to_nat (3 * 2)) [230; 140; 20; 255]) 3 2
  = flat (Z.to_nat (3 * 2)) [230; 140; 20; 255].
Proof.
  apply (median3x3_flat 3 2 230 140 20 255); unfold byte; lia.
Defined.

(** ** The shape of [equalizeLuma] and of the whole pipeline *)

Lemma equalizeLuma_rebuilds (src : list Z) w h :
  exists eqY uArr vArr, equalizeLuma src w h = reconstruct src eqY uArr vArr.
Proof.
  unfold equalizeLuma. destruct (yuv_planes src w h) as [[yArr uArr] vArr].
  by eexists _, _, _.
Qed.

Lemma rebuilt_cell_byte src eqY uArr vArr i : byte (rebuilt_cell src eqY uArr vArr i).
Proof.
  unfold rebuilt_cell, to_channel, clamp_round.
  repeat case_match; first [apply ToUint8Clamp_byte | apply clamp_u8_byte].
Qed.

(** The loop of lines 238-249 fills a new buffer of the length of the
    source with bytes and copies the alpha cells. *)
Lemma reconstruct_shape (src : list Z) (eqY uArr vArr : list float) :
  length (reconstruct src eqY uArr vArr) = length src /\
  Forall byte (reconstruct src eqY uArr vArr) /\
  (Forall byte src ->
   forall p, load (reconstruct src eqY uArr vArr) (4 * p + 3)
             = load src (4 * p + 3)).
Proof.
  destruct (reconstruct_cells src eqY uArr vArr) as [Hl Hcells].
  split; [apply Nat2Z.inj, Hl|]. split.
  - apply (cells_bytes _ (rebuilt_cell src eqY uArr vArr)).
    + intros i Hi. apply Hcells. lia.
    + apply rebuilt_cell_byte.
  - intros Hsrc. apply (alpha_kept src _ _ Hsrc Hl Hcells). intros p.
    by destruct (rebuilt_cell_at src eqY uArr vArr p) as (_ & _ & _ & ->).
Qed.



Lemma median_cell_byte src w h i : byte (median_cell src w h i).
Proof. unfold median_cell. case_match; apply clamp_u8_byte. Qed.

Lemma median_cell_alpha src w h p :
  median_cell src w h (4 * p + 3) = clamp_u8 (load src (4 * p + 3)).
Proof.
  unfold median_cell. by destruct (cell_decode p 3 ltac:(lia)) as [_ ->].
Qed.

Lemma new_ImageData_ok (a : list Z) w h :
  1 <= w -> 1 <= h -> len a = 4 * w * h ->
  new_ImageData a w h = Some {| width := w; height := h; data := a |}.
Proof.
  intros Hw Hh Hl. unfold new_ImageData.
  destruct (Z.ltb_spec 0 w), (Z.ltb_spec 0 h), (Z.eqb_spec (len a) (4 * w * h));
    try lia. done.
Qed.

(** X5. On a well-formed image of width and height at least 1, [processImage]
    completes: the [ImageData] constructor accepts the sharpened buffer. The
    enhanced image has the dimensions of the input, holds bytes, and has the
    alpha channel of the input in every pixel; the metrics are those of the
    enhanced image. *)
Theorem processImage_output (d : ImageData) :
  wf_image d -> 1 <= width d -> 1 <= height d ->
  exists out m,
    processImage d = Some (out, m) /\
    width out = width d /\ height out = height d /\ wf_image out /\
    (forall p, load (data out) (4 * p + 3) = load (data d) (4 * p + 3)) /\
    m = computeMetrics out.
Proof.
  intros [Hlen Hbytes] Hw Hh. unfold processImage.
  set (w := width d) in *. set (h := height d) in *.
  destruct (median3x3_cells (data d) w h Hw Hh Hlen) as [Hl1 Hc1].
  set (denoised := median3x3 (data d) w h) in *.
  assert (Hb1 : Forall byte denoised).
  { apply (cells_bytes _ (median_cell (data d) w h)).
    - intros i Hi. apply Hc1. lia.
    - apply median_cell_byte. }
  destruct (equalizeLuma_rebuilds denoised w h) as (eqY & uArr & vArr & Heq).
  destruct (reconstruct_shape denoised eqY uArr vArr) as (Hl2 & Hb2 & Ha2).
  rewrite <- Heq in Hl2, Hb2, Ha2. clear Heq eqY uArr vArr.
  set (equalized := equalizeLuma denoised w h) in *.
  destruct (unsharpMask_cells equalized w h 1 (lit64 0.8)) as [Hl3 Hc3].
  pose proof (unsharpMask_bytes equalized w h 1 (lit64 0.8)) as Hb3.
  set (out := unsharpMask equalized w h 1 (lit64 0.8)) in *.
  assert (Hlout : len out = 4 * w * h) by (unfold len in *; lia).
  change (lit 0.8) with (lit64 0.8). fold out.
  rewrite (new_ImageData_ok out w h Hw Hh Hlout).
  eexists _, _. split; [reflexivity|]. simpl.
  split; [done|]. split; [done|]. split; [by split|]. split; [|done].
  intros p.
  transitivity (load equalized (4 * p + 3)).
  { apply (alpha_kept equalized _ _ Hb2 Hl3 Hc3). intros q.
    by destruct (unsharp_cell_at equalized (boxBlur equalized w h 1)
                   (lit64 0.8) q) as (_ & _ & _ & ->). }
  rewrite (Ha2 Hb1 p).
  apply (alpha_kept (data d) _ _ Hbytes Hl1 Hc1). apply median_cell_alpha.
Qed.

Lemma processImage_output_witness :
  exists out m,
    processImage centre_dot = Some (out, m) /\
    width out = width centre_dot /\ height out = height centre_dot /\
    wf_image out /\
    (forall p, load (data out) (4 * p + 3) = load (data centre_dot) (4 * p + 3)) /\
    m = computeMetrics out.
Proof.
  apply (processImage_output centre_dot); [|simpl; lia..].
  split; [reflexivity|]. unfold centre_dot; simpl.
  repeat (constructor; [unfold byte; lia|]). constructor.
Defined.

(** ** The composite score without interior *)

(** X6. For every image without interior pixel (width or height below 3,
    both at least 1) the doubles of [computeMetrics] give
    [spoofRisk = min(1, 0.6 + 0.1 * symmetryScore)]: the blur and gradient
    terms are exactly 0.6 and 0. When the width is 1 no pair is compared,
    [symmetryScore] is 0 and [spoofRisk] is the double 0.6. *)
Theorem spoofRisk_without_interior (d : ImageData) :
  1 <= width d -> 1 <= height d ->
  width d < 3 \/ height d < 3 ->
  let m := computeMetrics (F := float) d in
  spoofRisk m = Math_min64 1 (lit64 0.6 + lit64 0.1 * symmetryScore m)%float /\
  (width d = 1 -> symmetryScore m = 0%float /\ spoofRisk m = lit64 0.6).
Proof.
  intros Hw Hh Hsmall. unfold computeMetrics.
  rewrite laplacian_no_interior, sobel_sum_no_interior by done.
  assert (Hden : Z.max 1 ((width d - 2) * (height d - 2)) = 1) by nia.
  rewrite Hden.
  change (num 0 / num (Z.max 1 0))%num with 0%float.
  unfold new_array. rewrite sum_sq_dev_zeros.
  destruct (symmetry_sum _ _ _) as [sym pix] eqn:Hsym.
  cbn [spoofRisk symmetryScore].
  split; [reflexivity|].
  intros Hw1. rewrite Hw1, symmetry_sum_no_pair in Hsym.
  injection Hsym as <- <-. split; reflexivity.
Qed.

Lemma spoofRisk_without_interior_witness :
  spoofRisk (computeMetrics (F := float) one_pixel)
  = Math_min64 1 (lit64 0.6
                  + lit64 0.1 * symmetryScore (computeMetrics (F := float) one_pixel))%float /\
  symmetryScore (computeMetrics (F := float) one_pixel) = 0%float /\
  spoofRisk (computeMetrics (F := float) one_pixel) = lit64 0.6.
Proof.
  destruct (spoofRisk_without_interior one_pixel
              ltac:(simpl; lia) ltac:(simpl; lia) ltac:(simpl; lia))
    as [Hrisk Hone].
  exact (conj Hrisk (Hone eq_refl)).
Defined.

(** ** The histogram and the cumulative table of [equalizeLuma] *)

Lemma total_of_app l k : total_of (l ++ k) = total_of l + total_of k.
Proof. unfold total_of. induction l as [|x l IH]; simpl; lia. Qed.

Lemma total_of_zeros n : total_of (replicate n 0) = 0.
Proof. unfold total_of. induction n as [|n IH]; simpl; lia. Qed.

Lemma total_of_counters l : Forall counter l -> 0 <= total_of l.
Proof. unfold total_of, counter. induction 1; simpl; lia. Qed.

Lemma total_of_insert l (i : nat) old v :
  l !! i = Some old -> total_of (<[i := v]> l) = total_of l - old + v.
Proof.
  unfold total_of. revert i. induction l as [|x l IH]; intros [|i] Hi; try done.
  - injection Hi as ->. simpl. lia.
  - simpl in *. rewrite (IH i Hi). lia.
Qed.

Lemma counter_le_total l (i : nat) c :
  Forall counter l -> l !! i = Some c -> 0 <= c <= total_of l.
Proof.
  unfold total_of, counter. intros Hall. revert i.
  induction Hall as [|x l Hx Hl IH]; intros [|i] Hi; try done.
  - injection Hi as ->. pose proof (total_of_counters l Hl). unfold total_of in *.
    simpl. lia.
  - simpl in *. specialize (IH i Hi). lia.
Qed.

Lemma prefix_step l (k : nat) x :
  l !! k = Some x -> total_of (take (S k) l) = total_of (take k l) + x.
Proof.
  intros Hk. rewrite (take_S_r _ _ _ Hk), total_of_app.
  unfold total_of. simpl. lia.
Qed.

Lemma prefix_monotone l (i j : nat) :
  Forall counter l -> (i <= j)%nat ->
  0 <= total_of (take i l) <= total_of (take j l).
Proof.
  intros Hall Hij.
  replace j with (i + (j - i))%nat by lia.
  rewrite <- (take_take_drop l i (j - i)), total_of_app.
  pose proof (total_of_counters (take i l) (Forall_take _ _ _ Hall)).
  pose proof (total_of_counters (take (j - i) (drop i l))
                (Forall_take _ _ _ (Forall_drop _ _ _ Hall))).
  lia.
Qed.

Lemma prefix_all l (n : nat) : (length l <= n)%nat -> total_of (take n l) = total_of l.
Proof. intros Hn. by rewrite take_ge. Qed.

Lemma store_insert {A} (a : list A) i v :
  0 <= i -> store a i v = <[Z.to_nat i := v]> a.
Proof. unfold store. intros Hi. by destruct (Z.ltb_spec i 0); [lia|]. Qed.

Lemma load_lookup {A} (a : list A) i : 0 <= i -> load a i = a !! Z.to_nat i.
Proof. unfold load. intros Hi. by destruct (Z.ltb_spec i 0); [lia|]. Qed.

(** Every pixel is counted once, in the bin of its luma. *)
Lemma histogram_counts (yArr : list Z) :
  Forall bin_index yArr -> len yArr < 2 ^ 32 ->
  len (histogram yArr) = 256 /\
  Forall counter (histogram yArr) /\
  total_of (histogram yArr) = len yArr /\
  forall p bin, load yArr p = Some bin ->
    exists c, load (histogram yArr) bin = Some c /\ 1 <= c.
Proof.
  intros Hbins Hsmall. unfold histogram.
  set (P := fun (k : Z) (hist : list Z) =>
    len hist = 256 /\ Forall counter hist /\ total_of hist = k /\
    forall p bin, 0 <= p < k -> load yArr p = Some bin ->
      exists c, load hist bin = Some c /\ 1 <= c).
  match goal with
  | |- context [foldl ?f ?s0 (zrange 0 (len yArr))] =>
      assert (Hend : P (len yArr) (foldl f s0 (zrange 0 (len yArr))));
        [apply foldl_zrange_ind; [apply len_nonneg| |]; unfold P|]
  end.
  - split; [by rewrite len_new_array|].
    split; [apply Forall_replicate; unfold counter; lia|].
    split; [apply total_of_zeros|]. intros p bin Hp. lia.
  - intros k hist Hk (Hl & Hc & Ht & Hseen).
    destruct (load_lt_Some yArr k Hk) as [bin Hbin]. rewrite Hbin.
    assert (Hb : bin_index bin).
    { rewrite load_lookup in Hbin by lia. by eapply Forall_lookup_1. }
    unfold bin_index in Hb.
    destruct (load_lt_Some hist bin ltac:(lia)) as [c Hcb]. rewrite Hcb.
    pose proof Hcb as Hcb'. rewrite load_lookup in Hcb' by lia.
    pose proof (counter_le_total _ _ _ Hc Hcb') as Hrange.
    unfold u32_store. rewrite Z.mod_small by lia.
    rewrite len_store. split; [done|].
    rewrite store_insert by lia. split; [|split].
    + apply Forall_insert; [done | unfold counter; lia].
    + rewrite (total_of_insert _ _ c) by done. lia.
    + intros p bin' Hp Hbin'.
      rewrite <- store_insert by lia.
      destruct (decide (bin' = bin)) as [->|Hne].
      * exists (c + 1). split; [apply load_store_eq; lia | lia].
      * rewrite load_store_ne by done.
        destruct (decide (p = k)) as [->|Hpk]; [congruence|].
        apply (Hseen p); [lia | done].
  - unfold P in Hend. destruct Hend as (Hl & Hc & Ht & Hseen).
    split; [done|]. split; [done|].
    split; [done|]. intros p bin Hbin. apply (Hseen p); [|done].
    by eapply load_Some_lt.
Qed.

(** [cdf[i]] is the number of pixels whose luma is at most [i]. *)
Lemma cumulative_prefix (hist : list Z) :
  len hist = 256 -> Forall counter hist -> total_of hist < 2 ^ 32 ->
  len (cumulative hist) = 256 /\
  forall i, 0 <= i < 256 ->
    load (cumulative hist) i = Some (total_of (take (Z.to_nat (i + 1)) hist)).
Proof.
  intros Hl Hc Hsmall. unfold cumulative.
  set (P := fun (k : Z) (st : Z * list Z) =>
    st.1 = total_of (take (Z.to_nat k) hist) /\ len st.2 = 256 /\
    forall i, 0 <= i < k ->
      load st.2 i = Some (total_of (take (Z.to_nat (i + 1)) hist))).
  match goal with
  | |- context [foldl ?f ?s0 (zrange 0 256)] =>
      assert (Hend : P 256 (foldl f s0 (zrange 0 256)));
        [apply foldl_zrange_ind; [lia| |]; unfold P|]
  end.
  - simpl. split; [done|]. split; [by rewrite len_new_array|]. intros i Hi. lia.
  - intros k [cum cdf] Hk (Hcum & Hlc & Hcells). simpl in *.
    destruct (load_lt_Some hist k ltac:(lia)) as [x Hx]. rewrite Hx. simpl.
    rewrite load_lookup in Hx by lia.
    assert (Hnew : cum + x = total_of (take (Z.to_nat (k + 1)) hist)).
    { replace (Z.to_nat (k + 1)) with (S (Z.to_nat k)) by lia.
      rewrite (prefix_step _ _ _ Hx). lia. }
    rewrite Hnew. unfold u32_store. rewrite len_store.
    split; [done|]. split; [done|].
    intros i Hi. destruct (decide (i = k)) as [->|Hne].
    + rewrite load_store_eq by lia. f_equal. apply Z.mod_small.
      pose proof (prefix_monotone hist (Z.to_nat (k + 1)) (length hist) Hc
                    ltac:(unfold len in Hl; lia)) as Hm.
      rewrite (prefix_all hist (length hist)) in Hm by lia. lia.
    + rewrite load_store_ne by done. apply Hcells. lia.
  - unfold P in Hend. destruct Hend as (_ & Hlc & Hcells). by split.
Qed.

Lemma find_first_inv {A} (P : A -> bool) (l : list A) (v : A) :
  find P l = Some v ->
  exists k : nat, l !! k = Some v /\ P v = true /\
    forall i u, (i < k)%nat -> l !! i = Some u -> P u = false.
Proof.
  induction l as [|a l IH]; simpl; [done|].
  destruct (P a) eqn:Ha.
  - intros [= ->]. exists 0%nat. split; [done|]. split; [done|]. lia.
  - intros Hf. destruct (IH Hf) as (k & Hk & Hv & Hbefore).
    exists (S k). split; [done|]. split; [done|].
    intros [|i] u Hi Hu; simpl in Hu; [by injection Hu as <- |].
    apply (Hbefore i); [lia | done].
Qed.

Lemma find_none_inv {A} (P : A -> bool) (l : list A) (k : nat) (v : A) :
  find P l = None -> l !! k = Some v -> P v = false.
Proof.
  revert k. induction l as [|a l IH]; intros k; simpl; [done|].
  destruct (P a) eqn:Ha; [done|]. intros Hf.
  destruct k as [|k]; simpl; [by intros [= <-] | by apply IH].
Qed.

Section Remap.
Variables (src : list Z) (w h : Z).
Hypothesis Hw : 1 <= w.
Hypothesis Hh : 1 <= h.
Hypothesis Hlen : len src = 4 * w * h.
Hypothesis Hsmall : w * h < 2 ^ 32.

Lemma luma_plane_bins :
  len (yuv_planes src w h).1.1 = w * h /\
  Forall bin_index (yuv_planes src w h).1.1.
Proof.
  destruct (yuv_planes_cells src w h ltac:(nia) Hlen) as (Hly & _ & _ & Hcells).
  split; [done|]. apply Forall_lookup. intros n y Hn.
  pose proof (lookup_lt_Some _ _ _ Hn) as Hlt.
  rewrite <- load_nat in Hn.
  destruct (Hcells (Z.of_nat n) ltac:(unfold len in Hly; lia)) as (Hy & _).
  rewrite Hy in Hn. injection Hn as <-. apply ToUint8_range.
Qed.

Lemma cdf_table_cells :
  len (cdf_table src w h) = 256 /\
  Forall counter (histogram (yuv_planes src w h).1.1) /\
  total_of (histogram (yuv_planes src w h).1.1) = w * h /\
  forall i, 0 <= i < 256 ->
    load (cdf_table src w h) i
    = Some (total_of (take (Z.to_nat (i + 1)) (histogram (yuv_planes src w h).1.1))).
Proof.
  destruct luma_plane_bins as [Hly Hbins].
  destruct (histogram_counts _ Hbins ltac:(lia)) as (Hlh & Hc & Ht & _).
  destruct (cumulative_prefix _ Hlh Hc ltac:(lia)) as [Hlc Hcells].
  unfold cdf_table. split; [done|]. split; [done|]. split; [lia | done].
Qed.

Lemma cdf_table_monotone i j ci cj :
  0 <= i <= j -> j < 256 ->
  load (cdf_table src w h) i = Some ci -> load (cdf_table src w h) j = Some cj ->
  0 <= ci <= cj.
Proof.
  intros Hij Hj Hi Hcj.
  destruct cdf_table_cells as (_ & Hc & _ & Hcells).
  rewrite Hcells in Hi, Hcj by lia. injection Hi as <-. injection Hcj as <-.
  apply prefix_monotone; [done | lia].
Qed.

Lemma cdf_table_last : load (cdf_table src w h) 255 = Some (w * h).
Proof.
  destruct cdf_table_cells as (_ & _ & Ht & Hcells).
  destruct luma_plane_bins as [Hly Hbins].
  destruct (histogram_counts _ Hbins ltac:(lia)) as (Hlh & _ & _ & _).
  rewrite Hcells by lia. f_equal. rewrite prefix_all; [done|].
  unfold len in Hlh. lia.
Qed.

Lemma cdf_table_populated p bin :
  load (yuv_planes src w h).1.1 p = Some bin ->
  exists c, load (cdf_table src w h) bin = Some c /\ 1 <= c.
Proof.
  intros Hbin.
  destruct luma_plane_bins as [Hly Hbins].
  destruct (histogram_counts _ Hbins ltac:(lia)) as (Hlh & Hc & _ & Hseen).
  destruct (Hseen p bin Hbin) as (c & Hcb & Hc1).
  assert (Hb : bin_index bin).
  { pose proof (load_Some_lt _ _ _ Hbin).
    rewrite load_lookup in Hbin by lia. by eapply Forall_lookup_1. }
  unfold bin_index in Hb.
  destruct cdf_table_cells as (_ & _ & _ & Hcells).
  rewrite Hcells by lia. eexists. split; [done|].
  replace (Z.to_nat (bin + 1)) with (S (Z.to_nat bin)) by lia.
  rewrite load_lookup in Hcb by lia.
  rewrite (prefix_step _ _ _ Hcb).
  pose proof (prefix_monotone (histogram (yuv_planes src w h).1.1)
                0 (Z.to_nat bin) Hc ltac:(lia)).
  lia.
Qed.

Lemma cdf_min_first :
  exists k : Z, 0 <= k < 256 /\
    load (cdf_table src w h) k = Some (cdf_min (cdf_table src w h)) /\
    0 < cdf_min (cdf_table src w h) /\
    forall i c, 0 <= i < k -> load (cdf_table src w h) i = Some c -> c <= 0.
Proof.
  destruct cdf_table_cells as (Hlc & _ & _ & _).
  unfold cdf_min. destruct (find _ (cdf_table src w h)) as [v|] eqn:Hfind.
  - destruct (find_first_inv _ _ _ Hfind) as (k & Hk & Hv & Hbefore).
    pose proof (lookup_lt_Some _ _ _ Hk) as Hlt. unfold len in Hlc.
    exists (Z.of_nat k). simpl. rewrite load_nat.
    split; [lia|]. split; [done|]. split; [by apply Z.ltb_lt|].
    intros i c Hi Hci. rewrite load_lookup in Hci by lia.
    specialize (Hbefore (Z.to_nat i) c ltac:(lia) Hci).
    by apply Z.ltb_ge.
  - pose proof cdf_table_last as Hlast. rewrite load_lookup in Hlast by lia.
    pose proof (find_none_inv _ _ _ _ Hfind Hlast) as Hno.
    apply Z.ltb_ge in Hno. nia.
Qed.
End Remap.

(** X7. For a [w]x[h] buffer with fewer than 2^32 pixels, the table [cdf] of
    [equalizeLuma] is non-decreasing and ends at the number of pixels,
    [cdfMin] is positive, and for every pixel the numerator
    [cdf[yArr[i]] - cdfMin] of the remap lies between 0 and its denominator
    [total - cdfMin]: the clamp of line 236 never has to cut a quotient. *)
Theorem equalizeLuma_remap_range (src : list Z) (w h : Z) :
  1 <= w -> 1 <= h -> len src = 4 * w * h -> w * h < 2 ^ 32 ->
  (forall i j ci cj, 0 <= i <= j -> j < 256 ->
     load (cdf_table src w h) i = Some ci ->
     load (cdf_table src w h) j = Some cj -> 0 <= ci <= cj) /\
  load (cdf_table src w h) 255 = Some (w * h) /\
  0 < cdf_min (cdf_table src w h) /\
  forall p, 0 <= p < w * h ->
    exists bin c,
      load (yuv_planes src w h).1.1 p = Some bin /\
      load (cdf_table src w h) bin = Some c /\
      0 <= c - cdf_min (cdf_table src w h)
        <= w * h - cdf_min (cdf_table src w h).
Proof.
  intros Hw Hh Hlen Hsmall.
  split; [apply (cdf_table_monotone src w h Hw Hh Hlen Hsmall)|].
  pose proof (cdf_table_last src w h Hw Hh Hlen Hsmall) as Hlast.
  split; [done|].
  destruct (cdf_min_first src w h Hw Hh Hlen Hsmall) as (k & Hk & Hmin & Hpos & Hzero).
  split; [done|].
  intros p Hp.
  destruct (luma_plane_bins src w h Hw Hh Hlen) as [Hly Hbins].
  destruct (load_lt_Some (yuv_planes src w h).1.1 p ltac:(lia)) as [bin Hbin].
  destruct (cdf_table_populated src w h Hw Hh Hlen Hsmall p bin Hbin)
    as (c & Hc & Hc1).
  pose proof (load_Some_lt _ _ _ Hc) as Hbin_range.
  destruct (cdf_table_cells src w h Hw Hh Hlen Hsmall) as (Hlc & _ & _ & _).
  exists bin, c. split; [done|]. split; [done|].
  assert (Hkb : k <= bin).
  { destruct (decide (k <= bin)); [done|].
    specialize (Hzero bin c ltac:(lia) Hc). lia. }
  pose proof (cdf_table_monotone src w h Hw Hh Hlen Hsmall k bin _ _
                ltac:(lia) ltac:(lia) Hmin Hc).
  pose proof (cdf_table_monotone src w h Hw Hh Hlen Hsmall bin 255 _ _
                ltac:(lia) ltac:(lia) Hc Hlast).
  lia.
Qed.

Lemma equalizeLuma_remap_range_witness :
  load (cdf_table flat_orange 2 2) 255 = Some (2 * 2) /\
  0 < cdf_min (cdf_table flat_orange 2 2) /\
  exists bin c,
    load (yuv_planes flat_orange 2 2).1.1 3 = Some bin /\
    load (cdf_table flat_orange 2 2) bin = Some c /\
    0 <= c - cdf_min (cdf_table flat_orange 2 2)
      <= 2 * 2 - cdf_min (cdf_table flat_orange 2 2).
Proof.
  destruct (equalizeLuma_remap_range flat_orange 2 2
              ltac:(lia) ltac:(lia) eq_refl eq_refl)
    as (_ & Hlast & Hpos & Hpixel).
  exact (conj Hlast (conj Hpos (Hpixel 3 ltac:(lia)))).
Defined.

(** ** The canvas of an image that fits *)

Lemma elem_of_small_sides v : 0 <= v <= 1024 -> v ∈ small_sides.
Proof. intros Hv. apply elem_of_zrange. lia. Qed.

(** The scale of an image whose larger side is at most 1024 is 1, also for
    the side 0, where the quotient is infinite: checked on the 1025 sides. *)
Lemma unit_scale_checked_sides :
  (fun m => Math_min64 (ofZ64 1) (ofZ64 1024 / ofZ64 m)%float) <$> small_sides
  = (fun _ => 1%float) <$> small_sides.
Proof. vm_compute. reflexivity. Qed.

Lemma side_kept_checked :
  forallb (fun v => ToUint32 (Math_round (ofZ64 v * 1)%float) =? v) small_sides
  = true.
Proof. vm_compute. reflexivity. Qed.

(** X8. For an image whose sides are both at most 1024, [drawImageToCanvas]
    sizes the canvas to exactly the size of the image: the scale is 1 and
    the rounding changes nothing. This includes an image that failed to decode, of size
    0x0, for which the division by the larger side is a division by 0. *)
Theorem drawImageToCanvas_fits (img_width img_height : Z) :
  0 <= img_width <= 1024 -> 0 <= img_height <= 1024 ->
  drawImageToCanvas img_width img_height = (img_width, img_height).
Proof.
  intros Hw Hh. unfold drawImageToCanvas.
  assert (Hscale : Math_min (num 1) (num 1024 / num (Z.max img_width img_height))%num
                   = 1%float).
  { apply (fmap_eq_pointwise _ _ _ unit_scale_checked_sides
             (Z.max img_width img_height)).
    apply elem_of_small_sides. lia. }
  rewrite Hscale.
  pose proof side_kept_checked as Hall. rewrite forallb_forall in Hall.
  f_equal; apply Z.eqb_eq, Hall, list_elem_of_In, elem_of_small_sides; lia.
Qed.

Lemma drawImageToCanvas_fits_witness :
  drawImageToCanvas 640 480 = (640, 480).
Proof. apply (drawImageToCanvas_fits 640 480); lia. Defined.

(** ** The grayscale plane *)

Section Grayscale.
Context {F : Type} `{JsArith F}.

(** For an image of [4 * w * h] cells the plane holds, at every pixel, the
    luma of that pixel's own bytes. *)
Lemma grayscale_cells (d : ImageData) :
  0 <= width d * height d -> len (data d) = 4 * width d * height d ->
  len (grayscale d) = width d * height d /\
  forall j, 0 <= j < width d * height d ->
    load (grayscale d) j = Some (gray_of d j).
Proof.
  intros Hwh Hlen. unfold grayscale, pixels.
  rewrite (pixels_count (data d) (width d) (height d) Hlen).
  match goal with
  | |- context [foldl ?f ?s0 (zrange 0 _)] => set (body := f); set (init := s0)
  end.
  destruct (loop_cells (fun g : list F => g) body (fun j => Some (gray_of d j))
              1 0 (width d * height d) (width d * height d) init)
    as (Hl & Hcells & _);
    [lia | lia | subst init; rewrite len_new_array; lia | | | |].
  - intros s k Hk Hs. subst body. simpl. unfold f32_store. by rewrite len_store.
  - intros s k i Hk Hs Hi. subst body. simpl. unfold f32_store.
    apply load_store_ne. lia.
  - intros s k i Hk Hs Hi HiL. subst body. simpl in *.
    assert (i = k) as -> by lia. unfold f32_store.
    rewrite load_store_eq by lia. reflexivity.
  - simpl in *. split; [done|]. intros j Hj. apply Hcells; lia.
Qed.

Lemma gray_at_pixel (d : ImageData) x y :
  0 <= width d * height d -> len (data d) = 4 * width d * height d ->
  0 <= x < width d -> 0 <= y < height d ->
  gray_at (width d) (grayscale d) x y = gray_of d (idx (width d) x y).
Proof.
  intros Hwh Hlen Hx Hy. unfold gray_at, f32_at.
  destruct (grayscale_cells d Hwh Hlen) as [_ Hcells].
  rewrite Hcells; [done|]. unfold idx. nia.
Qed.
End Grayscale.

(** ** The divisors of [computeMetrics] *)

Section Counts.
Context {F : Type} `{JsArith F}.

Lemma laplacian_count w h (gray : list F) :
  (laplacian w h gray).2 = Z.max 0 (w - 2) * Z.max 0 (h - 2).
Proof.
  unfold laplacian.
  destruct (Z.le_gt_cases (h - 1) 1) as [Hh|Hh].
  { rewrite (zrange_empty 1 (h - 1)) by lia. simpl. lia. }
  replace (Z.max 0 (h - 2)) with (h - 1 - 1) by lia.
  apply (foldl_zrange_ind
    (fun y (st : list F * F * Z) => st.2 = Z.max 0 (w - 2) * (y - 1)));
    [lia | simpl; lia |].
  intros y st Hy Hst.
  destruct (Z.le_gt_cases (w - 1) 1) as [Hw|Hw].
  { rewrite (zrange_empty 1 (w - 1)) by lia. simpl. lia. }
  replace (Z.max 0 (w - 2) * (y + 1 - 1))
    with (Z.max 0 (w - 2) * (y - 1) + (w - 1 - 1)) by lia.
  apply (foldl_zrange_ind
    (fun x (st : list F * F * Z) =>
       st.2 = Z.max 0 (w - 2) * (y - 1) + (x - 1))); [lia | lia |].
  intros x [[lap mean] count] Hx Hc. simpl in *. lia.
Qed.

Lemma symmetry_sum_pairs w h (gray : list F) :
  0 <= w -> 0 <= h -> (symmetry_sum w h gray).2 = w / 2 * h.
Proof.
  intros Hw Hh. unfold symmetry_sum.
  assert (Hmid : 0 <= w / 2) by (apply Z.div_pos; lia).
  apply (foldl_zrange_ind
    (fun y (st : F * Z) => st.2 = w / 2 * y)); [done | simpl; lia |].
  intros y st Hy Hst.
  replace (w / 2 * (y + 1)) with (w / 2 * y + w / 2) by lia.
  apply (foldl_zrange_ind
    (fun x (st : F * Z) => st.2 = w / 2 * y + x)); [done | lia |].
  intros x [sym pix] Hx Hc. simpl in *. lia.
Qed.

(** X9. For an image of width and height at least 1, the pixel count by
    which [computeMetrics] divides the Laplacian sums is the number of
    interior pixels, [max 0 (w-2) * max 0 (h-2)]; the divisor of the
    variance, [max 1 count], is the same number as the divisor of the
    gradient energy, [max 1 ((w-2) * (h-2))]; and the number of mirrored
    pairs is [floor (w/2) * h].  This holds whatever the arithmetic on the
    pixel values. *)
Theorem computeMetrics_divisors (d : ImageData) :
  1 <= width d -> 1 <= height d ->
  let w := width d in
  let h := height d in
  let count := (laplacian w h (grayscale d)).2 in
  let pix := (symmetry_sum w h (grayscale d)).2 in
  count = Z.max 0 (w - 2) * Z.max 0 (h - 2) /\
  Z.max 1 count = Z.max 1 ((w - 2) * (h - 2)) /\
  pix = w / 2 * h.
Proof.
  intros Hw Hh. simpl.
  rewrite laplacian_count, symmetry_sum_pairs by lia.
  split; [done|]. split; [nia | done].
Qed.

End Counts.

Lemma computeMetrics_divisors_witness :
  (laplacian 3 3 (grayscale (F := float) centre_dot)).2 = 1 /\
  (symmetry_sum 3 3 (grayscale (F := float) centre_dot)).2 = 3.
Proof.
  destruct (computeMetrics_divisors (F := float) centre_dot)
    as (Hc & _ & Hp); [simpl; lia | simpl; lia |].
  exact (conj Hc Hp).
Defined.

(** ** [median3x3] takes its values from the source *)

Lemma window3x3_source (src : list Z) w h x y c v :
  1 <= w -> 1 <= h -> len src = 4 * w * h ->
  0 <= x < w -> 0 <= y < h -> 0 <= c < 4 ->
  v ∈ window3x3 src w h x y c ->
  exists x' y',
    x - 1 <= x' <= x + 1 /\ y - 1 <= y' <= y + 1 /\
    0 <= x' < w /\ 0 <= y' < h /\
    load src (idx4 w x' y' c) = Some v.
Proof.
  intros Hw Hh Hlen Hx Hy Hc Hv.
  assert (Hcell : forall i j, -1 <= i <= 1 -> -1 <= j <= 1 ->
    v = default 0 (load src (idx4 w (nearest (w - 1) (x + i))
                                    (nearest (h - 1) (y + j)) c)) ->
    exists x' y',
      x - 1 <= x' <= x + 1 /\ y - 1 <= y' <= y + 1 /\
      0 <= x' < w /\ 0 <= y' < h /\
      load src (idx4 w x' y' c) = Some v).
  { intros i j Hi Hj ->.
    exists (nearest (w - 1) (x + i)), (nearest (h - 1) (y + j)).
    assert (Hxx : 0 <= nearest (w - 1) (x + i) < w /\
                  x - 1 <= nearest (w - 1) (x + i) <= x + 1)
      by (unfold nearest; lia).
    assert (Hyy : 0 <= nearest (h - 1) (y + j) < h /\
                  y - 1 <= nearest (h - 1) (y + j) <= y + 1)
      by (unfold nearest; lia).
    repeat (split; [lia|]).
    destruct (load_lt_Some src (idx4 w (nearest (w - 1) (x + i))
                                       (nearest (h - 1) (y + j)) c))
      as [u Hu]; [rewrite Hlen; apply idx4_range; lia|].
    by rewrite Hu. }
  unfold window3x3 in Hv. simpl in Hv.
  repeat (apply elem_of_cons in Hv as [Hv|Hv];
          [eapply Hcell; [| | exact Hv]; lia|]).
  by apply elem_of_nil in Hv.
Qed.

(** X12. For a [w]x[h] RGBA buffer of bytes, [w, h >= 1], every colour
    cell of the output of [median3x3] holds the value of the same channel
    at a source pixel at most one step away in each direction: the filter
    makes up no value. *)
Theorem median3x3_selects (src : list Z) (w h : Z) :
  1 <= w -> 1 <= h -> len src = 4 * w * h -> Forall byte src ->
  forall x y c, 0 <= x < w -> 0 <= y < h -> 0 <= c < 3 ->
    exists x' y',
      x - 1 <= x' <= x + 1 /\ y - 1 <= y' <= y + 1 /\
      0 <= x' < w /\ 0 <= y' < h /\
      load (median3x3 src w h) (idx4 w x y c) = load src (idx4 w x' y' c).
Proof.
  intros Hw Hh Hlen Hbytes x y c Hx Hy Hc.
  destruct (median3x3_cells src w h Hw Hh Hlen) as [_ Hcells].
  destruct (rank_4_of_window src w h x y c) as (sorted & Hp & _ & H4);
    [done.. | lia |].
  rewrite Hcells by (rewrite Hlen; apply idx4_range; lia).
  rewrite median_cell_idx4 by lia.
  destruct (Z.ltb_spec c 3); [|lia].
  symmetry in H4. apply list_elem_of_lookup_2 in H4 as Hin.
  rewrite Hp in Hin.
  destruct (window3x3_source src w h x y c _ Hw Hh Hlen Hx Hy ltac:(lia) Hin)
    as (x' & y' & Hx' & Hy' & Hxr & Hyr & Hload).
  exists x', y'. by rewrite Hload.
Qed.

Lemma median3x3_selects_witness :
  exists x' y',
    0 <= x' <= 2 /\ 0 <= y' <= 2 /\ 0 <= x' < 3 /\ 0 <= y' < 3 /\
    load (median3x3 ramp 3 3) (idx4 3 1 1 0) = load ramp (idx4 3 x' y' 0).
Proof.
  apply (median3x3_selects ramp 3 3 ltac:(lia) ltac:(lia) eq_refl
           ltac:(unfold ramp; repeat (constructor; [unfold byte; lia|]);
                 constructor)
           1 1 0); lia.
Defined.

(** ** What [boxBlur] computes

    The running sum of a line holds integers below 766, which the doubles
    add and subtract exactly; with radius 1 the stored
    [Math.round(val * iarr)] is the rounded third of the sum. *)

Lemma elem_of_window_sums s : 0 <= s <= 765 -> s ∈ window_sums.
Proof.
  intros Hs. change (s ∈ zrange 0 766). apply elem_of_zrange. lia.
Qed.

Lemma elem_of_byte_differences d : -255 <= d <= 255 -> d ∈ byte_differences.
Proof.
  intros Hd. change (d ∈ zrange (-255) 256). apply elem_of_zrange. lia.
Qed.

Lemma first_sum_checked :
  (fun a => (2 * ofZ64 a + ofZ64 a)%float) <$> all_bytes
  = (fun a => ofZ64 (a + a + a)) <$> all_bytes.
Proof. vm_compute. reflexivity. Qed.

Lemma difference_checked :
  Forall (fun b =>
            (fun a => (ofZ64 b - ofZ64 a)%float) <$> all_bytes
            = (fun a => ofZ64 (b - a)) <$> all_bytes)
         all_bytes.
Proof.
  unfold all_bytes at 3.
  let l := eval vm_compute in (zrange 0 256) in change (zrange 0 256) with l.
  repeat (constructor; [vm_compute; reflexivity|]). constructor.
Qed.

Lemma sum_step_checked :
  Forall (fun s =>
            (fun d => (ofZ64 s + ofZ64 d)%float) <$> byte_differences
            = (fun d => ofZ64 (s + d)) <$> byte_differences)
         window_sums.
Proof.
  unfold window_sums.
  repeat (constructor; [vm_compute; reflexivity|]). constructor.
Qed.

Lemma third_checked :
  forallb (fun s => ToUint8Clamp (Math_round (ofZ64 s * (1 / 3))%float)
                    =? rounded_mean s 3)
          window_sums = true.
Proof. vm_compute. reflexivity. Qed.

Lemma first_sum a : byte a -> (2 * ofZ64 a + ofZ64 a)%float = ofZ64 (a + a + a).
Proof.
  intros Ha. apply (fmap_eq_pointwise _ _ _ first_sum_checked a).
  by apply elem_of_all_bytes.
Qed.

Lemma window_slide a1 a2 a3 b :
  byte a1 -> byte a2 -> byte a3 -> byte b ->
  (ofZ64 (a1 + a2 + a3) + (ofZ64 b - ofZ64 a1))%float = ofZ64 (a2 + a3 + b).
Proof.
  unfold byte. intros H1 H2 H3 Hb.
  pose proof difference_checked as Hd. rewrite Forall_forall in Hd.
  rewrite (fmap_eq_pointwise _ _ _ (Hd b (elem_of_all_bytes b Hb)) a1
             (elem_of_all_bytes a1 H1)).
  pose proof sum_step_checked as Hs. rewrite Forall_forall in Hs.
  assert (Hsum : a1 + a2 + a3 ∈ window_sums)
    by (apply elem_of_window_sums; lia).
  assert (Hdiff : b - a1 ∈ byte_differences)
    by (apply elem_of_byte_differences; lia).
  rewrite (fmap_eq_pointwise _ _ _ (Hs _ Hsum) _ Hdiff).
  f_equal. lia.
Qed.

Lemma third_store s :
  0 <= s <= 765 ->
  ToUint8Clamp (Math_round (ofZ64 s * (1 / 3))%float) = rounded_mean s 3.
Proof.
  intros Hs%elem_of_window_sums%list_elem_of_In.
  pose proof third_checked as Hall. rewrite forallb_forall in Hall.
  by apply Z.eqb_eq, Hall.
Qed.

Lemma zrange_one lo hi : hi = lo + 1 -> zrange lo hi = [lo].
Proof.
  intros ->. unfold zrange. replace (lo + 1 - lo) with 1 by lia. simpl.
  f_equal. lia.
Qed.

Lemma window_sum_radius_1 (sample : Z -> Z) hi k :
  window_sum sample hi 1 k
  = sample (nearest hi (k - 1)) + sample (nearest hi k)
    + sample (nearest hi (k + 1)).
Proof.
  unfold window_sum, zrange. replace (k + 1 + 1 - (k - 1)) with 3 by lia.
  simpl. replace (k - 1 + Z.of_nat 0) with (k - 1) by lia.
  replace (k - 1 + Z.of_nat 1) with k by lia.
  replace (k - 1 + Z.of_nat 2) with (k + 1) by lia. lia.
Qed.

Lemma blur_line_radius_1 (src out : list Z) (n stride ti last : Z) :
  Forall byte src -> 3 <= n -> 1 <= stride -> 0 <= ti ->
  ti + (n - 1) * stride < len src -> len out = len src ->
  len (blur_line src out (1 / 3)%float 1 n stride ti last) = len src /\
  (forall x, 0 <= x < n ->
     load (blur_line src out (1 / 3)%float 1 n stride ti last) (ti + x * stride)
     = Some (late_mean src 1 n stride ti x)) /\
  (forall i, (forall x, 0 <= x < n -> i <> ti + x * stride) ->
     load (blur_line src out (1 / 3)%float 1 n stride ti last) i = load out i).
Proof.
  intros Hsrc Hn Hstride Hti Hlast Hlen.
  set (s := fun k => default 0 (load src (ti + k * stride))).
  assert (Hcell : forall x, 0 <= x < n ->
            load src (ti + x * stride) = Some (s x) /\ byte (s x)).
  { intros x Hx. destruct (load_lt_Some src (ti + x * stride)) as [a Ha]; [nia|].
    unfold s. rewrite Ha. split; [done|]. by eapply load_byte. }
  assert (Hat : forall x, 0 <= x < n ->
            byte_at (F := float) src (ti + x * stride) = ofZ64 (s x)).
  { intros x Hx. apply byte_at_load. by apply Hcell. }
  set (cell := fun x =>
    rounded_mean (s (Z.max 0 (x - 2)) + s (Z.max 0 (x - 1)) + s x) 3).
  assert (Hmean : forall x, 0 <= x < n ->
            late_mean src 1 n stride ti x = cell x).
  { intros x Hx. unfold late_mean. rewrite window_sum_radius_1.
    unfold nearest, cell. fold s.
    replace (Z.max 0 (Z.min (n - 1) (x - 1 - 1))) with (Z.max 0 (x - 2)) by lia.
    replace (Z.max 0 (Z.min (n - 1) (x - 1))) with (Z.max 0 (x - 1)) by lia.
    replace (Z.max 0 (Z.min (n - 1) (x - 1 + 1))) with x by lia. done. }
  assert (Hsum : forall a b c, 0 <= a < n -> 0 <= b < n -> 0 <= c < n ->
            0 <= s a + s b + s c <= 765).
  { intros a b c Ha Hb Hc.
    destruct (Hcell a Ha) as [_ Hba], (Hcell b Hb) as [_ Hbb],
             (Hcell c Hc) as [_ Hbc].
    unfold byte in *. lia. }
  remember (1 / 3)%float as iarr eqn:Hiarr.
  unfold blur_line.
  change (zrange 0 1) with [0]. change (zrange 0 (1 + 1)) with [0; 1].
  rewrite (zrange_one (n - 1) n) by lia.
  simpl.
  replace (ti + 0 * stride) with ti by lia.
  replace (ti + 1 * stride + stride) with (ti + 2 * stride) by lia.
  assert (E0 : byte_at (F := float) src ti = ofZ64 (s 0)).
  { rewrite <- (Hat 0) by lia. f_equal. lia. }
  rewrite !E0, !(Hat 1), !(Hat 2) by lia.
  destruct (Hcell 0 ltac:(lia)) as [L0 B0], (Hcell 1 ltac:(lia)) as [L1 B1],
           (Hcell 2 ltac:(lia)) as [L2 B2].
  rewrite first_sum by done.
  rewrite (window_slide (s 0) (s 0) (s 0) (s 1)) by done.
  rewrite (window_slide (s 0) (s 0) (s 1) (s 2)) by done.
  unfold u8c_store. subst iarr.
  rewrite !third_store by (apply Hsum; lia).
  change (rounded_mean (s 0 + s 0 + s 0) 3) with (cell 0).
  change (rounded_mean (s 0 + s 0 + s 1) 3) with (cell 1).
  set (P := fun (k : Z) (st : list Z * Z * Z * Z * float) =>
    let '(o, t, l, r, v) := st in
    t = ti + k * stride /\ l = ti + (k - 2) * stride /\
    r = ti + (k + 1) * stride /\
    v = ofZ64 (s (k - 2) + s (k - 1) + s k) /\ len o = len src /\
    (forall x, 0 <= x < k -> load o (ti + x * stride) = Some (cell x)) /\
    (forall i, (forall x, 0 <= x < n -> i <> ti + x * stride) ->
       load o i = load out i)).
  match goal with
  | |- context [foldl ?f ?s0 (zrange (1 + 1) (n - 1))] =>
      assert (Hend : P (n - 1) (foldl f s0 (zrange (1 + 1) (n - 1))))
  end.
  { apply (foldl_zrange_ind P); [lia| |]; unfold P.
    - split; [lia|]. split; [lia|]. split; [lia|]. split; [done|].
      rewrite !len_store. split; [done|]. split.
      + intros x Hx. assert (x = 0 \/ x = 1) as [-> | ->] by lia.
        * rewrite load_store_ne by lia.
          replace (ti + 0 * stride) with ti by lia.
          by rewrite load_store_eq by nia.
        * replace (ti + 1 * stride) with (ti + stride) by lia.
          by rewrite load_store_eq by (rewrite len_store; nia).
      + intros i Hi. rewrite !load_store_ne; [done | |].
        * specialize (Hi 0 ltac:(lia)). lia.
        * specialize (Hi 1 ltac:(lia)). lia.
    - intros k [[[[o t] l] r] v] Hk (-> & -> & -> & -> & Hlo & Hdone & Hframe).
      rewrite (Hat (k + 1)), (Hat (k - 2)) by lia.
      destruct (Hcell (k - 2) ltac:(lia)) as [_ Ba], (Hcell (k - 1) ltac:(lia)) as [_ Bb],
               (Hcell k ltac:(lia)) as [_ Bc], (Hcell (k + 1) ltac:(lia)) as [_ Bd].
      rewrite window_slide by done.
      rewrite third_store by (apply Hsum; lia).
      rewrite len_store.
      split; [lia|]. split; [lia|]. split; [lia|].
      split; [replace (k + 1 - 2) with (k - 1) by lia;
              replace (k + 1 - 1) with k by lia; done|].
      split; [done|]. split.
      + intros x Hx. destruct (decide (x = k)) as [->|Hne].
        * rewrite load_store_eq by nia. unfold cell.
          replace (Z.max 0 (k - 2)) with (k - 2) by lia.
          replace (Z.max 0 (k - 1)) with (k - 1) by lia. done.
        * rewrite load_store_ne by nia. apply Hdone. lia.
      + intros i Hi. rewrite load_store_ne; [by apply Hframe|].
        specialize (Hi k ltac:(lia)). lia. }
  destruct (foldl _ _ (zrange (1 + 1) (n - 1))) as [[[[o t] l] r] v].
  unfold P in Hend.
  destruct Hend as (-> & _ & _ & -> & Hlo & Hdone & Hframe).
  rewrite third_store by (apply Hsum; lia). rewrite len_store.
  split; [done|]. split.
  - intros x Hx. rewrite Hmean by done.
    destruct (decide (x = n - 1)) as [->|Hne].
    + rewrite load_store_eq by nia. unfold cell.
      replace (Z.max 0 (n - 1 - 2)) with (n - 1 - 2) by lia.
      replace (Z.max 0 (n - 1 - 1)) with (n - 1 - 1) by lia. done.
    + rewrite load_store_ne by nia. apply Hdone. lia.
  - intros i Hi. rewrite load_store_ne; [by apply Hframe|].
    specialize (Hi (n - 1) ltac:(lia)). lia.
Qed.

Lemma len_fmap_zrange {A} (f : Z -> A) n : 0 <= n -> len (f <$> zrange 0 n) = n.
Proof.
  intros Hn. unfold len. rewrite length_fmap, length_zrange. lia.
Qed.

Lemma load_fmap_zrange {A} (f : Z -> A) n i :
  0 <= i < n -> load (f <$> zrange 0 n) i = Some (f i).
Proof.
  intros Hi. unfold load. destruct (Z.ltb_spec i 0); [lia|].
  unfold zrange. rewrite !list_lookup_fmap, lookup_seq_lt by lia. simpl.
  f_equal. f_equal. lia.
Qed.

Lemma loop_owned {A} (body : list A -> Z -> list A) (own : Z -> Z -> Prop)
    (val : Z -> A) (lo hi L : Z) (init : list A) :
  lo <= hi -> len init = L ->
  (forall s k, lo <= k < hi -> len s = L ->
     len (body s k) = L /\
     (forall i, own k i -> load (body s k) i = Some (val i)) /\
     (forall i, ~ own k i -> load (body s k) i = load s i)) ->
  (forall k k' i, own k i -> own k' i -> k = k') ->
  len (foldl body init (zrange lo hi)) = L /\
  (forall k i, lo <= k < hi -> own k i ->
     load (foldl body init (zrange lo hi)) i = Some (val i)) /\
  (forall i, (forall k, lo <= k < hi -> ~ own k i) ->
     load (foldl body init (zrange lo hi)) i = load init i).
Proof.
  intros Hle Hinit Hbody Hdisj.
  apply (foldl_zrange_ind
    (fun n s =>
       len s = L /\
       (forall k i, lo <= k < n -> own k i -> load s i = Some (val i)) /\
       (forall i, (forall k, lo <= k < n -> ~ own k i) ->
          load s i = load init i))); [done| |].
  - split; [done|]. split; [intros; lia | done].
  - intros n s Hn (Hl & Hdone & Hframe).
    destruct (Hbody s n Hn Hl) as (Hl' & Hwrite & Hkeep).
    split; [done|]. split.
    + intros k i Hk Hown. destruct (decide (k = n)) as [->|Hne].
      * by apply Hwrite.
      * rewrite Hkeep; [apply (Hdone k); [lia | done]|].
        intros Hown'. apply Hne. by eapply Hdisj.
    + intros i Hi. rewrite Hkeep by (apply Hi; lia).
      apply Hframe. intros k Hk. apply Hi. lia.
Qed.

Section BlurPasses.
Variable r : Z.
Variable iarr : float.
Hypothesis Hline : forall (src out : list Z) (n stride ti last : Z),
  Forall byte src -> 2 * r + 1 <= n -> 1 <= stride -> 0 <= ti ->
  ti + (n - 1) * stride < len src -> len out = len src ->
  last = ti + (n - 1) * stride ->
  len (blur_line src out iarr r n stride ti last) = len src /\
  (forall x, 0 <= x < n ->
     load (blur_line src out iarr r n stride ti last) (ti + x * stride)
     = Some (late_mean src r n stride ti x)) /\
  (forall i, (forall x, 0 <= x < n -> i <> ti + x * stride) ->
     load (blur_line src out iarr r n stride ti last) i = load out i).

Lemma blur_pass (src out : list Z) (n stride N : Z)
    (first last : Z -> Z -> Z) (val : Z -> Z) :
  Forall byte src -> 2 * r + 1 <= n -> 1 <= stride -> 0 <= N ->
  len out = len src ->
  (forall a c, 0 <= a < N -> 0 <= c < 4 ->
     0 <= first a c /\ first a c + (n - 1) * stride < len src /\
     last a c = first a c + (n - 1) * stride) ->
  (forall a c x a' c' x',
     0 <= a < N -> 0 <= c < 4 -> 0 <= x < n ->
     0 <= a' < N -> 0 <= c' < 4 -> 0 <= x' < n ->
     first a c + x * stride = first a' c' + x' * stride -> a = a' /\ c = c') ->
  (forall a c x, 0 <= a < N -> 0 <= c < 4 -> 0 <= x < n ->
     val (first a c + x * stride) = late_mean src r n stride (first a c) x) ->
  let res :=
    foldl (fun o a =>
             foldl (fun o c =>
                      blur_line src o iarr r n stride (first a c) (last a c))
                   o (zrange 0 4))
          out (zrange 0 N) in
  len res = len src /\
  forall a c x, 0 <= a < N -> 0 <= c < 4 -> 0 <= x < n ->
    load res (first a c + x * stride) = Some (val (first a c + x * stride)).
Proof.
  intros Hsrc Hn Hstride HN Hout Hfirst Hdisj Hval res.
  destruct (loop_owned
    (fun o a =>
       foldl (fun o c =>
                blur_line src o iarr r n stride (first a c) (last a c))
             o (zrange 0 4))
    (fun a i => 0 <= a < N /\
                exists c x, 0 <= c < 4 /\ 0 <= x < n /\
                            i = first a c + x * stride)
    val 0 N (len src) out HN Hout) as (Hl & Hcells & _).
  - intros s a Ha Hs.
    destruct (loop_owned
      (fun o c => blur_line src o iarr r n stride (first a c) (last a c))
      (fun c i => 0 <= c < 4 /\
                  exists x, 0 <= x < n /\ i = first a c + x * stride)
      val 0 4 (len src) s ltac:(lia) Hs) as (Hl & Hcells & Hframe).
    + intros o c Hc Ho.
      destruct (Hfirst a c Ha Hc) as (H0 & Hend & Hlast).
      destruct (Hline src o n stride (first a c) (last a c))
        as (Hl & Hcells & Hframe); try done.
      split; [done|]. split.
      * intros i (_ & x & Hx & ->). rewrite Hcells by done.
        f_equal. symmetry. by apply Hval.
      * intros i Hi. apply Hframe. intros x Hx ->. apply Hi.
        split; [done|]. by exists x.
    + intros c c' i (Hc & x & Hx & ->) (Hc' & x' & Hx' & Heq).
      by destruct (Hdisj a c x a c' x' Ha Hc Hx Ha Hc' Hx' Heq).
    + split; [done|]. split.
      * intros i (_ & c & x & Hc & Hx & ->). apply (Hcells c); [done|].
        split; [done|]. by exists x.
      * intros i Hi. apply Hframe. intros c Hc (_ & x & Hx & ->).
        apply Hi. split; [done|]. by exists c, x.
  - intros a a' i (Ha & c & x & Hc & Hx & ->) (Ha' & c' & x' & Hc' & Hx' & Heq).
    by destruct (Hdisj a c x a' c' x' Ha Hc Hx Ha' Hc' Hx' Heq).
  - split; [done|]. intros a c x Ha Hc Hx. apply (Hcells a); [done|].
    split; [done|]. by exists c, x.
Qed.

Lemma blur_pass_bytes (src out : list Z) (n stride : Z)
    (first last : Z -> Z -> Z) (counters : list Z) :
  Forall byte out ->
  Forall byte
    (foldl (fun o a =>
              foldl (fun o c =>
                       blur_line src o iarr r n stride (first a c) (last a c))
                    o (zrange 0 4))
           out counters).
Proof.
  intros Hout. apply (foldl_invariant (Forall byte)); [done|].
  intros o a _ Ho. apply (foldl_invariant (Forall byte)); [done|].
  intros o' c _ Ho'. by apply blur_line_bytes.
Qed.

Lemma cell_of_index (w h i : Z) :
  1 <= w -> 0 <= i < 4 * w * h ->
  0 <= i mod 4 < 4 /\ 0 <= (i / 4) mod w < w /\ 0 <= (i / 4) / w < h /\
  i = ((i / 4) / w * w + (i / 4) mod w) * 4 + i mod 4.
Proof.
  intros Hw Hi.
  pose proof (Z.mod_pos_bound i 4 ltac:(lia)).
  pose proof (Z.div_mod i 4 ltac:(lia)).
  assert (0 <= i / 4 < w * h) by (split; [apply Z.div_pos; lia|]; 
    apply Z.div_lt_upper_bound; lia).
  pose proof (Z.mod_pos_bound (i / 4) w ltac:(lia)).
  pose proof (Z.div_mod (i / 4) w ltac:(lia)).
  assert (0 <= i / 4 / w < h) by (split; [apply Z.div_pos; lia|];
    apply Z.div_lt_upper_bound; lia).
  split; [done|]. split; [done|]. split; [done|]. lia.
Qed.

Lemma boxBlur_late (src : list Z) (w h : Z) :
  Forall byte src -> 0 <= r -> 2 * r + 1 <= w -> 2 * r + 1 <= h ->
  len src = 4 * w * h ->
  (num 1 / num (r + r + 1))%num = iarr ->
  boxBlur src w h r = late_box_mean src w h r.
Proof.
  intros Hsrc Hr Hw Hh Hlen Hiarr. unfold boxBlur, late_box_mean.
  cbv zeta. rewrite Hiarr.
  assert (Hwh : 0 <= len src) by apply len_nonneg.
  set (tmp := foldl _ (new_array 0 (len src)) (zrange 0 h)).
  assert (Htmp : tmp = late_rows src w h r).
  { destruct (blur_pass src (new_array 0 (len src)) w 4 h
                (fun y c => (y * w) * 4 + c)
                (fun y c => (y * w + (w - 1)) * 4 + c)
                (fun i => late_mean src r w 4 ((i / 4 / w * w) * 4 + i mod 4)
                            ((i / 4) mod w)))
      as [Hl Hcells]; try done; try lia.
    - rewrite len_new_array. lia.
    - intros y c Hy Hc. nia.
    - intros y c x y' c' x' Hy Hc Hx Hy' Hc' Hx' Heq.
      assert (c = c') as -> by lia. split; [nia | done].
    - intros y c x Hy Hc Hx.
      destruct (idx4_decode w x y c ltac:(lia) Hc) as (Ec & Ex & Ey).
      unfold idx4 in Ec, Ex, Ey.
      replace (y * w * 4 + c + x * 4) with ((y * w + x) * 4 + c) by lia.
      by rewrite Ec, Ex, Ey.
    - apply load_ext.
      + fold tmp in Hl. apply Nat2Z.inj.
        match goal with |- Z.of_nat (length ?a) = Z.of_nat (length ?b) =>
          change (len a = len b) end.
        rewrite Hl. unfold late_rows. by rewrite len_fmap_zrange.
      + intros i Hi. fold tmp in Hl, Hcells. rewrite Hl in Hi.
        unfold late_rows. rewrite load_fmap_zrange by done.
        destruct (cell_of_index w h i ltac:(lia) ltac:(lia))
          as (Hc & Hx & Hy & Ei).
        rewrite Ei at 1.
        replace ((i / 4 / w * w + (i / 4) mod w) * 4 + i mod 4)
          with (i / 4 / w * w * 4 + i mod 4 + (i / 4) mod w * 4) by lia.
        rewrite Hcells by done. f_equal.
        replace (i / 4 / w * w * 4 + i mod 4 + (i / 4) mod w * 4) with i by lia.
        done. }
  assert (Htmp_bytes : Forall byte tmp).
  { apply blur_pass_bytes, new_array_bytes. }
  assert (Htmp_len : len tmp = len src).
  { rewrite Htmp. unfold late_rows. by apply len_fmap_zrange. }
  rewrite <- Htmp. clearbody tmp.
  destruct (blur_pass tmp (new_array 0 (len src)) h (w * 4) w
              (fun x c => x * 4 + c)
              (fun x c => ((h - 1) * w + x) * 4 + c)
              (fun i => late_mean tmp r h (w * 4) ((i / 4) mod w * 4 + i mod 4)
                          (i / 4 / w)))
    as [Hl Hcells]; try done; try lia.
  - rewrite len_new_array. lia.
  - intros x c y x' c' y' Hx Hc Hy Hx' Hc' Hy' Heq.
    assert (Heq' : (y * w + x) * 4 + c = (y' * w + x') * 4 + c') by lia.
    clear Heq.
    assert (c = c') as -> by (clear -Heq' Hc Hc'; lia). split; [|done].
    destruct (idx4_decode w x y c' Hx Hc') as (_ & Ex & _).
    destruct (idx4_decode w x' y' c' Hx' Hc') as (_ & Ex' & _).
    unfold idx4 in Ex, Ex'. rewrite Heq' in Ex. lia.
  - intros x c y Hx Hc Hy.
    destruct (idx4_decode w x y c ltac:(lia) Hc) as (Ec & Ex & Ey).
    unfold idx4 in Ec, Ex, Ey.
    replace (x * 4 + c + y * (w * 4)) with ((y * w + x) * 4 + c) by lia.
    by rewrite Ec, Ex, Ey.
  - apply load_ext.
    + apply Nat2Z.inj.
      match goal with |- Z.of_nat (length ?a) = Z.of_nat (length ?b) =>
        change (len a = len b) end.
      rewrite Hl. unfold late_columns. rewrite len_fmap_zrange; lia.
    + intros i Hi. rewrite Hl in Hi.
      unfold late_columns. rewrite Htmp_len, load_fmap_zrange by lia.
      destruct (cell_of_index w h i ltac:(lia) ltac:(lia))
        as (Hc & Hx & Hy & Ei).
      rewrite Ei at 1.
      replace ((i / 4 / w * w + (i / 4) mod w) * 4 + i mod 4)
        with ((i / 4) mod w * 4 + i mod 4 + i / 4 / w * (w * 4)) by lia.
      rewrite Hcells by done. f_equal.
      replace ((i / 4) mod w * 4 + i mod 4 + i / 4 / w * (w * 4)) with i by lia.
      done.
Qed.
End BlurPasses.

Lemma late_mean_radius_0 (src : list Z) (n stride ti x : Z) :
  0 <= x < n ->
  late_mean src 0 n stride ti x
  = default 0 (load src (ti + Z.max 0 (x - 1) * stride)).
Proof.
  intros Hx. unfold late_mean, window_sum.
  rewrite (zrange_one (x - 1 - 0) (x - 1 + 0 + 1)) by lia. simpl.
  unfold nearest.
  replace (Z.max 0 (Z.min (n - 1) (x - 1 - 0))) with (Z.max 0 (x - 1)) by lia.
  unfold rounded_mean.
  set (v := default 0 (load src (ti + Z.max 0 (x - 1) * stride))).
  symmetry. apply (Z.div_unique _ 2 v 1); lia.
Qed.

(** X13. With radius 1, the radius [processImage] uses, on a [w]x[h] buffer
    of bytes, [w, h >= 3], [boxBlur] returns [late_box_mean]: each pass
    stores in cell [x] of a line the rounded mean of the cells [x-2], [x-1]
    and [x] of that line, an index below 0 replaced by 0; the rows are
    blurred first, then the columns of the result. These are the windows
    of the specification, each stored one cell late. *)
Theorem boxBlur_radius_1 (src : list Z) (w h : Z) :
  Forall byte src -> 3 <= w -> 3 <= h -> len src = 4 * w * h ->
  boxBlur src w h 1 = late_box_mean src w h 1.
Proof.
  intros Hsrc Hw Hh Hlen.
  apply (boxBlur_late 1 (1 / 3)%float); try done; try lia.
  intros src0 out n stride ti last Hs Hn Hst Hti Hend Hout _.
  by apply blur_line_radius_1.
Qed.

Lemma boxBlur_radius_1_witness :
  boxBlur ramp 3 3 1 = late_box_mean ramp 3 3 1.
Proof.
  apply (boxBlur_radius_1 ramp 3 3); [|lia|lia|reflexivity].
  unfold ramp. repeat (constructor; [unfold byte; lia|]). constructor.
Defined.

(** X14. With radius 0, on a [w]x[h] buffer of bytes, [w, h >= 1],
    [boxBlur] moves the image one pixel right and one pixel down: the cell
    of channel [c] at [(x, y)] receives the source cell of that channel at
    [(max 0 (x-1), max 0 (y-1))]. *)
Theorem boxBlur_radius_0_shift (src : list Z) (w h : Z) :
  Forall byte src -> 1 <= w -> 1 <= h -> len src = 4 * w * h ->
  forall x y c, 0 <= x < w -> 0 <= y < h -> 0 <= c < 4 ->
    load (boxBlur src w h 0) (idx4 w x y c)
    = load src (idx4 w (Z.max 0 (x - 1)) (Z.max 0 (y - 1)) c).
Proof.
  intros Hsrc Hw Hh Hlen x y c Hx Hy Hc.
  rewrite (boxBlur_late 0 1%float); try done; try lia.
  - unfold late_box_mean, late_columns.
    assert (Hrows : len (late_rows src w h 0) = len src).
    { unfold late_rows. apply len_fmap_zrange, len_nonneg. }
    rewrite Hrows, load_fmap_zrange
      by (rewrite Hlen; apply idx4_range; lia).
    destruct (idx4_decode w x y c Hx Hc) as (-> & -> & ->).
    rewrite late_mean_radius_0 by lia.
    replace (x * 4 + c + Z.max 0 (y - 1) * (w * 4))
      with (idx4 w x (Z.max 0 (y - 1)) c) by (unfold idx4; lia).
    unfold late_rows. rewrite load_fmap_zrange
      by (rewrite Hlen; apply idx4_range; lia).
    destruct (idx4_decode w x (Z.max 0 (y - 1)) c Hx Hc) as (-> & -> & ->).
    simpl. rewrite late_mean_radius_0 by lia.
    replace (Z.max 0 (y - 1) * w * 4 + c + Z.max 0 (x - 1) * 4)
      with (idx4 w (Z.max 0 (x - 1)) (Z.max 0 (y - 1)) c) by (unfold idx4; lia).
    symmetry. apply load_default. rewrite Hlen. apply idx4_range; lia.
  - intros src0 out n stride ti last Hs Hn Hst Hti Hend Hout ->.
    destruct (blur_line_radius_0 src0 out n stride ti Hs ltac:(lia) Hst Hti
                Hend Hout) as (Hl & Hcells & Hframe).
    split; [done|]. split; [|done].
    intros k Hk. rewrite Hcells, late_mean_radius_0 by done.
    apply load_default.
    assert (0 <= Z.max 0 (k - 1) <= n - 1) by lia. nia.
Qed.

Lemma boxBlur_radius_0_shift_witness :
  load (boxBlur two_pixels 2 1 0) (idx4 2 1 0 2)
  = load two_pixels (idx4 2 (Z.max 0 (1 - 1)) (Z.max 0 (0 - 1)) 2).
Proof.
  apply (boxBlur_radius_0_shift two_pixels 2 1); try lia; [|reflexivity].
  unfold two_pixels. repeat (constructor; [unfold byte; lia|]). constructor.
Defined.

(** * Floating-point rounding

    The values of the results of the operations on doubles, from their
    definition in [SpecFloat]: a rounded result lies between every number of
    the format below the exact value and every one above it. *)

Lemma pow2_pos e : (0 < pow2 e)%R.
Proof. apply powerRZ_lt. lra. Qed.

Lemma pow2_add a b : pow2 (a + b) = (pow2 a * pow2 b)%R.
Proof. apply powerRZ_add. lra. Qed.

Lemma pow2_0 : pow2 0 = 1%R.
Proof. reflexivity. Qed.

Lemma pow2_1 : pow2 1 = 2%R.
Proof. unfold pow2. simpl. lra. Qed.

Lemma pow2_succ e : pow2 (e + 1) = (2 * pow2 e)%R.
Proof. rewrite pow2_add, pow2_1. lra. Qed.

Lemma pow2_nat (n : nat) : pow2 (Z.of_nat n) = IZR (2 ^ Z.of_nat n).
Proof.
  induction n as [|n IH]; [reflexivity|].
  rewrite Nat2Z.inj_succ, <- Z.add_1_r, pow2_succ, IH, Z.pow_add_r by lia.
  rewrite mult_IZR. simpl (2 ^ 1). lra.
Qed.

Lemma pow2_IZR n : 0 <= n -> pow2 n = IZR (2 ^ n).
Proof. intros Hn. rewrite <- (Z2Nat.id n Hn). apply pow2_nat. Qed.

Lemma pow2_ge_1 n : 0 <= n -> (1 <= pow2 n)%R.
Proof.
  intros Hn. rewrite pow2_IZR by done. apply IZR_le.
  assert (0 < 2 ^ n) by (apply Z.pow_pos_nonneg; lia). lia.
Qed.

Lemma pow2_le a b : a <= b -> (pow2 a <= pow2 b)%R.
Proof.
  intros Hab. replace b with (a + (b - a)) by lia. rewrite pow2_add.
  pose proof (pow2_pos a). pose proof (pow2_ge_1 (b - a) ltac:(lia)). nra.
Qed.

Lemma pow2_lt a b : a < b -> (pow2 a < pow2 b)%R.
Proof.
  intros Hab. replace b with (a + 1 + (b - a - 1)) by lia.
  rewrite pow2_add, pow2_succ.
  pose proof (pow2_pos a). pose proof (pow2_ge_1 (b - a - 1) ltac:(lia)). nra.
Qed.

Lemma pow2_lt_inv a b : (pow2 a < pow2 b)%R -> a < b.
Proof.
  intros Hlt. destruct (Z.lt_ge_cases a b) as [|Hge]; [done|].
  pose proof (pow2_le b a Hge). lra.
Qed.

Lemma pow2_le_inv a b : (pow2 a <= pow2 b)%R -> a <= b.
Proof.
  intros Hle. destruct (Z.le_gt_cases a b) as [|Hgt]; [done|].
  pose proof (pow2_lt b a ltac:(lia)). lra.
Qed.

Lemma F2R_0 e : F2R 0 e = 0%R.
Proof. unfold F2R. lra. Qed.

Lemma F2R_le m1 m2 e : m1 <= m2 -> (F2R m1 e <= F2R m2 e)%R.
Proof.
  intros H. unfold F2R. apply IZR_le in H. pose proof (pow2_pos e). nra.
Qed.

Lemma F2R_lt m1 m2 e : m1 < m2 -> (F2R m1 e < F2R m2 e)%R.
Proof.
  intros H. unfold F2R. apply IZR_lt in H. pose proof (pow2_pos e). nra.
Qed.

Lemma F2R_le_inv m1 m2 e : (F2R m1 e <= F2R m2 e)%R -> m1 <= m2.
Proof.
  intros H. destruct (Z.le_gt_cases m1 m2) as [|Hgt]; [done|].
  pose proof (F2R_lt m2 m1 e ltac:(lia)). lra.
Qed.

Lemma F2R_lt_inv m1 m2 e : (F2R m1 e < F2R m2 e)%R -> m1 < m2.
Proof.
  intros H. destruct (Z.lt_ge_cases m1 m2) as [|Hge]; [done|].
  pose proof (F2R_le m2 m1 e Hge). lra.
Qed.

Lemma F2R_eq_inv m1 m2 e : F2R m1 e = F2R m2 e -> m1 = m2.
Proof.
  intros H. apply Z.le_antisymm; apply (F2R_le_inv _ _ e); lra.
Qed.

(** Moving a factor [2^n] between the mantissa and the exponent. *)
Lemma F2R_shift m e n : 0 <= n -> F2R (m * 2 ^ n) e = F2R m (e + n).
Proof.
  intros Hn. unfold F2R. rewrite mult_IZR, <- pow2_IZR by done.
  rewrite pow2_add. lra.
Qed.

Lemma F2R_opp m e : F2R (- m) e = (- F2R m e)%R.
Proof. unfold F2R. rewrite opp_IZR. lra. Qed.

Lemma F2R_add m1 m2 e : F2R (m1 + m2) e = (F2R m1 e + F2R m2 e)%R.
Proof. unfold F2R. rewrite plus_IZR. lra. Qed.

Lemma F2R_mul m1 e1 m2 e2 :
  F2R (m1 * m2) (e1 + e2) = (F2R m1 e1 * F2R m2 e2)%R.
Proof. unfold F2R. rewrite mult_IZR, pow2_add. lra. Qed.

(** ** The number of binary digits *)

Lemma digits2_size p : digits2_pos p = Pos.size p.
Proof. induction p as [p IH|p IH|]; simpl; by rewrite ?IH. Qed.

Lemma digits2_bounds p :
  2 ^ (Z.pos (digits2_pos p) - 1) <= Z.pos p < 2 ^ Z.pos (digits2_pos p).
Proof.
  induction p as [p IH|p IH|]; simpl digits2_pos.
  - rewrite Pos2Z.inj_succ.
    replace (Z.succ (Z.pos (digits2_pos p)) - 1)
      with (Z.pos (digits2_pos p) - 1 + 1) by lia.
    rewrite !Z.pow_succ_r, Z.pow_add_r by lia. lia.
  - rewrite Pos2Z.inj_succ.
    replace (Z.succ (Z.pos (digits2_pos p)) - 1)
      with (Z.pos (digits2_pos p) - 1 + 1) by lia.
    rewrite !Z.pow_succ_r, Z.pow_add_r by lia. lia.
  - change (1 <= 1 < 2). lia.
Qed.

Lemma Zdigits2_pos m : 0 < m -> 0 < Zdigits2 m.
Proof. destruct m; simpl; lia. Qed.

Lemma Zdigits2_nonneg m : 0 <= Zdigits2 m.
Proof. destruct m; simpl; lia. Qed.

Lemma Zdigits2_bounds m :
  0 < m -> 2 ^ (Zdigits2 m - 1) <= m < 2 ^ Zdigits2 m.
Proof. destruct m as [|p|p]; try lia. intros _. apply digits2_bounds. Qed.

(** The number of digits is the only [d] with [2^(d-1) <= m < 2^d]. *)
Lemma Zdigits2_unique m d :
  0 < d -> 2 ^ (d - 1) <= m < 2 ^ d -> Zdigits2 m = d.
Proof.
  intros Hd [Hlo Hhi].
  assert (Hm : 0 < m).
  { assert (0 < 2 ^ (d - 1)) by (apply Z.pow_pos_nonneg; lia). lia. }
  destruct (Zdigits2_bounds m Hm) as [Hlo' Hhi'].
  pose proof (Zdigits2_pos m Hm).
  destruct (Z.lt_trichotomy (Zdigits2 m) d) as [Hlt|[Heq|Hgt]]; [|done|].
  - assert (2 ^ Zdigits2 m <= 2 ^ (d - 1)) by (apply Z.pow_le_mono_r; lia). lia.
  - assert (2 ^ d <= 2 ^ (Zdigits2 m - 1)) by (apply Z.pow_le_mono_r; lia). lia.
Qed.

Lemma F2R_digits m e :
  0 < m ->
  (pow2 (Zdigits2 m - 1 + e) <= F2R m e < pow2 (Zdigits2 m + e))%R.
Proof.
  intros Hm. destruct (Zdigits2_bounds m Hm) as [Hlo Hhi].
  pose proof (Zdigits2_pos m Hm). unfold F2R.
  rewrite !pow2_add, (pow2_IZR (Zdigits2 m - 1)), (pow2_IZR (Zdigits2 m))
    by lia.
  apply IZR_le in Hlo. apply IZR_lt in Hhi. pose proof (pow2_pos e).
  split.
  - apply Rmult_le_compat_r; lra.
  - apply Rmult_lt_compat_r; lra.
Qed.

(** A larger value has at least as high a leading digit. *)
Lemma digits_le_of_value m1 e1 m2 e2 :
  0 < m1 -> 0 < m2 -> (F2R m1 e1 <= F2R m2 e2)%R ->
  Zdigits2 m1 + e1 <= Zdigits2 m2 + e2.
Proof.
  intros H1 H2 Hle.
  destruct (F2R_digits m1 e1 H1) as [Hlo _].
  destruct (F2R_digits m2 e2 H2) as [_ Hhi].
  assert (Hlt : (pow2 (Zdigits2 m1 - 1 + e1) < pow2 (Zdigits2 m2 + e2))%R) by lra.
  apply pow2_lt_inv in Hlt. lia.
Qed.

(** * The rounding of [SpecFloat] *)

Lemma exact_loc_of_shr_record mrs :
  exact_loc (loc_of_shr_record mrs) = exact_rec mrs.
Proof. by destruct mrs as [m [] []]. Qed.

Lemma shr_record_of_loc_m m l : shr_m (shr_record_of_loc m l) = m.
Proof. by destruct l as [|[]]. Qed.

Lemma exact_rec_of_loc m l : exact_rec (shr_record_of_loc m l) = exact_loc l.
Proof. by destruct l as [|[]]. Qed.

(** ** Shifting a mantissa right *)

Lemma shr_1_floor mrs :
  0 <= shr_m mrs ->
  exists b : bool,
    shr_m mrs = 2 * shr_m (shr_1 mrs) + (if b then 1 else 0) /\
    0 <= shr_m (shr_1 mrs) /\
    exact_rec (shr_1 mrs) = exact_rec mrs && negb b.
Proof.
  destruct mrs as [m r s]. simpl. intros Hm.
  destruct m as [|[p|p|]|]; try lia; unfold exact_rec; simpl.
  - exists false. destruct r, s; simpl; split; try lia; done.
  - exists true. destruct r, s; simpl; split; try lia; done.
  - exists false. destruct r, s; simpl; split; try lia; done.
  - exists true. destruct r, s; simpl; split; try lia; done.
Qed.

Lemma shr_1_inb mrs e z :
  0 <= shr_m mrs -> inb z (shr_m mrs) e (exact_rec mrs) ->
  0 <= shr_m (shr_1 mrs) /\
  inb z (shr_m (shr_1 mrs)) (e + 1) (exact_rec (shr_1 mrs)) /\
  shr_m (shr_1 mrs) * 2 ^ 1 <= shr_m mrs < (shr_m (shr_1 mrs) + 1) * 2 ^ 1.
Proof.
  intros Hm [[Hlo Hhi] Hex].
  destruct (shr_1_floor mrs Hm) as (b & Hb & Hm' & Hex').
  set (m' := shr_m (shr_1 mrs)) in *. set (m := shr_m mrs) in *.
  split; [done|]. split; [|destruct b; simpl; lia].
  assert (E1 : F2R m' (e + 1) = F2R (2 * m') e).
  { rewrite <- (F2R_shift m' e 1) by lia. f_equal. simpl. lia. }
  assert (E2 : F2R (m' + 1) (e + 1) = F2R (2 * m' + 2) e).
  { rewrite <- (F2R_shift (m' + 1) e 1) by lia. f_equal. simpl. lia. }
  split.
  - rewrite E1, E2. split.
    + pose proof (F2R_le (2 * m') m e ltac:(destruct b; lia)). lra.
    + pose proof (F2R_le (m + 1) (2 * m' + 2) e ltac:(destruct b; lia)). lra.
  - rewrite Hex', E1. split.
    + intros [He Hb0]%andb_true_iff. destruct b; [done|].
      apply Hex in He. rewrite He. f_equal. lia.
    + intros Hz. apply andb_true_iff.
      assert (Hle : (F2R m e <= F2R (2 * m') e)%R) by lra.
      apply F2R_le_inv in Hle. destruct b; [lia|]. split; [|done].
      apply Hex. rewrite Hz. f_equal. lia.
Qed.

Lemma iter_shr_1 p : forall mrs e z,
  0 <= shr_m mrs -> inb z (shr_m mrs) e (exact_rec mrs) ->
  let mrs' := SpecFloat.iter_pos shr_1 p mrs in
  0 <= shr_m mrs' /\
  inb z (shr_m mrs') (e + Z.pos p) (exact_rec mrs') /\
  shr_m mrs' * 2 ^ Z.pos p <= shr_m mrs < (shr_m mrs' + 1) * 2 ^ Z.pos p.
Proof.
  induction p as [p IH|p IH|]; intros mrs e z Hm Hin; simpl.
  - destruct (shr_1_inb mrs e z Hm Hin) as (H1 & I1 & F1).
    destruct (IH _ _ _ H1 I1) as (H2 & I2 & F2).
    destruct (IH _ _ _ H2 I2) as (H3 & I3 & F3).
    split; [done|]. split.
    + replace (e + Z.pos p~1) with (e + 1 + Z.pos p + Z.pos p) by lia. done.
    + replace (Z.pos p~1) with (1 + Z.pos p + Z.pos p) by lia.
      rewrite !Z.pow_add_r by lia.
      assert (0 < 2 ^ Z.pos p) by (apply Z.pow_pos_nonneg; lia). nia.
  - destruct (IH _ _ _ Hm Hin) as (H2 & I2 & F2).
    destruct (IH _ _ _ H2 I2) as (H3 & I3 & F3).
    split; [done|]. split.
    + replace (e + Z.pos p~0) with (e + Z.pos p + Z.pos p) by lia. done.
    + replace (Z.pos p~0) with (Z.pos p + Z.pos p) by lia.
      rewrite !Z.pow_add_r by lia.
      assert (0 < 2 ^ Z.pos p) by (apply Z.pow_pos_nonneg; lia). nia.
  - apply shr_1_inb; done.
Qed.

Lemma shr_spec mrs e n z :
  0 <= shr_m mrs -> inb z (shr_m mrs) e (exact_rec mrs) ->
  let k := Z.max 0 n in
  0 <= shr_m (shr mrs e n).1 /\
  (shr mrs e n).2 = e + k /\
  inb z (shr_m (shr mrs e n).1) (e + k) (exact_rec (shr mrs e n).1) /\
  shr_m (shr mrs e n).1 * 2 ^ k <= shr_m mrs
    < (shr_m (shr mrs e n).1 + 1) * 2 ^ k.
Proof.
  intros Hm Hin. destruct n as [|p|p]; cbn [shr fst snd].
  - change (Z.max 0 0) with 0. rewrite Z.add_0_r, Z.pow_0_r.
    split; [done|]. split; [done|]. split; [done|]. lia.
  - destruct (iter_shr_1 p mrs e z Hm Hin) as (H1 & I1 & F1). done.
  - change (Z.max 0 (Z.neg p)) with 0. rewrite Z.add_0_r, Z.pow_0_r.
    split; [done|]. split; [done|]. split; [done|]. lia.
Qed.

(** ** Formats *)

Section Format.
Variables prec emax : Z.
Hypothesis Hprec : 0 < prec.

Lemma fexp_mono a b : a <= b -> fexp prec emax a <= fexp prec emax b.
Proof. unfold fexp. lia. Qed.

Lemma fexp_ge_emin a : SpecFloat.emin prec emax <= fexp prec emax a.
Proof. unfold fexp. lia. Qed.

Lemma fexp_cases a :
  (fexp prec emax a = SpecFloat.emin prec emax /\ a - prec <= SpecFloat.emin prec emax) \/
  (fexp prec emax a = a - prec /\ SpecFloat.emin prec emax < a - prec).
Proof. unfold fexp. lia. Qed.

Lemma canonical_mantissa_iff (p : positive) e :
  canonical_mantissa prec emax p e = true <-> canonical prec emax (Z.pos p) e.
Proof.
  unfold canonical_mantissa, canonical. simpl. rewrite Z.eqb_eq. split.
  - intros H. split; [lia | done].
  - intros [_ H]. done.
Qed.

(** A canonical number above the cell of [m] lies on the grid of the
    canonical exponent of [m]. *)
Lemma upper_on_grid m e z mu eu :
  0 <= m -> (F2R m e <= z)%R -> e <= fexp prec emax (Zdigits2 m + e) ->
  canonical prec emax mu eu -> (z <= F2R mu eu)%R ->
  fexp prec emax (Zdigits2 m + e) <= eu.
Proof.
  intros Hm Hz Hcan [Hmu Heu] Hle.
  destruct (Z.eq_dec m 0) as [->|Hne].
  - change (Zdigits2 0 + e) with e in *.
    destruct (fexp_cases e) as [[E _]|[E _]]; [|lia].
    rewrite E, <- Heu. apply fexp_ge_emin.
  - rewrite <- Heu. apply fexp_mono.
    apply digits_le_of_value; [lia | done | lra].
Qed.

Lemma on_grid m e e' : e' <= e -> F2R m e = F2R (m * 2 ^ (e - e')) e'.
Proof.
  intros He. rewrite F2R_shift by lia. f_equal. lia.
Qed.

(** The first mantissa of a binade after a right shift. *)
Lemma floor_normal m m' d n :
  0 < m -> Zdigits2 m = d -> 0 <= n < d ->
  m' * 2 ^ n <= m < (m' + 1) * 2 ^ n ->
  2 ^ (d - n - 1) <= m' < 2 ^ (d - n).
Proof.
  intros Hm Hd Hn [Hlo Hhi].
  destruct (Zdigits2_bounds m Hm) as [Dlo Dhi]. rewrite Hd in Dlo, Dhi.
  assert (Hpn : 0 < 2 ^ n) by (apply Z.pow_pos_nonneg; lia).
  replace d with (d - n + n) in Dhi by lia.
  replace (d - 1) with (d - n - 1 + n) in Dlo by lia.
  rewrite Z.pow_add_r in Dhi, Dlo by lia.
  split; nia.
Qed.

Section ShiftToCanonical.
Variables (m e : Z) (l : location) (z : R).
Hypothesis Hm : 0 <= m.
Hypothesis Hin : inb z m e (exact_loc l).
Hypothesis Hcan : e <= fexp prec emax (Zdigits2 m + e).

Lemma shr_fexp_spec :
  0 <= shr_m (shr_fexp prec emax m e l).1 /\
  (shr_fexp prec emax m e l).2 = fexp prec emax (Zdigits2 m + e) /\
  inb z (shr_m (shr_fexp prec emax m e l).1) (shr_fexp prec emax m e l).2
      (exact_rec (shr_fexp prec emax m e l).1) /\
  shr_m (shr_fexp prec emax m e l).1
    * 2 ^ (fexp prec emax (Zdigits2 m + e) - e) <= m
  < (shr_m (shr_fexp prec emax m e l).1 + 1)
    * 2 ^ (fexp prec emax (Zdigits2 m + e) - e).
Proof.
  unfold shr_fexp.
  destruct (shr_spec (shr_record_of_loc m l) e
              (fexp prec emax (Zdigits2 m + e) - e) z)
    as (H0 & He & Hi & Hf).
  - by rewrite shr_record_of_loc_m.
  - by rewrite shr_record_of_loc_m, exact_rec_of_loc.
  - rewrite shr_record_of_loc_m in Hf.
    replace (Z.max 0 (fexp prec emax (Zdigits2 m + e) - e))
      with (fexp prec emax (Zdigits2 m + e) - e) in * by lia.
    rewrite He in *.
    replace (e + (fexp prec emax (Zdigits2 m + e) - e))
      with (fexp prec emax (Zdigits2 m + e)) in * by lia.
    done.
Qed.

(** The shift keeps every canonical number below [z] below. *)
Lemma shr_fexp_lower ml el :
  canonical prec emax ml el -> (F2R ml el <= z)%R ->
  (F2R ml el <= F2R (shr_m (shr_fexp prec emax m e l).1)
                    (fexp prec emax (Zdigits2 m + e)))%R.
Proof.
  intros [Hml Hel] Hle.
  destruct shr_fexp_spec as (H0 & He & [[Hlo Hhi] _] & Hf).
  rewrite He in *.
  set (m' := shr_m (shr_fexp prec emax m e l).1) in *.
  set (e' := fexp prec emax (Zdigits2 m + e)) in *.
  destruct (Z.le_gt_cases e' el) as [Hgrid|Hfine].
  - rewrite (on_grid ml el e' Hgrid) in *.
    apply F2R_le.
    assert (Hlt : (F2R (ml * 2 ^ (el - e')) e' < F2R (m' + 1) e')%R) by lra.
    apply F2R_lt_inv in Hlt. lia.
  - (* [el] is finer than the grid: the number is below the binade of [m] *)
    assert (Hemin : SpecFloat.emin prec emax < e')
      by (pose proof (fexp_ge_emin (Zdigits2 ml + el)); lia).
    destruct (fexp_cases (Zdigits2 m + e)) as [[E _]|[E Hn]]; [lia|].
    fold e' in E.
    assert (Hmpos : 0 < m).
    { destruct (Z.eq_dec m 0) as [Hz|]; [|lia]. subst m. simpl in *. lia. }
    assert (Hd : Zdigits2 ml + el < Zdigits2 m + e).
    { destruct (Z.lt_ge_cases (Zdigits2 ml + el) (Zdigits2 m + e)); [done|].
      pose proof (fexp_mono (Zdigits2 m + e) (Zdigits2 ml + el) ltac:(lia)).
      fold e' in H0. lia. }
    destruct (F2R_digits ml el Hml) as [_ Hup].
    assert (Hfirst : 2 ^ (prec - 1) <= m').
    { pose proof (Zdigits2_pos m Hmpos).
      destruct (floor_normal m m' (Zdigits2 m) (e' - e) Hmpos eq_refl
                  ltac:(lia) Hf) as [Hl _].
      replace (Zdigits2 m - (e' - e) - 1) with (prec - 1) in Hl by lia.
      done. }
    assert (Hval : (pow2 (prec - 1 + e') <= F2R m' e')%R).
    { unfold F2R. rewrite pow2_add, (pow2_IZR (prec - 1)) by lia.
      apply IZR_le in Hfirst. pose proof (pow2_pos e').
      apply Rmult_le_compat_r; lra. }
    pose proof (pow2_le (Zdigits2 ml + el) (prec - 1 + e') ltac:(lia)).
    lra.
Qed.

(** The shifted mantissa is at its canonical exponent again. *)
Lemma shr_fexp_canonical :
  0 < shr_m (shr_fexp prec emax m e l).1 ->
  canonical prec emax (shr_m (shr_fexp prec emax m e l).1)
            (fexp prec emax (Zdigits2 m + e)).
Proof.
  intros Hpos. split; [done|].
  destruct shr_fexp_spec as (H0 & He & _ & Hf).
  set (m' := shr_m (shr_fexp prec emax m e l).1) in *.
  set (e' := fexp prec emax (Zdigits2 m + e)) in *.
  assert (Hpn : 0 < 2 ^ (e' - e)) by (apply Z.pow_pos_nonneg; lia).
  assert (Hmpos : 0 < m) by nia.
  pose proof (Zdigits2_pos m Hmpos).
  assert (Hn : e' - e < Zdigits2 m).
  { destruct (Z.lt_ge_cases (e' - e) (Zdigits2 m)); [done|].
    destruct (Zdigits2_bounds m Hmpos) as [_ Dhi].
    assert (2 ^ Zdigits2 m <= 2 ^ (e' - e)) by (apply Z.pow_le_mono_r; lia).
    nia. }
  destruct (floor_normal m m' (Zdigits2 m) (e' - e) Hmpos eq_refl
              ltac:(lia) Hf) as [Hl Hh].
  rewrite (Zdigits2_unique m' (Zdigits2 m - (e' - e))); [| lia | lia].
  replace (Zdigits2 m - (e' - e) + e') with (Zdigits2 m + e) by lia.
  done.
Qed.
End ShiftToCanonical.

Lemma Zdigits2_ge m k : 0 <= k -> 2 ^ k <= m -> k + 1 <= Zdigits2 m.
Proof.
  intros Hk Hle.
  assert (Hm : 0 < m).
  { assert (0 < 2 ^ k) by (apply Z.pow_pos_nonneg; lia). lia. }
  destruct (Zdigits2_bounds m Hm) as [_ Hhi].
  destruct (Z.lt_ge_cases k (Zdigits2 m)) as [|Hge]; [lia|].
  assert (2 ^ Zdigits2 m <= 2 ^ k)
    by (apply Z.pow_le_mono_r; [lia | done]).
  lia.
Qed.

(** In the normal range the shifted mantissa has [prec] digits. *)
Lemma shr_fexp_normal m e l z :
  0 <= m -> inb z m e (exact_loc l) ->
  e <= fexp prec emax (Zdigits2 m + e) ->
  SpecFloat.emin prec emax < fexp prec emax (Zdigits2 m + e) ->
  2 ^ (prec - 1) <= shr_m (shr_fexp prec emax m e l).1.
Proof.
  intros Hm Hin Hcan Hnormal.
  destruct (shr_fexp_spec m e l z Hm Hin Hcan) as (H0 & He & _ & Hf).
  destruct (fexp_cases (Zdigits2 m + e)) as [[E _]|[E Hn]]; [lia|].
  assert (Hmpos : 0 < m).
  { destruct (Z.eq_dec m 0) as [Hz|]; [|lia]. subst m.
    change (Zdigits2 0 + e) with e in *. lia. }
  pose proof (Zdigits2_pos m Hmpos).
  destruct (floor_normal m _ (Zdigits2 m)
              (fexp prec emax (Zdigits2 m + e) - e) Hmpos eq_refl
              ltac:(lia) Hf) as [Hl _].
  replace (Zdigits2 m - (fexp prec emax (Zdigits2 m + e) - e) - 1)
    with (prec - 1) in Hl by lia.
  done.
Qed.

Lemma round_nearest_even_cases m l :
  (round_nearest_even m l = m \/ round_nearest_even m l = m + 1) /\
  (exact_loc l = true -> round_nearest_even m l = m).
Proof.
  split.
  - destruct l as [|[]]; simpl; auto. destruct (Z.even m); auto.
  - by destruct l as [|[]].
Qed.

Lemma F2R_pos m e : 0 < m -> (0 < F2R m e)%R.
Proof.
  intros Hm. unfold F2R. apply IZR_lt in Hm. pose proof (pow2_pos e). nra.
Qed.

(** The rounding at the end of every operation. *)
Lemma binary_round_aux_spec sx mx ex lx z :
  0 <= mx -> inb z mx ex (exact_loc lx) ->
  ex <= fexp prec emax (Zdigits2 mx + ex) ->
  rounds_to prec emax sx z (binary_round_aux prec emax sx mx ex lx).
Proof.
  intros Hm Hin Hcan.
  destruct (shr_fexp_spec mx ex lx z Hm Hin Hcan) as (H1 & He1 & I1 & F1).
  pose proof (shr_fexp_lower mx ex lx z Hm Hin Hcan) as L1.
  pose proof (shr_fexp_normal mx ex lx z Hm Hin Hcan) as N1.
  unfold binary_round_aux.
  destruct (shr_fexp prec emax mx ex lx) as [mrs1 e1] eqn:E1.
  cbn [fst snd] in H1, He1, I1, F1, L1, N1.
  rewrite <- He1 in L1, N1, F1.
  set (m1 := shr_m mrs1) in *.
  destruct (round_nearest_even_cases m1 (loc_of_shr_record mrs1))
    as [Hm2 Hex2].
  rewrite exact_loc_of_shr_record in Hex2.
  set (m2 := round_nearest_even m1 (loc_of_shr_record mrs1)) in *.
  destruct I1 as [[Hlo Hhi] Hexact].
  assert (Hz0 : (F2R mx ex <= z)%R) by apply Hin.
  assert (HU : forall mu eu, canonical prec emax mu eu -> (z <= F2R mu eu)%R ->
            e1 <= eu /\ (F2R m2 e1 <= F2R mu eu)%R).
  { intros mu eu Hc Hle.
    assert (Hg : e1 <= eu)
      by (rewrite He1; by apply (upper_on_grid mx ex z mu eu)).
    split; [done|]. rewrite (on_grid mu eu e1 Hg) in *. apply F2R_le.
    destruct (exact_rec mrs1) eqn:Hb.
    - rewrite Hex2 by done. apply (F2R_le_inv _ _ e1).
      destruct Hexact as [Hexact _]. rewrite <- Hexact by done. done.
    - assert (Hne : z <> F2R m1 e1).
      { intros Hz. apply Hexact in Hz. congruence. }
      assert (Hlt : (F2R m1 e1 < F2R (mu * 2 ^ (eu - e1)) e1)%R) by lra.
      apply F2R_lt_inv in Hlt. destruct Hm2 as [-> | ->]; lia. }
  assert (HL : forall ml el, canonical prec emax ml el -> (F2R ml el <= z)%R ->
            (F2R ml el <= F2R m2 e1)%R).
  { intros ml el Hc Hle. etransitivity; [by apply L1|].
    apply F2R_le. destruct Hm2 as [-> | ->]; lia. }
  assert (Hm2nn : 0 <= m2) by (destruct Hm2 as [-> | ->]; lia).
  assert (Hcan2 : e1 <= fexp prec emax (Zdigits2 m2 + e1)).
  { destruct (Z.le_gt_cases e1 (SpecFloat.emin prec emax)) as [Hsub|Hnorm].
    - pose proof (fexp_ge_emin (Zdigits2 m2 + e1)). lia.
    - specialize (N1 Hnorm).
      assert (prec - 1 + 1 <= Zdigits2 m2).
      { apply Zdigits2_ge; [lia|]. destruct Hm2 as [-> | ->]; lia. }
      unfold fexp. lia. }
  assert (I2 : inb (F2R m2 e1) m2 e1 (exact_loc loc_Exact)).
  { split; [|done]. split; [lra | apply F2R_lt; lia]. }
  destruct (shr_fexp_spec m2 e1 loc_Exact _ Hm2nn I2 Hcan2)
    as (H3 & He3 & I3 & F3).
  pose proof (shr_fexp_lower m2 e1 loc_Exact _ Hm2nn I2 Hcan2) as L3.
  pose proof (shr_fexp_canonical m2 e1 loc_Exact _ Hm2nn I2 Hcan2) as C3.
  destruct (shr_fexp prec emax m2 e1 loc_Exact) as [mrs3 e3] eqn:E3.
  cbn [fst snd] in H3, He3, I3, F3, L3, C3.
  rewrite <- He3 in L3, C3, F3.
  destruct I3 as [[Hlo3 Hhi3] _].
  destruct (shr_m mrs3) as [|p|p] eqn:Em3; [| |lia].
  - split; [done|]. intros ml el Hc Hle.
    pose proof (L3 ml el Hc (HL ml el Hc Hle)) as Hbelow.
    rewrite F2R_0 in Hbelow. destruct Hc as [Hml _].
    pose proof (F2R_pos ml el Hml). lra.
  - destruct (Z.leb_spec e3 (emax - prec)) as [Hfit|Hover].
    + split; [done|]. split; [apply C3; lia|]. split; [done|]. split.
      * intros mu eu Hc Hle. destruct (HU mu eu Hc Hle) as [_ Hv]. lra.
      * intros ml el Hc Hle. apply L3; [done|]. by apply HL.
    + split; [done|]. intros mu eu Hc Hb Hle.
      destruct (HU mu eu Hc Hle) as [_ Hv].
      assert (Hm2pos : 0 < m2).
      { assert (0 < 2 ^ (e3 - e1)) by (apply Z.pow_pos_nonneg; lia). nia. }
      destruct Hc as [Hmu Heu].
      pose proof (digits_le_of_value m2 e1 mu eu Hm2pos Hmu Hv) as Hd.
      pose proof (fexp_mono _ _ Hd). lia.
Qed.

(** ** [binary_round] and [binary_normalize] *)

Lemma iter_xO_value (m d : positive) :
  Z.pos (Pos.iter xO m d) = Z.pos m * 2 ^ Z.pos d.
Proof.
  induction d as [|d IH] using Pos.peano_ind.
  - simpl. lia.
  - rewrite Pos.iter_succ, Pos2Z.inj_succ, Z.pow_succ_r by lia.
    rewrite Pos2Z.inj_xO, IH. lia.
Qed.

Lemma shl_align_spec (mx : positive) ex ex' :
  F2R (Z.pos (shl_align mx ex ex').1) (shl_align mx ex ex').2
    = F2R (Z.pos mx) ex /\
  (shl_align mx ex ex').2 = Z.min ex ex' /\
  Z.pos (shl_align mx ex ex').1
    = Z.pos mx * 2 ^ (ex - (shl_align mx ex ex').2).
Proof.
  unfold shl_align. destruct (ex' - ex) as [|d|d] eqn:Hd; cbn [fst snd].
  - replace (ex - ex) with 0 by lia. split; [done|]. split; lia.
  - replace (ex - ex) with 0 by lia. split; [done|]. split; lia.
  - rewrite iter_xO_value.
    assert (Hex : ex = ex' + Z.pos d) by lia.
    replace (ex - ex') with (Z.pos d) by lia.
    split; [|split; lia].
    rewrite F2R_shift by lia. f_equal. lia.
Qed.

Lemma Zdigits2_shift m n :
  0 < m -> 0 <= n -> Zdigits2 (m * 2 ^ n) = Zdigits2 m + n.
Proof.
  intros Hm Hn. destruct (Zdigits2_bounds m Hm) as [Hlo Hhi].
  pose proof (Zdigits2_pos m Hm).
  assert (Hpn : 0 < 2 ^ n) by (apply Z.pow_pos_nonneg; lia).
  apply Zdigits2_unique; [lia|].
  replace (Zdigits2 m + n - 1) with (Zdigits2 m - 1 + n) by lia.
  rewrite !Z.pow_add_r by lia. nia.
Qed.

Lemma binary_round_spec sx (mx : positive) ex :
  rounds_to prec emax sx (F2R (Z.pos mx) ex) (binary_round prec emax sx mx ex).
Proof.
  unfold binary_round.
  destruct (shl_align_spec mx ex (fexp prec emax (Z.pos (digits2_pos mx) + ex)))
    as (Hv & He & Hm).
  destruct (shl_align mx ex _) as [mz ez]. cbn [fst snd] in Hv, He, Hm.
  change (Z.pos (digits2_pos mx)) with (Zdigits2 (Z.pos mx)) in *.
  assert (Hd : Zdigits2 (Z.pos mz) + ez = Zdigits2 (Z.pos mx) + ex).
  { rewrite Hm, Zdigits2_shift by lia. lia. }
  apply binary_round_aux_spec; [lia | |].
  - rewrite <- Hv. split; [|done]. split; [lra | apply F2R_lt; lia].
  - rewrite Hd. lia.
Qed.

(** The sign and the kind of a rounded value need no more than a mantissa
    that is not negative. *)
Lemma iter_shr_1_nonneg p : forall mrs,
  0 <= shr_m mrs -> 0 <= shr_m (SpecFloat.iter_pos shr_1 p mrs).
Proof.
  induction p as [p IH|p IH|]; intros mrs Hm; simpl.
  - apply IH, IH. by destruct (shr_1_floor mrs Hm) as (_ & _ & ? & _).
  - by apply IH, IH.
  - by destruct (shr_1_floor mrs Hm) as (_ & _ & ? & _).
Qed.

Lemma shr_fexp_nonneg m e l : 0 <= m -> 0 <= shr_m (shr_fexp prec emax m e l).1.
Proof.
  intros Hm. unfold shr_fexp, shr.
  destruct (fexp prec emax (Zdigits2 m + e) - e) as [|p|p]; cbn [fst];
    rewrite ?shr_record_of_loc_m; try done.
  apply iter_shr_1_nonneg. by rewrite shr_record_of_loc_m.
Qed.

Lemma binary_round_aux_sign sx mx ex lx :
  0 <= mx ->
  match binary_round_aux prec emax sx mx ex lx with
  | S754_zero s | S754_finite s _ _ | S754_infinity s => s = sx
  | S754_nan => False
  end.
Proof.
  intros Hm. unfold binary_round_aux.
  pose proof (shr_fexp_nonneg mx ex lx Hm) as H1.
  destruct (shr_fexp prec emax mx ex lx) as [mrs1 e1]. cbn [fst] in H1.
  destruct (round_nearest_even_cases (shr_m mrs1) (loc_of_shr_record mrs1))
    as [Hm2 _].
  pose proof (shr_fexp_nonneg
                (round_nearest_even (shr_m mrs1) (loc_of_shr_record mrs1))
                e1 loc_Exact ltac:(lia)) as H3.
  destruct (shr_fexp prec emax _ e1 loc_Exact) as [mrs3 e3]. cbn [fst] in H3.
  destruct (shr_m mrs3); [done| |lia].
  by destruct (e3 <=? emax - prec).
Qed.

(** ** Integers are in the format *)

Hypothesis Hemax : prec < emax.

Lemma integer_canonical n :
  0 < n < 2 ^ prec ->
  exists m e, canonical prec emax m e /\ e <= emax - prec /\
              F2R m e = IZR n.
Proof.
  intros [Hpos Hlt].
  assert (Hd : Zdigits2 n <= prec).
  { destruct (Z.le_gt_cases (Zdigits2 n) prec) as [|Hgt]; [done|].
    destruct (Zdigits2_bounds n Hpos) as [Hlo _].
    assert (2 ^ prec <= 2 ^ (Zdigits2 n - 1)) by (apply Z.pow_le_mono_r; lia).
    lia. }
  pose proof (Zdigits2_pos n Hpos).
  exists (n * 2 ^ (prec - Zdigits2 n)), (Zdigits2 n - prec).
  assert (Hpn : 0 < 2 ^ (prec - Zdigits2 n)) by (apply Z.pow_pos_nonneg; lia).
  split; [split; [nia|]|split; [lia|]].
  - rewrite Zdigits2_shift by lia. unfold fexp, SpecFloat.emin. lia.
  - rewrite F2R_shift by lia.
    replace (Zdigits2 n - prec + (prec - Zdigits2 n)) with 0 by lia.
    unfold F2R. rewrite pow2_0. lra.
Qed.

(** ** Rounded values between integers *)

Lemma rounds_to_between sx z r (a b : Z) :
  rounds_to prec emax sx z r -> (0 < z)%R ->
  - 2 ^ prec < a -> b < 2 ^ prec ->
  (IZR a <= (if sx then - z else z) <= IZR b)%R ->
  SFfin r /\ (IZR a <= SF2R r <= IZR b)%R.
Proof.
  intros Hr Hz Ha Hb Hab.
  assert (Hord : a <= b) by (apply le_IZR; lra).
  assert (Hint : forall n, 0 < n < 2 ^ prec -> (IZR n <= z)%R ->
            match r with
            | S754_zero _ => False
            | S754_finite _ m e => (IZR n <= F2R (Z.pos m) e)%R
            | _ => True
            end).
  { intros n Hn Hle. destruct (integer_canonical n Hn) as (m & e & Hc & _ & Hv).
    destruct r as [s|s| |s m' e']; try done.
    - destruct Hr as [_ Hr]. apply (Hr m e Hc). by rewrite Hv.
    - destruct Hr as (_ & _ & _ & _ & Hl). rewrite <- Hv.
      apply Hl; [done | by rewrite Hv]. }
  assert (Hupp : forall n, 0 < n < 2 ^ prec -> (z <= IZR n)%R ->
            match r with
            | S754_finite _ m e => (F2R (Z.pos m) e <= IZR n)%R
            | S754_infinity _ => False
            | _ => True
            end).
  { intros n Hn Hle. destruct (integer_canonical n Hn) as (m & e & Hc & Hb' & Hv).
    destruct r as [s|s| |s m' e']; try done.
    - destruct Hr as [_ Hr]. apply (Hr m e Hc Hb'). by rewrite Hv.
    - destruct Hr as (_ & _ & _ & Hu & _). rewrite <- Hv.
      apply Hu; [done | by rewrite Hv]. }
  destruct sx.
  - (* a negative value *)
    assert (Han : a < 0).
    { destruct (Z.lt_ge_cases a 0); [done|].
      assert (0 <= IZR a)%R by (apply IZR_le; lia). lra. }
    specialize (Hupp (- a) ltac:(lia)). rewrite opp_IZR in Hupp.
    specialize (Hupp ltac:(lra)).
    assert (Hlow : b < 0 ->
              match r with
              | S754_zero _ => False
              | S754_finite _ m e => (IZR (- b) <= F2R (Z.pos m) e)%R
              | _ => True
              end).
    { intros Hbn. apply Hint; [lia|]. rewrite opp_IZR. lra. }
    destruct r as [s|s| |s m e]; try done.
    + split; [done|]. simpl. split; [apply IZR_le; lia|].
      destruct (Z.lt_ge_cases b 0) as [Hbn|Hbp]; [by apply Hlow in Hbn|].
      apply IZR_le. lia.
    + destruct Hr as [-> _]. split; [done|]. simpl.
      change (Z.neg m) with (- Z.pos m). rewrite F2R_opp. split; [lra|].
      destruct (Z.lt_ge_cases b 0) as [Hbn|Hbp].
      * apply Hlow in Hbn. rewrite opp_IZR in Hbn. lra.
      * pose proof (F2R_pos (Z.pos m) e ltac:(lia)).
        assert (0 <= IZR b)%R by (apply IZR_le; lia). lra.
  - (* a positive value *)
    assert (Hbp : 0 < b).
    { destruct (Z.lt_ge_cases 0 b); [done|].
      assert (IZR b <= 0)%R by (apply IZR_le; lia). lra. }
    specialize (Hupp b ltac:(lia) ltac:(lra)).
    assert (Hlow : 0 < a ->
              match r with
              | S754_zero _ => False
              | S754_finite _ m e => (IZR a <= F2R (Z.pos m) e)%R
              | _ => True
              end).
    { intros Hap. apply Hint; [lia | lra]. }
    destruct r as [s|s| |s m e]; try done.
    + split; [done|]. simpl. split; [|apply IZR_le; lia].
      destruct (Z.lt_ge_cases 0 a) as [Hap|Han]; [by apply Hlow in Hap|].
      apply IZR_le. lia.
    + destruct Hr as [-> _]. split; [done|]. simpl. split; [|lra].
      destruct (Z.lt_ge_cases 0 a) as [Hap|Han].
      * by apply Hlow in Hap.
      * pose proof (F2R_pos (Z.pos m) e ltac:(lia)).
        assert (IZR a <= 0)%R by (apply IZR_le; lia). lra.
Qed.

Lemma rounds_to_number sx z r : rounds_to prec emax sx z r -> SFnumber r.
Proof. by destruct r. Qed.

Lemma binary_normalize_between M e szero (a b : Z) :
  - 2 ^ prec < a -> b < 2 ^ prec ->
  (IZR a <= F2R M e <= IZR b)%R ->
  SFfin (binary_normalize prec emax M e szero) /\
  (IZR a <= SF2R (binary_normalize prec emax M e szero) <= IZR b)%R.
Proof.
  intros Ha Hb Hab. destruct M as [|p|p]; simpl.
  - rewrite F2R_0 in Hab. done.
  - apply (rounds_to_between false (F2R (Z.pos p) e)); try done.
    + apply binary_round_spec.
    + apply F2R_pos. lia.
  - apply (rounds_to_between true (F2R (Z.pos p) e)); try done.
    + apply binary_round_spec.
    + apply F2R_pos. lia.
    + change (Z.neg p) with (- Z.pos p) in Hab. rewrite F2R_opp in Hab. done.
Qed.

Lemma binary_round_sign sx (mx : positive) ex :
  match binary_round prec emax sx mx ex with
  | S754_zero s | S754_finite s _ _ | S754_infinity s => s = sx
  | S754_nan => False
  end.
Proof.
  unfold binary_round. destruct (shl_align mx ex _) as [mz ez].
  apply binary_round_aux_sign. lia.
Qed.

Lemma binary_normalize_number M e szero :
  SFnumber (binary_normalize prec emax M e szero).
Proof.
  destruct M as [|p|p]; simpl; [done| |].
  - pose proof (binary_round_sign false p e).
    by destruct (binary_round prec emax false p e).
  - pose proof (binary_round_sign true p e).
    by destruct (binary_round prec emax true p e).
Qed.

Lemma binary_normalize_nonneg M e szero :
  0 <= M -> SFnonneg (binary_normalize prec emax M e szero).
Proof.
  intros HM. destruct M as [|p|p]; simpl; [done| |lia].
  pose proof (binary_round_sign false p e).
  destruct (binary_round prec emax false p e); try done; by subst.
Qed.

(** ** Addition and subtraction *)

Lemma aligned_value s (m : positive) e e' :
  F2R (cond_Zopp s (Z.pos (shl_align m e (Z.min e e')).1)) (Z.min e e')
  = SF2R (S754_finite s m e).
Proof.
  destruct (shl_align_spec m e (Z.min e e')) as (Hv & He & _).
  replace (Z.min e (Z.min e e')) with (Z.min e e') in He by lia.
  rewrite He in Hv. simpl. destruct s; simpl.
  - change (Z.neg (shl_align m e (Z.min e e')).1)
      with (- Z.pos (shl_align m e (Z.min e e')).1).
    change (Z.neg m) with (- Z.pos m). rewrite !F2R_opp. by rewrite Hv.
  - done.
Qed.

Lemma SFadd_between x y (a b : Z) :
  SFfin x -> SFfin y -> - 2 ^ prec < a -> b < 2 ^ prec ->
  (IZR a <= SF2R x + SF2R y <= IZR b)%R ->
  SFfin (SFadd prec emax x y) /\
  (IZR a <= SF2R (SFadd prec emax x y) <= IZR b)%R.
Proof.
  intros Hx Hy Ha Hb Hab.
  destruct x as [sx|sx| |sx mx ex], y as [sy|sy| |sy my ey]; try done.
  - simpl in *. destruct sx, sy; simpl; split; try done; lra.
  - simpl in *. split; [done|]. lra.
  - simpl in *. split; [done|]. lra.
  - unfold SFadd. apply binary_normalize_between; try done.
    rewrite F2R_add, (aligned_value sx mx ex ey).
    rewrite (Z.min_comm ex ey), (aligned_value sy my ey ex). done.
Qed.

Lemma SFsub_between x y (a b : Z) :
  SFfin x -> SFfin y -> - 2 ^ prec < a -> b < 2 ^ prec ->
  (IZR a <= SF2R x - SF2R y <= IZR b)%R ->
  SFfin (SFsub prec emax x y) /\
  (IZR a <= SF2R (SFsub prec emax x y) <= IZR b)%R.
Proof.
  intros Hx Hy Ha Hb Hab.
  destruct x as [sx|sx| |sx mx ex], y as [sy|sy| |sy my ey]; try done.
  - simpl in *. destruct sx, sy; simpl; split; try done; lra.
  - simpl in *. split; [done|].
    destruct sy; simpl in *;
      [change (Z.neg my) with (- Z.pos my) in Hab; rewrite F2R_opp in Hab|
       change (Z.neg my) with (- Z.pos my); rewrite F2R_opp]; lra.
  - simpl in *. split; [done|]. lra.
  - unfold SFsub. apply binary_normalize_between; try done.
    replace (cond_Zopp sx (Z.pos (shl_align mx ex (Z.min ex ey)).1)
             - cond_Zopp sy (Z.pos (shl_align my ey (Z.min ex ey)).1))
      with (cond_Zopp sx (Z.pos (shl_align mx ex (Z.min ex ey)).1)
            + - cond_Zopp sy (Z.pos (shl_align my ey (Z.min ex ey)).1)) by lia.
    rewrite F2R_add, F2R_opp, (aligned_value sx mx ex ey).
    rewrite (Z.min_comm ex ey), (aligned_value sy my ey ex). done.
Qed.

(** ** Multiplication *)

Lemma Zdigits2_mul_ge a b :
  0 < a -> 0 < b -> Zdigits2 a + Zdigits2 b - 1 <= Zdigits2 (a * b).
Proof.
  intros Ha Hb.
  destruct (Zdigits2_bounds a Ha) as [La _], (Zdigits2_bounds b Hb) as [Lb _].
  pose proof (Zdigits2_pos a Ha). pose proof (Zdigits2_pos b Hb).
  assert (Hp : 2 ^ (Zdigits2 a - 1 + (Zdigits2 b - 1)) <= a * b).
  { rewrite Z.pow_add_r by lia.
    assert (0 < 2 ^ (Zdigits2 a - 1)) by (apply Z.pow_pos_nonneg; lia).
    assert (0 < 2 ^ (Zdigits2 b - 1)) by (apply Z.pow_pos_nonneg; lia).
    nia. }
  pose proof (Zdigits2_ge (a * b) (Zdigits2 a - 1 + (Zdigits2 b - 1))
                ltac:(lia) Hp). lia.
Qed.

Lemma canonical_digits m e :
  canonical prec emax m e ->
  Zdigits2 m <= prec /\ SpecFloat.emin prec emax <= e /\
  (SpecFloat.emin prec emax < e -> Zdigits2 m = prec).
Proof. unfold canonical, fexp. lia. Qed.

Lemma valid_finite s m e :
  SpecFloat.valid_binary prec emax (S754_finite s m e) = true ->
  canonical prec emax (Z.pos m) e /\ e <= emax - prec.
Proof.
  simpl. unfold bounded. intros [Hc He]%andb_true_iff.
  split; [by apply canonical_mantissa_iff | lia].
Qed.

Lemma SF2R_cond_Zopp s (m : positive) e :
  SF2R (S754_finite s m e)
  = (if s then - F2R (Z.pos m) e else F2R (Z.pos m) e)%R.
Proof.
  simpl. destruct s; simpl; [|done].
  change (Z.neg m) with (- Z.pos m). apply F2R_opp.
Qed.

Lemma SFmul_rounds sx mx ex sy my ey :
  canonical prec emax (Z.pos mx) ex -> canonical prec emax (Z.pos my) ey ->
  rounds_to prec emax (xorb sx sy)
    (F2R (Z.pos mx) ex * F2R (Z.pos my) ey)
    (SFmul prec emax (S754_finite sx mx ex) (S754_finite sy my ey)).
Proof.
  intros Hcx Hcy. simpl.
  destruct (canonical_digits _ _ Hcx) as (Dx & Ex & Nx).
  destruct (canonical_digits _ _ Hcy) as (Dy & Ey & Ny).
  pose proof (Zdigits2_mul_ge (Z.pos mx) (Z.pos my) ltac:(lia) ltac:(lia)) as Hd.
  pose proof (Zdigits2_pos (Z.pos mx) ltac:(lia)).
  pose proof (Zdigits2_pos (Z.pos my) ltac:(lia)).
  apply binary_round_aux_spec; [lia | |].
  - rewrite Pos2Z.inj_mul. unfold inb. rewrite <- F2R_mul.
    split; [|done]. split; [lra | apply F2R_lt; lia].
  - rewrite Pos2Z.inj_mul. unfold fexp.
    destruct (Z.eq_dec ex (SpecFloat.emin prec emax)) as [Hx|Hx],
             (Z.eq_dec ey (SpecFloat.emin prec emax)) as [Hy|Hy].
    + unfold SpecFloat.emin in *. lia.
    + specialize (Ny ltac:(lia)). lia.
    + specialize (Nx ltac:(lia)). lia.
    + specialize (Nx ltac:(lia)). specialize (Ny ltac:(lia)). lia.
Qed.

Lemma SFmul_between x y (a b : Z) :
  SFfin x -> SFfin y ->
  SpecFloat.valid_binary prec emax x = true -> SpecFloat.valid_binary prec emax y = true ->
  - 2 ^ prec < a -> b < 2 ^ prec ->
  (IZR a <= SF2R x * SF2R y <= IZR b)%R ->
  SFfin (SFmul prec emax x y) /\
  (IZR a <= SF2R (SFmul prec emax x y) <= IZR b)%R.
Proof.
  intros Hx Hy Vx Vy Ha Hb Hab.
  destruct x as [sx|sx| |sx mx ex], y as [sy|sy| |sy my ey]; try done;
    try (simpl in *; split; [done | lra]).
  destruct (valid_finite _ _ _ Vx) as [Cx _].
  destruct (valid_finite _ _ _ Vy) as [Cy _].
  apply (rounds_to_between (xorb sx sy)
           (F2R (Z.pos mx) ex * F2R (Z.pos my) ey)); try done.
  - by apply SFmul_rounds.
  - pose proof (F2R_pos (Z.pos mx) ex ltac:(lia)).
    pose proof (F2R_pos (Z.pos my) ey ltac:(lia)). nra.
  - rewrite !SF2R_cond_Zopp in Hab. destruct sx, sy; simpl; lra.
Qed.

(** ** Division *)

Lemma new_location_exact n k : exact_loc (new_location n k) = (k =? 0).
Proof.
  unfold new_location, new_location_even, new_location_odd.
  by destruct (Z.even n), (k =? 0).
Qed.

Lemma SFdiv_core_spec (m1 m2 : positive) e1 e2 :
  let r := SFdiv_core_binary prec emax (Z.pos m1) e1 (Z.pos m2) e2 in
  0 <= r.1.1 /\
  inb (F2R (Z.pos m1) e1 / F2R (Z.pos m2) e2) r.1.1 r.1.2 (exact_loc r.2) /\
  r.1.2 <= fexp prec emax (Zdigits2 r.1.1 + r.1.2).
Proof.
  unfold SFdiv_core_binary.
  set (d1 := Zdigits2 (Z.pos m1)). set (d2 := Zdigits2 (Z.pos m2)).
  set (e' := Z.min (fexp prec emax (d1 + e1 - (d2 + e2))) (e1 - e2)).
  set (s := e1 - e2 - e').
  assert (Hs : 0 <= s) by (unfold s, e'; lia).
  set (m' := match s with
             | 0 => Z.pos m1
             | Z.pos _ => Z.shiftl (Z.pos m1) s
             | Z.neg _ => 0
             end).
  assert (Hm' : m' = Z.pos m1 * 2 ^ s).
  { unfold m'. destruct s as [|p|p] eqn:Es; [simpl; lia| |lia].
    apply Z.shiftl_mul_pow2. lia. }
  pose proof (Z_div_mod m' (Z.pos m2) ltac:(lia)) as Hdiv.
  destruct (Z.div_eucl m' (Z.pos m2)) as [q r]. destruct Hdiv as [Hq Hr].
  cbn [fst snd].
  assert (Hps : 0 < 2 ^ s) by (apply Z.pow_pos_nonneg; lia).
  assert (Hq0 : 0 <= q) by nia.
  split; [done|].
  set (z := (F2R (Z.pos m1) e1 / F2R (Z.pos m2) e2)%R).
  assert (Hz : (z * IZR (Z.pos m2) = IZR m' * pow2 e')%R).
  { unfold z, F2R. replace e1 with (e' + e2 + s) by (unfold s; lia).
    rewrite Hm', mult_IZR, <- pow2_IZR, !pow2_add by lia.
    pose proof (pow2_pos e2). assert (0 < IZR (Z.pos m2))%R by (apply IZR_lt; lia).
    field. split; lra. }
  assert (H2 : (0 < IZR (Z.pos m2))%R) by (apply IZR_lt; lia).
  pose proof (pow2_pos e') as Hpe.
  assert (Hm'R : IZR m' = (IZR (Z.pos m2) * IZR q + IZR r)%R)
    by (rewrite Hq, plus_IZR, mult_IZR; done).
  assert (Hr0 : (0 <= IZR r)%R) by (apply IZR_le; lia).
  assert (Hr1 : (IZR r < IZR (Z.pos m2))%R) by (apply IZR_lt; lia).
  split; [split; [split|]|].
  - unfold F2R. apply (Rmult_le_reg_r (IZR (Z.pos m2))); [done|].
    rewrite Hz, Hm'R. nra.
  - unfold F2R. rewrite plus_IZR.
    apply (Rmult_lt_reg_r (IZR (Z.pos m2))); [done|].
    rewrite Hz, Hm'R. nra.
  - rewrite new_location_exact, Z.eqb_eq. unfold F2R. split.
    + intros ->. apply (Rmult_eq_reg_r (IZR (Z.pos m2))); [|lra].
      rewrite Hz, Hm'R. lra.
    + intros Hzq. rewrite Hzq, Hm'R in Hz.
      assert (IZR r * pow2 e' = 0)%R by lra.
      assert (IZR r = 0)%R by nra. by apply eq_IZR.
  - (* the quotient has enough digits *)
    assert (Hdq : d1 + s - d2 <= Zdigits2 q).
    { destruct (Z.le_gt_cases (d1 + s - d2) 0) as [|Hk].
      - pose proof (Zdigits2_nonneg q). lia.
      - destruct (Zdigits2_bounds (Z.pos m1) ltac:(lia)) as [L1 _].
        destruct (Zdigits2_bounds (Z.pos m2) ltac:(lia)) as [_ U2].
        fold d1 in L1. fold d2 in U2.
        pose proof (Zdigits2_pos (Z.pos m2) ltac:(lia)) as P2. fold d2 in P2.
        pose proof (Zdigits2_pos (Z.pos m1) ltac:(lia)) as P1. fold d1 in P1.
        assert (Hk2 : 2 ^ (d1 + s - d2 - 1) <= q).
        { assert (Hlt : 2 ^ (d1 + s - d2 - 1) * 2 ^ d2 < (q + 1) * 2 ^ d2).
          { rewrite <- Z.pow_add_r by lia.
            replace (d1 + s - d2 - 1 + d2) with (d1 - 1 + s) by lia.
            rewrite Z.pow_add_r by lia.
            assert (A1 : 2 ^ (d1 - 1) * 2 ^ s <= m') by (rewrite Hm'; nia).
            assert (A2 : m' < (q + 1) * Z.pos m2) by lia.
            assert (A3 : (q + 1) * Z.pos m2 <= (q + 1) * 2 ^ d2) by nia.
            lia. }
          assert (0 < 2 ^ d2) by (apply Z.pow_pos_nonneg; lia).
          nia. }
        pose proof (Zdigits2_ge q (d1 + s - d2 - 1) ltac:(lia) Hk2). lia. }
    pose proof (fexp_mono (d1 + e1 - (d2 + e2)) (Zdigits2 q + e')
                  ltac:(unfold s in Hdq; lia)).
    unfold e' at 1. lia.
Qed.

Lemma SFdiv_rounds sx mx ex sy my ey :
  rounds_to prec emax (xorb sx sy)
    (F2R (Z.pos mx) ex / F2R (Z.pos my) ey)
    (SFdiv prec emax (S754_finite sx mx ex) (S754_finite sy my ey)).
Proof.
  simpl. destruct (SFdiv_core_spec mx my ex ey) as (Hq & Hin & Hcan).
  destruct (SFdiv_core_binary prec emax (Z.pos mx) ex (Z.pos my) ey)
    as [[q e'] l]. cbn [fst snd] in *.
  by apply binary_round_aux_spec.
Qed.

Lemma SFdiv_between x sy my ey (a b : Z) :
  SFfin x -> - 2 ^ prec < a -> b < 2 ^ prec ->
  (IZR a <= SF2R x / SF2R (S754_finite sy my ey) <= IZR b)%R ->
  SFfin (SFdiv prec emax x (S754_finite sy my ey)) /\
  (IZR a <= SF2R (SFdiv prec emax x (S754_finite sy my ey)) <= IZR b)%R.
Proof.
  intros Hx Ha Hb Hab.
  destruct x as [sx|sx| |sx mx ex]; try done.
  - simpl in *. split; [done|]. unfold Rdiv in Hab. lra.
  - pose proof (F2R_pos (Z.pos mx) ex ltac:(lia)) as Px.
    pose proof (F2R_pos (Z.pos my) ey ltac:(lia)) as Py.
    apply (rounds_to_between (xorb sx sy)
             (F2R (Z.pos mx) ex / F2R (Z.pos my) ey)); try done.
    + apply SFdiv_rounds.
    + by apply Rdiv_lt_0_compat.
    + rewrite !SF2R_cond_Zopp in Hab.
      destruct sx, sy; simpl; unfold Rdiv in *;
        rewrite ?Rinv_opp in Hab; lra.
Qed.

(** ** Comparison *)

Lemma canonical_lt m1 e1 m2 e2 :
  canonical prec emax m1 e1 -> canonical prec emax m2 e2 -> e1 < e2 ->
  (F2R m1 e1 < F2R m2 e2)%R.
Proof.
  intros C1 C2 Hlt.
  destruct (canonical_digits _ _ C1) as (D1 & E1 & _).
  destruct (canonical_digits _ _ C2) as (D2 & E2 & N2).
  specialize (N2 ltac:(lia)).
  destruct C1 as [P1 _], C2 as [P2 _].
  destruct (F2R_digits m1 e1 P1) as [_ U1].
  destruct (F2R_digits m2 e2 P2) as [L2 _].
  pose proof (pow2_le (Zdigits2 m1 + e1) (Zdigits2 m2 - 1 + e2) ltac:(lia)).
  lra.
Qed.

Lemma compare_positive (m1 m2 : positive) e1 e2 :
  canonical prec emax (Z.pos m1) e1 -> canonical prec emax (Z.pos m2) e2 ->
  match (match e1 ?= e2 with
         | Lt => Lt
         | Gt => Gt
         | Eq => Pos.compare_cont Eq m1 m2
         end) with
  | Lt => (F2R (Z.pos m1) e1 < F2R (Z.pos m2) e2)%R
  | Eq => F2R (Z.pos m1) e1 = F2R (Z.pos m2) e2
  | Gt => (F2R (Z.pos m2) e2 < F2R (Z.pos m1) e1)%R
  end.
Proof.
  intros C1 C2. destruct (Z.compare_spec e1 e2) as [->|Hlt|Hgt].
  - change (Pos.compare_cont Eq m1 m2) with (m1 ?= m2)%positive.
    destruct (Pos.compare_spec m1 m2) as [->|Hm|Hm].
    + done.
    + apply F2R_lt. lia.
    + apply F2R_lt. lia.
  - by apply canonical_lt.
  - by apply canonical_lt.
Qed.

Lemma SFcompare_spec x y :
  SFfin x -> SFfin y ->
  SpecFloat.valid_binary prec emax x = true ->
  SpecFloat.valid_binary prec emax y = true ->
  exists c, SFcompare x y = Some c /\ compares x y c.
Proof.
  intros Hx Hy Vx Vy.
  destruct x as [sx|sx| |sx mx ex], y as [sy|sy| |sy my ey]; try done.
  - exists Eq. done.
  - pose proof (F2R_pos (Z.pos my) ey ltac:(lia)).
    exists (if sy then Gt else Lt). split; [done|].
    unfold compares. rewrite SF2R_cond_Zopp. destruct sy; simpl; lra.
  - pose proof (F2R_pos (Z.pos mx) ex ltac:(lia)).
    exists (if sx then Lt else Gt). split; [done|].
    unfold compares. rewrite SF2R_cond_Zopp. destruct sx; simpl; lra.
  - destruct (valid_finite _ _ _ Vx) as [Cx _].
    destruct (valid_finite _ _ _ Vy) as [Cy _].
    pose proof (F2R_pos (Z.pos mx) ex ltac:(lia)).
    pose proof (F2R_pos (Z.pos my) ey ltac:(lia)).
    pose proof (compare_positive mx my ex ey Cx Cy) as Hc.
    eexists. split; [reflexivity|].
    unfold compares. rewrite !SF2R_cond_Zopp.
    destruct sx, sy; simpl; try lra.
    + destruct (ex ?= ey); try (simpl; lra).
      destruct (Pos.compare_cont Eq mx my); simpl; lra.
    + destruct (ex ?= ey); try (simpl; lra).
      destruct (Pos.compare_cont Eq mx my); simpl; lra.
Qed.
(** ** Kinds of results *)

Lemma SFadd_nonneg x y :
  SFnonneg x -> SFnonneg y -> SFnonneg (SFadd prec emax x y).
Proof.
  destruct x as [sx|[]| |[] mx ex], y as [sy|[]| |[] my ey]; try done.
  - by destruct sx, sy.
  - intros _ _. unfold SFadd. apply binary_normalize_nonneg. simpl. lia.
Qed.

Lemma SFadd_number x y :
  SFnumber x -> SFfin y -> SFnumber (SFadd prec emax x y).
Proof.
  destruct x as [sx|sx| |sx mx ex], y as [sy|sy| |sy my ey]; try done.
  - by destruct sx, sy.
  - intros _ _. unfold SFadd. apply binary_normalize_number.
Qed.

Lemma SFsub_number x y :
  SFfin x -> SFnumber y -> SFnumber (SFsub prec emax x y).
Proof.
  destruct x as [sx|sx| |sx mx ex], y as [sy|sy| |sy my ey]; try done.
  - by destruct sx, sy.
  - intros _ _. unfold SFsub. apply binary_normalize_number.
Qed.

Lemma SFmul_self_nonneg x : SFnumber x -> SFnonneg (SFmul prec emax x x).
Proof.
  destruct x as [s|s| |s m e]; try done; simpl; intros _.
  - by destruct s.
  - pose proof (binary_round_aux_sign (xorb s s) (Z.pos (m * m)) (e + e)
                  loc_Exact ltac:(lia)) as Hs.
    destruct (binary_round_aux prec emax _ _ _ _); try done;
      subst; by destruct s.
Qed.

Lemma SFdiv_kind x (my : positive) ey :
  SFnumber x ->
  SFnumber (SFdiv prec emax x (S754_finite false my ey)) /\
  (SFnonneg x -> SFnonneg (SFdiv prec emax x (S754_finite false my ey))).
Proof.
  destruct x as [[]|[]| |sx mx ex]; try done; try (simpl; split; done).
  intros _. simpl. destruct (SFdiv_core_spec mx my ex ey) as (Hq & _ & _).
  destruct (SFdiv_core_binary prec emax (Z.pos mx) ex (Z.pos my) ey)
    as [[q e'] l]. cbn [fst snd] in Hq.
  pose proof (binary_round_aux_sign (xorb sx false) q e' l Hq) as Hs.
  destruct (binary_round_aux prec emax _ _ _ _); try done;
    subst; destruct sx; simpl; split; done.
Qed.

Lemma SFsqrt_nonneg x : SFnonneg x -> SFnonneg (SFsqrt prec emax x).
Proof.
  destruct x as [s|[]| |[] m e]; try done. intros _. simpl.
  unfold SFsqrt_core_binary.
  set (e' := Z.min _ _). set (sh := e - 2 * e').
  set (m' := match sh with
             | 0 => Z.pos m
             | Z.pos _ => Z.shiftl (Z.pos m) sh
             | Z.neg _ => 0
             end).
  assert (Hm' : 0 <= m').
  { unfold m'. destruct sh as [|p|p] eqn:E; try lia.
    apply Z.shiftl_nonneg. lia. }
  pose proof (Z.sqrtrem_spec m' Hm') as Hsq.
  destruct (Z.sqrtrem m') as [q r]. destruct Hsq as [_ Hr].
  pose proof (binary_round_aux_sign false q e'
                (if r =? 0 then loc_Exact
                 else loc_Inexact (if r <=? q then Lt else Gt))
                ltac:(lia)) as Hs.
  destruct (binary_round_aux prec emax _ _ _ _); try done; by subst.
Qed.
End Format.

(** * The doubles of the program *)

Lemma prec_pos : 0 < FloatOps.prec.
Proof. reflexivity. Qed.

Lemma prec_lt_emax : FloatOps.prec < FloatOps.emax.
Proof. reflexivity. Qed.

Lemma finite_number x : finite x -> number x.
Proof. unfold finite, number. by destruct (Prim2SF x). Qed.

Lemma nonneg_number x : nonneg x -> number x.
Proof. unfold nonneg, number. by destruct (Prim2SF x). Qed.

Lemma finite_nonneg x : finite x -> (0 <= B2R x)%R -> nonneg x.
Proof.
  unfold finite, nonneg, B2R. destruct (Prim2SF x) as [s|s| |s m e]; try done.
  intros _. rewrite SF2R_cond_Zopp. destruct s; [|done].
  pose proof (F2R_pos (Z.pos m) e ltac:(lia)). lra.
Qed.

Lemma add_between x y (a b : Z) :
  finite x -> finite y -> - 2 ^ 53 < a -> b < 2 ^ 53 ->
  (IZR a <= B2R x + B2R y <= IZR b)%R ->
  finite (x + y) /\ (IZR a <= B2R (x + y) <= IZR b)%R.
Proof.
  unfold finite, B2R. rewrite FloatAxioms.add_spec.
  apply (SFadd_between _ _ prec_pos prec_lt_emax).
Qed.

Lemma sub_between x y (a b : Z) :
  finite x -> finite y -> - 2 ^ 53 < a -> b < 2 ^ 53 ->
  (IZR a <= B2R x - B2R y <= IZR b)%R ->
  finite (x - y) /\ (IZR a <= B2R (x - y) <= IZR b)%R.
Proof.
  unfold finite, B2R. rewrite FloatAxioms.sub_spec.
  apply (SFsub_between _ _ prec_pos prec_lt_emax).
Qed.

Lemma mul_between x y (a b : Z) :
  finite x -> finite y -> - 2 ^ 53 < a -> b < 2 ^ 53 ->
  (IZR a <= B2R x * B2R y <= IZR b)%R ->
  finite (x * y) /\ (IZR a <= B2R (x * y) <= IZR b)%R.
Proof.
  unfold finite, B2R. rewrite FloatAxioms.mul_spec. intros Hx Hy.
  apply (SFmul_between _ _ prec_pos prec_lt_emax); try done;
    apply Prim2SF_valid.
Qed.

Lemma div_between x y (a b : Z) :
  finite x -> finite y -> B2R y <> 0%R -> - 2 ^ 53 < a -> b < 2 ^ 53 ->
  (IZR a <= B2R x / B2R y <= IZR b)%R ->
  finite (x / y) /\ (IZR a <= B2R (x / y) <= IZR b)%R.
Proof.
  unfold finite, B2R. rewrite FloatAxioms.div_spec. intros Hx Hy Hy0.
  destruct (Prim2SF y) as [sy|sy| |sy my ey]; try done.
  apply (SFdiv_between _ _ prec_pos prec_lt_emax); done.
Qed.

Lemma opp_value x : B2R (- x) = (- B2R x)%R.
Proof.
  unfold B2R. rewrite FloatAxioms.opp_spec.
  destruct (Prim2SF x) as [s|s| |s m e]; simpl; try lra.
  rewrite <- F2R_opp. f_equal. destruct s; simpl; lia.
Qed.

Lemma opp_finite x : finite x -> finite (- x).
Proof. unfold finite. rewrite FloatAxioms.opp_spec. by destruct (Prim2SF x). Qed.

Lemma abs_value x : B2R (abs x) = Rabs (B2R x).
Proof.
  unfold B2R. rewrite FloatAxioms.abs_spec.
  destruct (Prim2SF x) as [s|s| |s m e]; simpl; rewrite ?Rabs_R0; try done.
  pose proof (F2R_pos (Z.pos m) e ltac:(lia)).
  destruct s; simpl.
  - change (Z.neg m) with (- Z.pos m). rewrite F2R_opp, Rabs_Ropp.
    by rewrite Rabs_pos_eq by lra.
  - by rewrite Rabs_pos_eq by lra.
Qed.

Lemma abs_finite x : finite x -> finite (abs x).
Proof. unfold finite. rewrite FloatAxioms.abs_spec. by destruct (Prim2SF x). Qed.

(** ** Integers *)

Lemma of_uint63_value n :
  0 < n < 2 ^ 53 ->
  finite (of_uint63 (Uint63.of_Z n)) /\
  B2R (of_uint63 (Uint63.of_Z n)) = IZR n.
Proof.
  intros Hn. unfold finite, B2R.
  rewrite FloatAxioms.of_uint63_spec, Uint63.of_Z_spec.
  rewrite Z.mod_small by (change wB with (2 ^ 63); lia).
  destruct (binary_normalize_between _ _ prec_pos prec_lt_emax n 0 false n n)
    as [Hf Hv]; try (change FloatOps.prec with 53; lia).
  - unfold F2R. rewrite pow2_0. lra.
  - split; [done | lra].
Qed.

Lemma ofZ64_value n :
  - 2 ^ 53 < n < 2 ^ 53 -> finite (ofZ64 n) /\ B2R (ofZ64 n) = IZR n.
Proof.
  intros Hn. destruct n as [|p|p]; unfold ofZ64.
  - split; [done|]. unfold B2R. simpl. done.
  - apply of_uint63_value. lia.
  - destruct (of_uint63_value (Z.pos p) ltac:(lia)) as [Hf Hv].
    split; [by apply opp_finite|].
    rewrite opp_value. change (Z.neg p) with (- Z.pos p).
    rewrite opp_IZR. by rewrite Hv.
Qed.

(** ** Kinds of results *)

Lemma add_nonneg x y : nonneg x -> nonneg y -> nonneg (x + y).
Proof.
  unfold nonneg. rewrite FloatAxioms.add_spec. apply SFadd_nonneg.
Qed.

Lemma add_number x y : number x -> finite y -> number (x + y).
Proof.
  unfold number, finite. rewrite FloatAxioms.add_spec. apply SFadd_number.
Qed.

Lemma sub_number x y : finite x -> number y -> number (x - y).
Proof.
  unfold number, finite. rewrite FloatAxioms.sub_spec. apply SFsub_number.
Qed.

Lemma mul_self_nonneg x : number x -> nonneg (x * x).
Proof.
  unfold number, nonneg. rewrite FloatAxioms.mul_spec. apply SFmul_self_nonneg.
Qed.

Lemma positive_finite y :
  finite y -> (0 < B2R y)%R -> exists m e, Prim2SF y = S754_finite false m e.
Proof.
  unfold finite, B2R. destruct (Prim2SF y) as [s|s| |s m e]; try done.
  - simpl. lra.
  - intros _. rewrite SF2R_cond_Zopp. destruct s; [|by eexists _, _].
    pose proof (F2R_pos (Z.pos m) e ltac:(lia)). lra.
Qed.

Lemma div_number x y :
  number x -> finite y -> (0 < B2R y)%R -> number (x / y).
Proof.
  intros Hx Hy Hpos. destruct (positive_finite y Hy Hpos) as (m & e & E).
  unfold number in *. rewrite FloatAxioms.div_spec, E.
  by apply SFdiv_kind.
Qed.

Lemma div_nonneg x y :
  nonneg x -> finite y -> (0 < B2R y)%R -> nonneg (x / y).
Proof.
  intros Hx Hy Hpos. destruct (positive_finite y Hy Hpos) as (m & e & E).
  unfold nonneg in *. rewrite FloatAxioms.div_spec, E.
  apply SFdiv_kind; [|done].
  by destruct (Prim2SF x) as [|[]| |[]].
Qed.

Lemma sqrt_nonneg x : nonneg x -> nonneg (PrimFloat.sqrt x).
Proof. unfold nonneg. rewrite FloatAxioms.sqrt_spec. apply SFsqrt_nonneg. Qed.

(** ** Comparisons *)

Lemma leb_nonneg x : nonneg x -> (0 <=? x)%float = true.
Proof.
  unfold nonneg. rewrite FloatAxioms.leb_spec.
  change (Prim2SF 0) with (S754_zero false).
  by destruct (Prim2SF x) as [s|[]| |[] m e].
Qed.

Lemma compare_value x y :
  finite x -> finite y ->
  exists c, SFcompare (Prim2SF x) (Prim2SF y) = Some c /\
            compares (Prim2SF x) (Prim2SF y) c.
Proof.
  intros Hx Hy.
  apply (SFcompare_spec FloatOps.prec FloatOps.emax); try done;
    apply Prim2SF_valid.
Qed.

Lemma leb_of_value x y :
  finite x -> finite y -> (B2R x <= B2R y)%R -> (x <=? y)%float = true.
Proof.
  intros Hx Hy Hle. rewrite FloatAxioms.leb_spec. unfold SFleb.
  destruct (compare_value x y Hx Hy) as (c & -> & Hc).
  destruct c; try done. unfold compares, B2R in *. lra.
Qed.

Lemma one_value : finite 1 /\ B2R 1 = 1%R.
Proof. apply (ofZ64_value 1). lia. Qed.

Lemma SFcompare_refl x : SFnumber x -> SFcompare x x = Some Eq.
Proof.
  destruct x as [s|[]| |[] m e]; try done; simpl;
    rewrite Z.compare_refl, Pos.compare_cont_refl; done.
Qed.

Lemma is_nan_number x : number x -> is_nan x = false.
Proof.
  unfold number, is_nan. rewrite FloatAxioms.eqb_spec. unfold SFeqb.
  intros Hx. by rewrite SFcompare_refl.
Qed.

(** [Math.min(1, q)] of a number that is not negative is in [0, 1]. *)
Lemma Math_min64_unit q :
  nonneg q ->
  finite (Math_min64 1 q) /\ (0 <= B2R (Math_min64 1 q) <= 1)%R.
Proof.
  intros Hq. destruct one_value as [F1 V1].
  unfold Math_min64.
  rewrite (is_nan_number 1 (finite_number 1 F1)).
  rewrite (is_nan_number q (nonneg_number q Hq)). cbn [orb].
  change (get_sign 1) with false.
  rewrite !FloatAxioms.ltb_spec. unfold SFltb.
  unfold nonneg in Hq.
  destruct (Prim2SF q) as [s|[]| |[] m e] eqn:E; try done.
  - (* a zero *)
    change (Prim2SF 1) with (S754_finite false 4503599627370496 (-52)).
    cbn. unfold finite, B2R. rewrite E. simpl. split; [done | lra].
  - (* plus infinity *)
    change (Prim2SF 1) with (S754_finite false 4503599627370496 (-52)).
    cbn. split; [done | lra].
  - assert (Fq : finite q) by (unfold finite; by rewrite E).
    assert (Pq : (0 < B2R q)%R).
    { unfold B2R. rewrite E. apply (F2R_pos (Z.pos m) e). lia. }
    rewrite <- E.
    destruct (compare_value 1 q F1 Fq) as (c & -> & Hc).
    destruct (compare_value q 1 Fq F1) as (c' & -> & Hc').
    unfold compares in Hc, Hc'. fold (B2R q) in Hc, Hc'. fold (B2R 1) in Hc, Hc'.
    destruct c; [| split; [done | lra] |];
      destruct c'; split; try done; lra.
Qed.

Lemma lit64_unit q :
  0 <= Qnum q <= Z.pos (Qden q) -> Z.pos (Qden q) < 2 ^ 53 ->
  finite (lit64 q) /\ (0 <= B2R (lit64 q) <= 1)%R.
Proof.
  intros Hn Hd. unfold lit64.
  destruct (ofZ64_value (Qnum q) ltac:(lia)) as [Fn Vn].
  destruct (ofZ64_value (Z.pos (Qden q)) ltac:(lia)) as [Fd Vd].
  assert (Hdp : (0 < IZR (Z.pos (Qden q)))%R) by (apply IZR_lt; lia).
  assert (Hn0 : (0 <= IZR (Qnum q))%R) by (apply IZR_le; lia).
  assert (Hn1 : (IZR (Qnum q) <= IZR (Z.pos (Qden q)))%R) by (apply IZR_le; lia).
  apply (div_between _ _ 0 1); try done; try lia; rewrite ?Vn, ?Vd; [lra|].
  assert (Hinv : (0 < / IZR (Z.pos (Qden q)))%R) by (by apply Rinv_0_lt_compat).
  split.
  - unfold Rdiv. nra.
  - apply (Rmult_le_reg_r (IZR (Z.pos (Qden q)))); [done|].
    unfold Rdiv. rewrite Rmult_assoc, Rinv_l by lra. lra.
Qed.

Lemma Math_hypot64_nonneg x y :
  number x -> number y -> nonneg (Math_hypot64 x y).
Proof.
  intros Hx Hy. unfold Math_hypot64.
  destruct (is_infinity x || is_infinity y); [done|].
  apply sqrt_nonneg, add_nonneg; by apply mul_self_nonneg.
Qed.

(** ** [Math.fround] *)

Lemma prec24_pos : 0 < 24.
Proof. reflexivity. Qed.

Lemma SFldexp_finite s m e k :
  SFldexp FloatOps.prec FloatOps.emax (S754_finite s m e) k
  = binary_round FloatOps.prec FloatOps.emax s m (e + k).
Proof. reflexivity. Qed.

Lemma SF2Prim_between s (m : positive) e (a b : Z) :
  Z.pos m < 2 ^ 53 -> - 2 ^ 53 < a -> b < 2 ^ 53 ->
  (IZR a <= SF2R (S754_finite s m e) <= IZR b)%R ->
  finite (SF2Prim (S754_finite s m e)) /\
  (IZR a <= B2R (SF2Prim (S754_finite s m e)) <= IZR b)%R.
Proof.
  intros Hm Ha Hb Hab. cbn [SF2Prim].
  destruct (of_uint63_value (Z.pos m) ltac:(lia)) as [Fp Vp].
  destruct (positive_finite _ Fp) as (mp & ep & E).
  { rewrite Vp. apply IZR_lt. lia. }
  set (f := Z.ldexp (of_uint63 (Uint63.of_Z (Z.pos m))) e).
  assert (Hf : rounds_to FloatOps.prec FloatOps.emax false
                 (F2R (Z.pos m) e) (Prim2SF f)).
  { unfold f. rewrite Z_ldexp_spec, E, SFldexp_finite.
    replace (F2R (Z.pos m) e) with (F2R (Z.pos mp) (ep + e)).
    - apply binary_round_spec. apply prec_pos.
    - unfold B2R in Vp. rewrite E in Vp. simpl in Vp.
      unfold F2R in *. rewrite pow2_add. rewrite <- Rmult_assoc, Vp. done. }
  pose proof (F2R_pos (Z.pos m) e ltac:(lia)) as Hz.
  rewrite SF2R_cond_Zopp in Hab.
  destruct s.
  - destruct (rounds_to_between _ _ prec_pos prec_lt_emax false _ _ (- b) (- a)
                Hf Hz) as [Ff Vf]; try (change FloatOps.prec with 53; lia).
    { rewrite !opp_IZR. lra. }
    split; [by apply opp_finite|]. rewrite opp_value.
    fold (B2R f) in Vf. rewrite !opp_IZR in Vf. lra.
  - by apply (rounds_to_between _ _ prec_pos prec_lt_emax false _ _ a b Hf Hz);
      try (change FloatOps.prec with 53; lia).
Qed.

Lemma fround64_between x (a b : Z) :
  finite x -> - 2 ^ 24 < a -> b < 2 ^ 24 ->
  (IZR a <= B2R x <= IZR b)%R ->
  finite (fround64 x) /\ (IZR a <= B2R (fround64 x) <= IZR b)%R.
Proof.
  intros Hx Ha Hb Hab. unfold finite in Hx. unfold B2R in Hab.
  unfold fround64.
  destruct (Prim2SF x) as [s|s| |s m e] eqn:E; try done.
  - unfold finite, B2R. rewrite E. split; [exact I | exact Hab].
  - pose proof (binary_round_spec 24 128 prec24_pos s m e) as Hr.
    pose proof (F2R_pos (Z.pos m) e ltac:(lia)) as Hz.
    destruct (rounds_to_between 24 128 prec24_pos ltac:(lia) s _ _ a b Hr Hz
                Ha Hb) as [Ff Vf].
    { rewrite SF2R_cond_Zopp in Hab. by destruct s. }
    destruct (binary_round 24 128 s m e) as [s'|s'| |s' m' e'] eqn:Er;
      try done.
    + simpl in Vf. destruct s'; simpl; unfold finite, B2R; simpl; done.
    + destruct Hr as (_ & Hc & _).
      destruct (canonical_digits _ _ _ _ Hc) as (Hd & _).
      apply SF2Prim_between; try lia; [|done].
      destruct (Zdigits2_bounds (Z.pos m') ltac:(lia)) as [_ Hup].
      assert (2 ^ Zdigits2 (Z.pos m') <= 2 ^ 24)
        by (apply Z.pow_le_mono_r; lia).
      lia.
Qed.

(** * Bounds of the metrics record (claim C7) *)

Lemma within_finite a b x : within a b x -> finite x.
Proof. by intros [? _]. Qed.

Lemma within_nonneg a b x : 0 <= a -> within a b x -> nonneg x.
Proof.
  intros Ha [Hf [Hl _]]. apply finite_nonneg; [done|].
  apply IZR_le in Ha. lra.
Qed.

Lemma within_weaken a b a' b' x :
  a' <= a -> b <= b' -> within a b x -> within a' b' x.
Proof.
  intros Ha Hb [Hf [Hl Hu]]. split; [done|].
  apply IZR_le in Ha, Hb. lra.
Qed.

Lemma within_ofZ64 n : - 2 ^ 53 < n < 2 ^ 53 -> within n n (ofZ64 n).
Proof.
  intros Hn. destruct (ofZ64_value n Hn) as [Hf Hv].
  split; [done|]. rewrite Hv. lra.
Qed.

Lemma within_lit64 q :
  0 <= Qnum q <= Z.pos (Qden q) -> Z.pos (Qden q) < 2 ^ 53 ->
  within 0 1 (lit64 q).
Proof. intros H1 H2. exact (lit64_unit q H1 H2). Qed.

Lemma within_opp a b x : within a b x -> within (- b) (- a) (- x)%float.
Proof.
  intros [Hf [Hl Hu]]. split; [by apply opp_finite|].
  rewrite opp_value, !opp_IZR. lra.
Qed.

Lemma within_add a b a' b' x y :
  within a b x -> within a' b' y ->
  - 2 ^ 53 < a + a' -> b + b' < 2 ^ 53 ->
  within (a + a') (b + b') (x + y)%float.
Proof.
  intros [Hx [Hxl Hxu]] [Hy [Hyl Hyu]] Ha Hb.
  apply add_between; try done. rewrite !plus_IZR. lra.
Qed.

Lemma within_sub a b a' b' x y :
  within a b x -> within a' b' y ->
  - 2 ^ 53 < a - b' -> b - a' < 2 ^ 53 ->
  within (a - b') (b - a') (x - y)%float.
Proof.
  intros [Hx [Hxl Hxu]] [Hy [Hyl Hyu]] Ha Hb.
  apply sub_between; try done. rewrite !minus_IZR. lra.
Qed.

(** The product of two non-negative numbers. *)
Lemma within_mul b b' x y :
  within 0 b x -> within 0 b' y -> b * b' < 2 ^ 53 ->
  within 0 (b * b') (x * y)%float.
Proof.
  intros [Hx [Hxl Hxu]] [Hy [Hyl Hyu]] Hb.
  apply mul_between; try done; try lia. rewrite mult_IZR. split; [nra|].
  apply Rmult_le_compat; lra.
Qed.

Lemma within_abs a b x :
  within a b x -> within 0 (Z.max (- a) b) (abs x).
Proof.
  intros [Hf [Hl Hu]]. split; [by apply abs_finite|].
  rewrite abs_value. split; [apply Rabs_pos|].
  assert (IZR (- a) <= IZR (Z.max (- a) b))%R by (apply IZR_le; lia).
  assert (IZR b <= IZR (Z.max (- a) b))%R by (apply IZR_le; lia).
  rewrite opp_IZR in *. apply Rabs_le. lra.
Qed.

Lemma within_fround64 a b x :
  within a b x -> - 2 ^ 24 < a -> b < 2 ^ 24 -> within a b (fround64 x).
Proof. intros [Hf Hv] Ha Hb. by apply fround64_between. Qed.

(** A quotient by a positive integer. *)
Lemma within_div_count b x n :
  within 0 b x -> 0 < n < 2 ^ 53 -> b < 2 ^ 53 ->
  within 0 b (x / ofZ64 n)%float.
Proof.
  intros [Hx [Hxl Hxu]] Hn Hb.
  destruct (ofZ64_value n ltac:(lia)) as [Hf Hv].
  assert (1 <= IZR n)%R by (apply IZR_le; lia).
  apply div_between; try done; try lia; [rewrite Hv; lra|].
  rewrite Hv. unfold Rdiv.
  assert (0 < / IZR n <= 1)%R.
  { split; [apply Rinv_0_lt_compat; lra|].
    rewrite <- Rinv_1. apply Rinv_le_contravar; lra. }
  split; [nra|]. nra.
Qed.

Lemma within_scale n a b x :
  0 <= n -> within a b x -> 0 <= a -> n * b < 2 ^ 53 -> n < 2 ^ 53 ->
  within 0 (n * b) (ofZ64 n * x)%float.
Proof.
  intros Hn Hx Ha Hb Hn'. apply within_mul; [| |done].
  - eapply within_weaken; [| |apply within_ofZ64]; lia.
  - eapply within_weaken; [| |exact Hx]; lia.
Qed.

Lemma within_fraction q a b x :
  0 <= Qnum q <= Z.pos (Qden q) -> Z.pos (Qden q) < 2 ^ 53 ->
  within a b x -> 0 <= a -> b < 2 ^ 53 ->
  within 0 b (lit64 q * x)%float.
Proof.
  intros H1 H2 Hx Ha Hb.
  replace b with (1 * b) by lia.
  apply within_mul; [by apply within_lit64| |lia].
  eapply within_weaken; [| |exact Hx]; lia.
Qed.

Ltac arith_ops :=
  cbn [num lit NaN add sub mul div neg Math_min Math_max Math_abs Math_hypot
       fround float_arith_with].

(** Bounds of an expression from the bounds of its leaves. *)
Ltac within_expr :=
  lazymatch goal with
  | H : within _ _ ?x |- within _ _ ?x => exact H
  | |- within _ _ (ofZ64 _ * _)%float =>
      eapply within_scale; [lia | within_expr | lia | lia | lia]
  | |- within _ _ (lit64 _ * _)%float =>
      eapply within_fraction; [simpl; lia | reflexivity | within_expr | lia | lia]
  | |- within _ _ (_ + _)%float =>
      eapply within_add; [within_expr | within_expr | lia | lia]
  | |- within _ _ (_ - _)%float =>
      eapply within_sub; [within_expr | within_expr | lia | lia]
  | |- within _ _ (- _)%float => eapply within_opp; within_expr
  | |- within _ _ (abs _) => eapply within_abs; within_expr
  | |- within _ _ (ofZ64 _) => eapply within_ofZ64; lia
  end.

Ltac within_bounds :=
  eapply within_weaken; cycle 2; [within_expr | lia | lia].

Lemma Forall_store {A} (P : A -> Prop) (a : list A) i v :
  Forall P a -> P v -> Forall P (store a i v).
Proof.
  intros Ha Hv. unfold store. case_match; [done|]. by apply Forall_insert.
Qed.

(** ** The planes of [computeMetrics] in doubles

    Every byte is an integer in [0, 255], every weight of the luma is in
    [0, 1]: a cell of the grayscale plane is a finite number in [0, 765],
    and the Laplacian and Sobel sums of such cells are finite. *)

Section MetricsBounds.
Variable hyp : float -> float -> float.
Hypothesis Hhyp : hypot_contract hyp.

Lemma byte_at_within (a : list Z) i :
  Forall byte a -> 0 <= i < len a ->
  within 0 255 (@byte_at float (float_arith_with hyp) a i).
Proof.
  intros Ha Hi. unfold byte_at.
  destruct (load_lt_Some a i Hi) as [v Hv]. rewrite Hv.
  pose proof (load_byte a i v Ha Hv) as Hb. unfold byte in Hb. arith_ops.
  eapply within_weaken; [| |apply within_ofZ64]; lia.
Qed.

Lemma gray_of_within (d : ImageData) j :
  wf_image d -> 0 <= j < width d * height d ->
  within 0 765 (@gray_of float (float_arith_with hyp) d j).
Proof.
  intros [Hlen Hbytes] Hj. unfold gray_of.
  pose proof (byte_at_within (data d) (4 * j) Hbytes ltac:(lia)) as Hr.
  pose proof (byte_at_within (data d) (4 * j + 1) Hbytes ltac:(lia)) as Hg.
  pose proof (byte_at_within (data d) (4 * j + 2) Hbytes ltac:(lia)) as Hb.
  arith_ops.
  apply within_fround64; [|lia|lia]. within_bounds.
Qed.

Lemma gray_at_within (d : ImageData) x y :
  wf_image d -> 0 <= x < width d -> 0 <= y < height d ->
  within 0 765
    (gray_at (H := float_arith_with hyp) (width d)
       (grayscale (H := float_arith_with hyp) d) x y).
Proof.
  intros Hd Hx Hy. pose proof Hd as [Hlen _].
  rewrite gray_at_pixel by (done || nia).
  apply gray_of_within; [done|]. unfold idx. nia.
Qed.

(** *** The Laplacian plane and its variance *)

Lemma laplacian_kinds (d : ImageData) :
  wf_image d ->
  let st := laplacian (H := float_arith_with hyp) (width d) (height d)
              (grayscale (H := float_arith_with hyp) d) in
  Forall finite st.1.1 /\ number st.1.2.
Proof.
  intros Hd. unfold laplacian. cbv zeta.
  apply (foldl_invariant
    (fun st : list float * float * Z => Forall finite st.1.1 /\ number st.1.2)).
  { simpl. split; [apply Forall_replicate|]; done. }
  intros st y Hy%elem_of_zrange Hst.
  apply foldl_invariant; [done|].
  intros [[lap mean] count] x Hx%elem_of_zrange [Hlap Hmean]. cbn [fst snd] in *.
  pose proof (gray_at_within d (x - 1) y Hd ltac:(lia) ltac:(lia)) as Hw.
  pose proof (gray_at_within d (x + 1) y Hd ltac:(lia) ltac:(lia)) as He.
  pose proof (gray_at_within d x (y - 1) Hd ltac:(lia) ltac:(lia)) as Hn.
  pose proof (gray_at_within d x (y + 1) Hd ltac:(lia) ltac:(lia)) as Hs.
  pose proof (gray_at_within d x y Hd ltac:(lia) ltac:(lia)) as Hc.
  match goal with
  | |- context [f32_store _ _ ?e] => set (v := e)
  end.
  assert (Hv : within (- 3060) 3060 v).
  { subst v. arith_ops. within_bounds. }
  split.
  - unfold f32_store. apply Forall_store; [done|]. arith_ops.
    eapply within_finite, within_fround64; [exact Hv|lia|lia].
  - arith_ops. apply add_number; [done | exact (within_finite _ _ _ Hv)].
Qed.

Lemma sum_sq_dev_nonneg (lap : list float) (mean : float) :
  Forall finite lap -> number mean ->
  nonneg (sum_sq_dev (H := float_arith_with hyp) lap mean).
Proof.
  intros Hlap Hmean. unfold sum_sq_dev. apply foldl_invariant; [done|].
  intros s l Hl Hs. arith_ops. apply add_nonneg; [done|].
  apply mul_self_nonneg, sub_number; [|done].
  rewrite Forall_forall in Hlap. by apply Hlap.
Qed.

(** *** The Sobel sum *)

Lemma sobel_sum_nonneg (d : ImageData) :
  wf_image d ->
  nonneg (sobel_sum (H := float_arith_with hyp) (width d) (height d)
            (grayscale (H := float_arith_with hyp) d)).
Proof.
  intros Hd. unfold sobel_sum. apply foldl_invariant; [done|].
  intros st y Hy%elem_of_zrange Hst.
  apply foldl_invariant; [done|].
  intros s x Hx%elem_of_zrange Hs. cbv zeta.
  pose proof (gray_at_within d (x - 1) (y - 1) Hd ltac:(lia) ltac:(lia)) as Hnw.
  pose proof (gray_at_within d x (y - 1) Hd ltac:(lia) ltac:(lia)) as Hn.
  pose proof (gray_at_within d (x + 1) (y - 1) Hd ltac:(lia) ltac:(lia)) as Hne.
  pose proof (gray_at_within d (x - 1) y Hd ltac:(lia) ltac:(lia)) as Hw.
  pose proof (gray_at_within d (x + 1) y Hd ltac:(lia) ltac:(lia)) as He.
  pose proof (gray_at_within d (x - 1) (y + 1) Hd ltac:(lia) ltac:(lia)) as Hsw.
  pose proof (gray_at_within d x (y + 1) Hd ltac:(lia) ltac:(lia)) as Hs'.
  pose proof (gray_at_within d (x + 1) (y + 1) Hd ltac:(lia) ltac:(lia)) as Hse.
  assert (Hgx : within (- 3060) 3060
            (sobel_gx (H := float_arith_with hyp) (width d)
               (grayscale (H := float_arith_with hyp) d) x y)).
  { unfold sobel_gx. arith_ops. within_bounds. }
  assert (Hgy : within (- 3060) 3060
            (sobel_gy (H := float_arith_with hyp) (width d)
               (grayscale (H := float_arith_with hyp) d) x y)).
  { unfold sobel_gy. arith_ops. within_bounds. }
  arith_ops. apply add_nonneg; [done|].
  apply Hhyp; eapply within_finite; eassumption.
Qed.

(** *** The mirror agreement *)

Lemma mirror_term_within (a b : float) :
  within 0 765 a -> within 0 765 b ->
  within 0 1 (ofZ64 1 - Math_min64 (ofZ64 1) (abs (a - b) / ofZ64 255))%float.
Proof.
  intros Ha Hb.
  assert (Habs : within 0 765 (abs (a - b))) by within_bounds.
  assert (Hq : nonneg (abs (a - b) / ofZ64 255)%float).
  { eapply (within_nonneg 0); [lia|].
    apply within_div_count; [exact Habs | lia | lia]. }
  pose proof (Math_min64_unit _ Hq) as Hm.
  change (within 0 1 (Math_min64 (ofZ64 1) (abs (a - b) / ofZ64 255)%float))
    in Hm.
  within_bounds.
Qed.

Lemma symmetry_sum_within (d : ImageData) :
  wf_image d -> 1 <= width d -> 1 <= height d -> len (data d) < 2 ^ 53 ->
  let st := symmetry_sum (H := float_arith_with hyp) (width d) (height d)
              (grayscale (H := float_arith_with hyp) d) in
  within 0 st.2 st.1 /\ st.2 = width d / 2 * height d.
Proof.
  intros Hd Hw Hh Hsize. pose proof Hd as [Hlen _].
  unfold symmetry_sum. cbv zeta.
  set (mid := width d / 2).
  assert (Hmid : 0 <= mid /\ 2 * mid <= width d).
  { subst mid. split; [apply Z.div_pos; lia | apply Z.mul_div_le; lia]. }
  apply (foldl_zrange_ind
    (fun y (st : float * Z) => within 0 st.2 st.1 /\ st.2 = mid * y)); [lia| |].
  { simpl. split; [|lia]. apply within_ofZ64. lia. }
  intros y st Hy Hst.
  replace (mid * (y + 1)) with (mid * y + mid) by lia.
  apply (foldl_zrange_ind
    (fun x (st : float * Z) => within 0 st.2 st.1 /\ st.2 = mid * y + x));
    [lia | by rewrite Z.add_0_r |].
  intros x [sym pix] Hx [Hsym Hpix]. cbn [fst snd] in *.
  split; [|lia].
  pose proof (gray_at_within d x y Hd ltac:(lia) ltac:(lia)) as Ha.
  pose proof (gray_at_within d (width d - 1 - x) y Hd ltac:(lia) ltac:(lia))
    as Hb.
  pose proof (mirror_term_within _ _ Ha Hb) as Ht.
  arith_ops.
  assert (pix + 1 < 2 ^ 53) by nia.
  within_bounds.
Qed.

(** *** Quotients by a pixel count *)

Lemma count_value n :
  0 < n < 2 ^ 53 -> finite (ofZ64 n) /\ (0 < B2R (ofZ64 n))%R.
Proof.
  intros Hn. destruct (ofZ64_value n ltac:(lia)) as [Hf ->].
  split; [done|]. apply IZR_lt. lia.
Qed.

Lemma within_ratio n m x :
  within 0 n x -> n <= m -> 0 < m < 2 ^ 53 -> within 0 1 (x / ofZ64 m)%float.
Proof.
  intros [Hx [Hl Hu]] Hnm Hm.
  destruct (ofZ64_value m ltac:(lia)) as [Hf Hv].
  assert (1 <= IZR m)%R by (apply IZR_le; lia).
  assert (IZR n <= IZR m)%R by (by apply IZR_le).
  apply div_between; try done; try lia; [rewrite Hv; lra|].
  rewrite Hv. split.
  - apply Rmult_le_pos; [done|]. left. apply Rinv_0_lt_compat. lra.
  - apply (Rmult_le_reg_r (IZR m)); [lra|].
    unfold Rdiv. rewrite Rmult_assoc, Rinv_l by lra. lra.
Qed.

Lemma unit_leb x :
  within 0 1 x -> (0 <=? x)%float = true /\ (x <=? 1)%float = true.
Proof.
  intros Hx. split.
  - apply leb_nonneg. by apply (within_nonneg 0 1).
  - destruct Hx as [Hf [_ Hu]]. destruct one_value as [H1 V1].
    apply leb_of_value; [done|done|]. by rewrite V1.
Qed.

(** C7. For every well-formed RGBA image of width and height at least 1,
    whose buffer has fewer than 2^53 cells as every typed array has, and for
    every [Math.hypot] that returns a number that is not negative on finite
    arguments, the record [computeMetrics] returns in the doubles of the
    program has [blurVariance >= 0], [gradientEnergy >= 0],
    [0 <= symmetryScore <= 1] and [0 <= spoofRisk <= 1]. Each comparison is
    the one of JavaScript, which is false on NaN: no field is NaN. *)
Theorem metrics_bounds (d : ImageData) :
  wf_image d -> 1 <= width d -> 1 <= height d -> len (data d) < 2 ^ 53 ->
  let m := computeMetrics (H := float_arith_with hyp) d in
  (0 <=? blurVariance m)%float = true /\
  (0 <=? gradientEnergy m)%float = true /\
  ((0 <=? symmetryScore m)%float = true /\
   (symmetryScore m <=? 1)%float = true) /\
  ((0 <=? spoofRisk m)%float = true /\ (spoofRisk m <=? 1)%float = true).
Proof.
  intros Hd Hw Hh Hsize. pose proof Hd as [Hlen _].
  assert (Harea : width d * height d < 2 ^ 53) by lia.
  unfold computeMetrics. cbv zeta.
  pose proof (laplacian_kinds d Hd) as [Hlap Hmean].
  pose proof (laplacian_count (H := float_arith_with hyp) (width d) (height d)
                (grayscale (H := float_arith_with hyp) d)) as Hcount.
  pose proof (sobel_sum_nonneg d Hd) as Hsobel.
  pose proof (symmetry_sum_within d Hd Hw Hh Hsize) as [Hsym Hpix].
  cbv zeta in Hlap, Hmean, Hsym, Hpix.
  destruct (laplacian _ _ _) as [[lap mean] count].
  destruct (symmetry_sum _ _ _) as [sym pix].
  cbn [fst snd] in *. cbn [blurVariance gradientEnergy symmetryScore spoofRisk].
  arith_ops.
  assert (Hc : 0 < Z.max 1 count < 2 ^ 53) by nia.
  assert (Hi : 0 < Z.max 1 ((width d - 2) * (height d - 2)) < 2 ^ 53) by nia.
  assert (Hp : 0 < Z.max 1 pix < 2 ^ 53).
  { assert (2 * (width d / 2) <= width d) by (apply Z.mul_div_le; lia).
    assert (0 <= width d / 2) by (apply Z.div_pos; lia). nia. }
  destruct (count_value _ Hc) as [Fc Pc].
  destruct (count_value _ Hi) as [Fi Pi].
  set (variance := (sum_sq_dev lap (mean / ofZ64 (Z.max 1 count))
                    / ofZ64 (Z.max 1 count))%float).
  set (energy := (sobel_sum (width d) (height d) (grayscale d)
                  / ofZ64 (Z.max 1 ((width d - 2) * (height d - 2))))%float).
  set (score := (sym / ofZ64 (Z.max 1 pix))%float).
  assert (Hvar : nonneg variance).
  { apply div_nonneg; [|done|done].
    apply sum_sq_dev_nonneg; [done|]. by apply div_number. }
  assert (Hen : nonneg energy) by (by apply div_nonneg).
  assert (Hsc : within 0 1 score).
  { apply (within_ratio pix); [done | lia | done]. }
  assert (Hbn : within 0 1 (Math_min64 (ofZ64 1) (variance / ofZ64 2000))).
  { apply (Math_min64_unit (variance / ofZ64 2000)).
    destruct (count_value 2000 ltac:(lia)). by apply div_nonneg. }
  assert (Hgn : within 0 1 (Math_min64 (ofZ64 1) (energy / ofZ64 50))).
  { apply (Math_min64_unit (energy / ofZ64 50)).
    destruct (count_value 50 ltac:(lia)). by apply div_nonneg. }
  split; [by apply leb_nonneg|]. split; [by apply leb_nonneg|].
  split; [by apply unit_leb|].
  apply unit_leb.
  match goal with
  | |- within 0 1 (Math_min64 _ ?q) => apply (Math_min64_unit q)
  end.
  apply (within_nonneg 0 3); [lia|]. within_bounds.
Qed.
End MetricsBounds.

(** [float_arith], the arithmetic of the other theorems, is this arithmetic
    with [Math_hypot64], which meets the contract. *)
Lemma float_arith_hypot : float_arith_with Math_hypot64 = float_arith.
Proof. reflexivity. Qed.

Lemma Math_hypot64_contract : hypot_contract Math_hypot64.
Proof.
  intros x y Hx Hy. apply Math_hypot64_nonneg; by apply finite_number.
Qed.

Lemma metrics_bounds_witness :
  (0 <=? blurVariance (computeMetrics (F := float) centre_dot))%float = true /\
  (0 <=? gradientEnergy (computeMetrics (F := float) centre_dot))%float
    = true /\
  ((0 <=? symmetryScore (computeMetrics (F := float) centre_dot))%float
     = true /\
   (symmetryScore (computeMetrics (F := float) centre_dot) <=? 1)%float
     = true) /\
  ((0 <=? spoofRisk (computeMetrics (F := float) centre_dot))%float = true /\
   (spoofRisk (computeMetrics (F := float) centre_dot) <=? 1)%float = true).
Proof.
  apply (metrics_bounds Math_hypot64 Math_hypot64_contract centre_dot).
  - split; [reflexivity|]. unfold centre_dot; simpl.
    repeat (constructor; [unfold byte; lia|]). constructor.
  - simpl; lia.
  - simpl; lia.
  - reflexivity.
Defined.

(** * Mirrored images and images of one colour, in doubles *)

(** ** Doubles of the same value *)

Lemma positive_value_inj x y :
  finite x -> finite y -> (0 < B2R x)%R -> B2R x = B2R y -> x = y.
Proof.
  intros Hx Hy Hpos Heq.
  destruct (positive_finite x Hx Hpos) as (m & e & Ex).
  destruct (positive_finite y Hy ltac:(by rewrite <- Heq)) as (m' & e' & Ey).
  pose proof (Prim2SF_valid x) as Vx. pose proof (Prim2SF_valid y) as Vy.
  rewrite Ex in Vx. rewrite Ey in Vy.
  apply (valid_finite FloatOps.prec FloatOps.emax) in Vx, Vy.
  destruct Vx as [Cx _], Vy as [Cy _].
  unfold B2R in Heq. rewrite Ex, Ey in Heq. simpl in Heq.
  apply Prim2SF_inj. rewrite Ex, Ey.
  destruct (Z.lt_trichotomy e e') as [Hlt|[->|Hgt]].
  - pose proof (canonical_lt _ _ _ _ _ _ Cx Cy Hlt). lra.
  - apply F2R_eq_inv in Heq. by injection Heq as ->.
  - pose proof (canonical_lt _ _ _ _ _ _ Cy Cx Hgt). lra.
Qed.

(** A double that has the value of a positive integer is that integer. *)
Lemma within_point n x :
  within n n x -> 0 < n < 2 ^ 53 -> x = ofZ64 n.
Proof.
  intros [Hf [Hl Hu]] Hn.
  destruct (ofZ64_value n ltac:(lia)) as [Fn Vn].
  assert (B2R x = IZR n) by lra.
  apply positive_value_inj; [done|done| |congruence].
  assert (0 < IZR n)%R by (apply IZR_lt; lia). lra.
Qed.

Lemma sub_self x : finite x -> (x - x)%float = 0%float.
Proof.
  unfold finite. intros Hx.
  apply Prim2SF_inj. rewrite FloatAxioms.sub_spec.
  destruct (Prim2SF x) as [s|s| |s m e]; try done.
  - by destruct s.
  - simpl. unfold SFsub. rewrite Z.sub_diag. reflexivity.
Qed.

(** ** Mirrored images *)

Lemma mirror_term_same (a : float) :
  finite a ->
  (ofZ64 1 - Math_min64 (ofZ64 1) (abs (a - a) / ofZ64 255))%float = 1%float.
Proof. intros Ha. rewrite sub_self by done. reflexivity. Qed.

Lemma count_succ k :
  0 <= k -> k + 1 < 2 ^ 53 -> (ofZ64 k + ofZ64 1)%float = ofZ64 (k + 1).
Proof.
  intros Hk Hk'. apply within_point; [|lia].
  apply within_add; [apply within_ofZ64; lia | apply within_ofZ64; lia | lia..].
Qed.

Lemma count_ratio n :
  0 < n < 2 ^ 53 -> (ofZ64 n / ofZ64 n)%float = 1%float.
Proof.
  intros Hn. change 1%float with (ofZ64 1). apply within_point; [|lia].
  destruct (ofZ64_value n ltac:(lia)) as [Hf Hv].
  assert (0 < IZR n)%R by (apply IZR_lt; lia).
  apply div_between; try done; try lia; [rewrite Hv; lra|].
  rewrite Hv. unfold Rdiv. rewrite Rinv_r by lra. lra.
Qed.

Section Mirror.
Variable hyp : float -> float -> float.

Lemma symmetry_sum_mirror (d : ImageData) :
  wf_image d -> 1 <= width d -> 1 <= height d -> len (data d) < 2 ^ 53 ->
  (forall x y, 0 <= x < width d / 2 -> 0 <= y < height d ->
     gray_at (H := float_arith_with hyp) (width d)
       (grayscale (H := float_arith_with hyp) d) x y
     = gray_at (H := float_arith_with hyp) (width d)
         (grayscale (H := float_arith_with hyp) d) (width d - 1 - x) y) ->
  symmetry_sum (H := float_arith_with hyp) (width d) (height d)
    (grayscale (H := float_arith_with hyp) d)
  = (ofZ64 (width d / 2 * height d), width d / 2 * height d).
Proof.
  intros Hd Hw Hh Hsize Hmirror. pose proof Hd as [Hlen _].
  unfold symmetry_sum. cbv zeta.
  set (mid := width d / 2) in *.
  assert (Hmid : 0 <= mid /\ 2 * mid <= width d).
  { subst mid. split; [apply Z.div_pos; lia | apply Z.mul_div_le; lia]. }
  clearbody mid.
  apply (foldl_zrange_ind
    (fun y (st : float * Z) => st = (ofZ64 (mid * y), mid * y))); [lia| |].
  { by rewrite Z.mul_0_r. }
  intros y st Hy ->.
  replace (mid * (y + 1)) with (mid * y + mid) by lia.
  apply (foldl_zrange_ind
    (fun x (st : float * Z) => st = (ofZ64 (mid * y + x), mid * y + x)));
    [lia | by rewrite Z.add_0_r |].
  intros x st Hx ->.
  rewrite <- Hmirror by lia.
  pose proof (gray_at_within hyp d x y Hd ltac:(lia) ltac:(lia)) as [Ha _].
  arith_ops. rewrite mirror_term_same by done.
  assert (width d * height d < 2 ^ 53) by lia.
  assert (0 <= mid * y) by nia.
  assert (mid * y + x + 1 <= mid * (y + 1)) by lia.
  assert (mid * (y + 1) <= mid * height d) by nia.
  assert (mid * height d <= width d * height d) by nia.
  change 1%float with (ofZ64 1). rewrite count_succ by lia.
  by replace (mid * y + (x + 1)) with (mid * y + x + 1) by lia.
Qed.

(** X10. In the doubles of the program, whatever [Math.hypot] returns: on
    a well-formed image of width at least 2 (and fewer than 2^53 cells)
    whose left half mirrors its right half in the three colour channels,
    [computeMetrics] returns [symmetryScore] exactly 1. Every difference
    [a - b] of a mirrored pair is +0, every term of the sum is 1, and the
    sum is the number of pairs, an integer that doubles hold exactly. *)
Theorem symmetryScore_mirror (d : ImageData) :
  wf_image d -> 2 <= width d -> 1 <= height d -> len (data d) < 2 ^ 53 ->
  (forall x y c,
     0 <= x < width d / 2 -> 0 <= y < height d -> 0 <= c < 3 ->
     load (data d) (idx4 (width d) x y c) =
     load (data d) (idx4 (width d) (width d - 1 - x) y c)) ->
  symmetryScore (computeMetrics (H := float_arith_with hyp) d) = 1%float.
Proof.
  intros Hd Hw Hh Hsize Hmirror. pose proof Hd as [Hlen _].
  unfold computeMetrics. cbv zeta.
  destruct (laplacian _ _ _) as [[lap mean] count].
  assert (Hmid : 1 <= width d / 2) by (apply Z.div_le_lower_bound; lia).
  assert (Hhalf : 2 * (width d / 2) <= width d) by (apply Z.mul_div_le; lia).
  rewrite symmetry_sum_mirror; [|done|lia|done|done|].
  - cbn [symmetryScore]. arith_ops.
    replace (Z.max 1 (width d / 2 * height d)) with (width d / 2 * height d)
      by nia.
    apply count_ratio. nia.
  - intros x y Hx Hy.
    rewrite !gray_at_pixel by (done || nia || lia).
    unfold gray_of, byte_at, idx.
    pose proof (Hmirror x y 0 Hx Hy ltac:(lia)) as E0.
    pose proof (Hmirror x y 1 Hx Hy ltac:(lia)) as E1.
    pose proof (Hmirror x y 2 Hx Hy ltac:(lia)) as E2.
    unfold idx4 in E0, E1, E2.
    replace (4 * (y * width d + x))
      with ((y * width d + x) * 4 + 0) by lia.
    replace ((y * width d + x) * 4 + 0 + 1)
      with ((y * width d + x) * 4 + 1) by lia.
    replace ((y * width d + x) * 4 + 0 + 2)
      with ((y * width d + x) * 4 + 2) by lia.
    replace (4 * (y * width d + (width d - 1 - x)))
      with ((y * width d + (width d - 1 - x)) * 4 + 0) by lia.
    replace ((y * width d + (width d - 1 - x)) * 4 + 0 + 1)
      with ((y * width d + (width d - 1 - x)) * 4 + 1) by lia.
    replace ((y * width d + (width d - 1 - x)) * 4 + 0 + 2)
      with ((y * width d + (width d - 1 - x)) * 4 + 2) by lia.
    by rewrite E0, E1, E2.
Qed.
End Mirror.

Lemma symmetryScore_mirror_witness :
  symmetryScore (computeMetrics (F := float) centre_dot) = 1%float.
Proof.
  apply (symmetryScore_mirror Math_hypot64 centre_dot).
  - split; [reflexivity|]. unfold centre_dot; simpl.
    repeat (constructor; [unfold byte; lia|]). constructor.
  - simpl; lia.
  - simpl; lia.
  - reflexivity.
  - intros x y c Hx Hy Hc.
    change (0 <= x < 1) in Hx. change (0 <= y < 3) in Hy.
    assert (x = 0) as -> by lia.
    assert (y = 0 \/ y = 1 \/ y = 2) as [-> | [-> | ->]] by lia;
      assert (c = 0 \/ c = 1 \/ c = 2) as [-> | [-> | ->]] by lia;
      reflexivity.
Defined.

(** ** Results that need no rounding *)

Section ExactResults.
Variables prec emax : Z.
Hypothesis Hprec : 0 < prec.
Hypothesis Hemax : prec < emax.

(** A multiple [N * 2^E] of at most [prec] digits, on a grid of the format,
    is a number of the format. *)
Lemma dyadic_canonical N E :
  0 < N -> Zdigits2 N <= prec -> SpecFloat.emin prec emax <= E ->
  exists m e, canonical prec emax m e /\ F2R m e = F2R N E.
Proof.
  intros HN Hd HE.
  set (e := fexp prec emax (Zdigits2 N + E)).
  assert (He : e <= E).
  { subst e. destruct (fexp_cases prec emax (Zdigits2 N + E)) as [[-> _]|[-> _]]; lia. }
  exists (N * 2 ^ (E - e)), e.
  assert (Hp : 0 < 2 ^ (E - e)) by (apply Z.pow_pos_nonneg; lia).
  split; [split; [nia|]|].
  - rewrite Zdigits2_shift by lia.
    replace (Zdigits2 N + (E - e) + e) with (Zdigits2 N + E) by lia. done.
  - symmetry. by apply on_grid.
Qed.

Lemma rounds_to_exact sx z r N E :
  rounds_to prec emax sx z r -> SFfin r ->
  z = F2R N E -> 0 < N -> Zdigits2 N <= prec ->
  SpecFloat.emin prec emax <= E ->
  SF2R r = (if sx then - z else z)%R.
Proof.
  intros Hr Hf Hz HN Hd HE.
  destruct (dyadic_canonical N E HN Hd HE) as (m & e & Hc & Hv).
  rewrite <- Hz in Hv.
  destruct r as [s|s| |s m' e']; try done.
  - destruct Hr as [_ Hr]. exfalso. apply (Hr m e Hc). lra.
  - destruct Hr as (-> & _ & _ & Hu & Hl).
    specialize (Hu m e Hc ltac:(lra)). specialize (Hl m e Hc ltac:(lra)).
    rewrite SF2R_cond_Zopp. destruct sx; lra.
Qed.

Lemma F2R_nonpos N E : N <= 0 -> (F2R N E <= 0)%R.
Proof.
  intros HN. rewrite <- (F2R_0 E). by apply F2R_le.
Qed.

Lemma binary_normalize_exact M e szero N E :
  SFfin (binary_normalize prec emax M e szero) ->
  F2R M e = F2R N E -> Zdigits2 (Z.abs N) <= prec ->
  SpecFloat.emin prec emax <= E ->
  SF2R (binary_normalize prec emax M e szero) = F2R M e.
Proof.
  intros Hf Hv Hd HE. destruct M as [|p|p]; simpl in *.
  - by rewrite F2R_0.
  - pose proof (F2R_pos (Z.pos p) e ltac:(lia)) as Hpos.
    assert (HN : 0 < N).
    { destruct (Z.lt_ge_cases 0 N); [done|].
      pose proof (F2R_nonpos N E ltac:(lia)). lra. }
    rewrite Z.abs_eq in Hd by lia.
    apply (rounds_to_exact false _ _ N E); try done.
    apply binary_round_spec. done.
  - pose proof (F2R_pos (Z.pos p) e ltac:(lia)) as Hpos.
    change (Z.neg p) with (- Z.pos p) in *. rewrite F2R_opp in *.
    assert (HN : N < 0).
    { destruct (Z.lt_ge_cases N 0); [done|].
      pose proof (F2R_pos N E) as HNp.
      destruct (Z.eq_dec N 0) as [->|]; [rewrite F2R_0 in Hv; lra|].
      specialize (HNp ltac:(lia)). lra. }
    rewrite Z.abs_neq in Hd by lia.
    apply (rounds_to_exact true _ _ (- N) E); try done; try lia.
    + apply binary_round_spec. done.
    + rewrite F2R_opp. lra.
Qed.

Lemma SFadd_exact x y N E :
  SFfin x -> SFfin y -> SFfin (SFadd prec emax x y) ->
  (SF2R x + SF2R y)%R = F2R N E -> Zdigits2 (Z.abs N) <= prec ->
  SpecFloat.emin prec emax <= E ->
  SF2R (SFadd prec emax x y) = (SF2R x + SF2R y)%R.
Proof.
  intros Hx Hy Hf Hv Hd HE.
  destruct x as [sx|sx| |sx mx ex], y as [sy|sy| |sy my ey]; try done.
  - destruct sx, sy; simpl; lra.
  - simpl. lra.
  - simpl. lra.
  - unfold SFadd in *.
    rewrite (binary_normalize_exact _ _ _ N E); try done.
    + rewrite F2R_add, (aligned_value sx mx ex ey).
      by rewrite (Z.min_comm ex ey), (aligned_value sy my ey ex).
    + rewrite F2R_add, (aligned_value sx mx ex ey).
      by rewrite (Z.min_comm ex ey), (aligned_value sy my ey ex).
Qed.

Lemma SFsub_exact x y N E :
  SFfin x -> SFfin y -> SFfin (SFsub prec emax x y) ->
  (SF2R x - SF2R y)%R = F2R N E -> Zdigits2 (Z.abs N) <= prec ->
  SpecFloat.emin prec emax <= E ->
  SF2R (SFsub prec emax x y) = (SF2R x - SF2R y)%R.
Proof.
  intros Hx Hy Hf Hv Hd HE.
  assert (Hal : forall sx mx ex sy my ey,
    F2R (cond_Zopp sx (Z.pos (shl_align mx ex (Z.min ex ey)).1)
         - cond_Zopp sy (Z.pos (shl_align my ey (Z.min ex ey)).1))
        (Z.min ex ey)
    = (SF2R (S754_finite sx mx ex) - SF2R (S754_finite sy my ey))%R).
  { intros sx mx ex sy my ey.
    replace (cond_Zopp sx (Z.pos (shl_align mx ex (Z.min ex ey)).1)
             - cond_Zopp sy (Z.pos (shl_align my ey (Z.min ex ey)).1))
      with (cond_Zopp sx (Z.pos (shl_align mx ex (Z.min ex ey)).1)
            + - cond_Zopp sy (Z.pos (shl_align my ey (Z.min ex ey)).1)) by lia.
    rewrite F2R_add, F2R_opp, (aligned_value sx mx ex ey).
    rewrite (Z.min_comm ex ey), (aligned_value sy my ey ex). lra. }
  destruct x as [sx|sx| |sx mx ex], y as [sy|sy| |sy my ey]; try done.
  - destruct sx, sy; simpl; lra.
  - simpl. destruct sy; simpl;
      change (Z.neg my) with (- Z.pos my); rewrite ?F2R_opp; lra.
  - simpl. lra.
  - unfold SFsub in *.
    rewrite (binary_normalize_exact _ _ _ N E); try done.
    by rewrite Hal.
Qed.

Lemma SFmul_exact x y N E :
  SFfin x -> SFfin y ->
  SpecFloat.valid_binary prec emax x = true ->
  SpecFloat.valid_binary prec emax y = true ->
  SFfin (SFmul prec emax x y) ->
  (SF2R x * SF2R y)%R = F2R N E -> Zdigits2 (Z.abs N) <= prec ->
  SpecFloat.emin prec emax <= E ->
  SF2R (SFmul prec emax x y) = (SF2R x * SF2R y)%R.
Proof.
  intros Hx Hy Vx Vy Hf Hv Hd HE.
  destruct x as [sx|sx| |sx mx ex], y as [sy|sy| |sy my ey]; try done;
    try (simpl in *; lra).
  destruct (valid_finite prec emax _ _ _ Vx) as [Cx _].
  destruct (valid_finite prec emax _ _ _ Vy) as [Cy _].
  pose proof (F2R_pos (Z.pos mx) ex ltac:(lia)) as Px.
  pose proof (F2R_pos (Z.pos my) ey ltac:(lia)) as Py.
  assert (Pz : (0 < F2R (Z.pos mx) ex * F2R (Z.pos my) ey)%R) by nra.
  pose proof (SFmul_rounds prec emax Hprec Hemax sx mx ex sy my ey Cx Cy) as Hr.
  rewrite !SF2R_cond_Zopp in Hv |- *.
  assert (HN : (F2R (Z.pos mx) ex * F2R (Z.pos my) ey)%R = F2R (Z.abs N) E
               /\ 0 < Z.abs N).
  { destruct (Z.lt_trichotomy N 0) as [Hn|[->|Hn]].
    - rewrite Z.abs_neq by lia. rewrite F2R_opp. split; [|lia].
      pose proof (F2R_pos (- N) E ltac:(lia)) as Pn. rewrite F2R_opp in Pn.
      destruct sx, sy; simpl in *; lra.
    - rewrite F2R_0 in Hv. destruct sx, sy; simpl in *; lra.
    - rewrite Z.abs_eq by lia. split; [|lia].
      pose proof (F2R_pos N E ltac:(lia)) as Pn.
      destruct sx, sy; simpl in *; lra. }
  destruct HN as [HN HNpos].
  rewrite (rounds_to_exact _ _ _ (Z.abs N) E Hr Hf HN HNpos Hd HE).
  destruct sx, sy; simpl; lra.
Qed.
End ExactResults.

(** ** Exact results of the operations on doubles *)

Lemma digits_of_bound n p : 0 <= p -> 0 <= n < 2 ^ p -> Zdigits2 n <= p.
Proof.
  intros Hp [Hn Hlt].
  destruct (Z.eq_dec n 0) as [->|]; [simpl; lia|].
  destruct (Z.le_gt_cases (Zdigits2 n) p) as [|Hgt]; [done|].
  destruct (Zdigits2_bounds n ltac:(lia)) as [Hlo _].
  assert (2 ^ p <= 2 ^ (Zdigits2 n - 1)) by (apply Z.pow_le_mono_r; lia).
  lia.
Qed.

Lemma add_exact x y N E :
  finite x -> finite y -> finite (x + y) ->
  (B2R x + B2R y)%R = F2R N E -> Z.abs N < 2 ^ 53 -> -1074 <= E ->
  B2R (x + y) = (B2R x + B2R y)%R.
Proof.
  unfold finite, B2R. rewrite FloatAxioms.add_spec. intros Hx Hy Hf Hv HN HE.
  apply (SFadd_exact _ _ prec_pos _ _ N E); try done.
  apply digits_of_bound; [done|]. change FloatOps.prec with 53. lia.
Qed.

Lemma sub_exact x y N E :
  finite x -> finite y -> finite (x - y) ->
  (B2R x - B2R y)%R = F2R N E -> Z.abs N < 2 ^ 53 -> -1074 <= E ->
  B2R (x - y) = (B2R x - B2R y)%R.
Proof.
  unfold finite, B2R. rewrite FloatAxioms.sub_spec. intros Hx Hy Hf Hv HN HE.
  apply (SFsub_exact _ _ prec_pos _ _ N E); try done.
  apply digits_of_bound; [done|]. change FloatOps.prec with 53. lia.
Qed.

Lemma mul_exact x y N E :
  finite x -> finite y -> finite (x * y) ->
  (B2R x * B2R y)%R = F2R N E -> Z.abs N < 2 ^ 53 -> -1074 <= E ->
  B2R (x * y) = (B2R x * B2R y)%R.
Proof.
  unfold finite, B2R. rewrite FloatAxioms.mul_spec. intros Hx Hy Hf Hv HN HE.
  apply (SFmul_exact _ _ prec_pos prec_lt_emax _ _ N E); try done;
    try apply Prim2SF_valid.
  apply digits_of_bound; [done|]. change FloatOps.prec with 53. lia.
Qed.

Lemma SF2Prim_value s (m : positive) e (a b : Z) :
  Z.pos m < 2 ^ 53 -> -1074 <= e -> - 2 ^ 53 < a -> b < 2 ^ 53 ->
  (IZR a <= SF2R (S754_finite s m e) <= IZR b)%R ->
  B2R (SF2Prim (S754_finite s m e)) = SF2R (S754_finite s m e).
Proof.
  intros Hm He Ha Hb Hab. cbn [SF2Prim].
  destruct (of_uint63_value (Z.pos m) ltac:(lia)) as [Fp Vp].
  destruct (positive_finite _ Fp) as (mp & ep & E).
  { rewrite Vp. apply IZR_lt. lia. }
  set (f := Z.ldexp (of_uint63 (Uint63.of_Z (Z.pos m))) e).
  assert (Hf : rounds_to FloatOps.prec FloatOps.emax false
                 (F2R (Z.pos m) e) (Prim2SF f)).
  { unfold f. rewrite Z_ldexp_spec, E, SFldexp_finite.
    replace (F2R (Z.pos m) e) with (F2R (Z.pos mp) (ep + e)).
    - apply binary_round_spec. apply prec_pos.
    - unfold B2R in Vp. rewrite E in Vp. simpl in Vp.
      unfold F2R in *. rewrite pow2_add. rewrite <- Rmult_assoc, Vp. done. }
  pose proof (F2R_pos (Z.pos m) e ltac:(lia)) as Hz.
  assert (Hd : Zdigits2 (Z.pos m) <= FloatOps.prec).
  { apply digits_of_bound; [done|]. change FloatOps.prec with 53. lia. }
  rewrite SF2R_cond_Zopp in Hab |- *.
  assert (Ff : SFfin (Prim2SF f)).
  { destruct s.
    - apply (rounds_to_between _ _ prec_pos prec_lt_emax false _ _ (- b) (- a)
               Hf Hz); try (change FloatOps.prec with 53; lia).
      rewrite !opp_IZR. lra.
    - apply (rounds_to_between _ _ prec_pos prec_lt_emax false _ _ a b Hf Hz);
        try (change FloatOps.prec with 53; lia). done. }
  pose proof (rounds_to_exact _ _ false _ _ (Z.pos m) e Hf Ff eq_refl
                ltac:(lia) Hd He) as Hv.
  fold (B2R f) in Hv.
  destruct s; [rewrite opp_value|]; lra.
Qed.

Lemma F2R_scale k N E : F2R (k * N) E = (IZR k * F2R N E)%R.
Proof. unfold F2R. rewrite mult_IZR. lra. Qed.

(** What a cell of the grayscale plane holds. *)
Lemma fround64_single x :
  within 0 765 x -> exists M E, single M E (fround64 x).
Proof.
  intros Hx.
  pose proof (within_fround64 0 765 x Hx ltac:(lia) ltac:(lia)) as [Ff Vf].
  destruct Hx as [Hx Hv]. unfold finite in Hx. unfold B2R in Hv.
  revert Ff Vf. unfold fround64.
  destruct (Prim2SF x) as [s|s| |s m e] eqn:Ex; try done.
  - intros Ff Vf. exists 0, 0.
    split; [split; [done|]|split; [done|split; [done|]]]; [|done].
    unfold B2R. rewrite Ex. simpl. by rewrite F2R_0.
  - pose proof (binary_round_spec 24 128 prec24_pos s m e) as Hr.
    pose proof (F2R_pos (Z.pos m) e ltac:(lia)) as Hz.
    destruct (rounds_to_between 24 128 prec24_pos ltac:(lia) s _ _ 0 765 Hr Hz
                ltac:(lia) ltac:(lia)) as [Fr Vr].
    { rewrite SF2R_cond_Zopp in Hv. by destruct s. }
    destruct (binary_round 24 128 s m e) as [s'|s'| |s' m' e'] eqn:Er;
      try done.
    + intros Ff Vf. exists 0, 0.
      split; [split; [done|]|split; [done|split; [done|]]]; [|done].
      rewrite F2R_0. by destruct s'.
    + intros Ff Vf. destruct Hr as (_ & Hc & _).
      destruct (canonical_digits _ _ _ _ Hc) as (Hd & He & _).
      change (SpecFloat.emin 24 128) with (-149) in He.
      destruct (Zdigits2_bounds (Z.pos m') ltac:(lia)) as [_ Hup].
      assert (2 ^ Zdigits2 (Z.pos m') <= 2 ^ 24)
        by (apply Z.pow_le_mono_r; lia).
      exists (cond_Zopp s' (Z.pos m')), e'.
      split; [split; [done|]|split; [|split; [lia|done]]].
      * apply (SF2Prim_value s' m' e' 0 765); try lia. done.
      * destruct s'; simpl; lia.
Qed.

(** ** Small multiples of a single-precision number *)

Section Multiples.
Variables (g : float) (M E : Z).
Hypothesis Hg : single M E g.

Lemma multiple_bounds k :
  -4 <= k <= 4 ->
  Z.abs (k * M) < 2 ^ 53 /\
  (IZR (-3060) <= F2R (k * M) E <= IZR 3060)%R.
Proof.
  intros Hk. destruct Hg as ([_ Hv] & HM & _ & Hb). rewrite Hv in Hb.
  split.
  - rewrite Z.abs_mul. assert (Z.abs k <= 4) by lia.
    assert (0 <= Z.abs M) by lia. nia.
  - rewrite F2R_scale.
    assert (-4 <= IZR k <= 4)%R.
    { split; [apply (IZR_le (-4)) | apply (IZR_le _ 4)]; lia. }
    split; nra.
Qed.

Lemma multiple_1 : dyadic (1 * M) E g.
Proof. destruct Hg as [Hd _]. by rewrite Z.mul_1_l. Qed.

Lemma multiple_opp k l x :
  dyadic (k * M) E x -> l = - k -> dyadic (l * M) E (- x).
Proof.
  intros [Hf Hv] ->. split; [by apply opp_finite|].
  rewrite opp_value, Hv, Z.mul_opp_l, F2R_opp. done.
Qed.

Lemma multiple_add j k l x y :
  dyadic (j * M) E x -> dyadic (k * M) E y -> l = j + k -> -4 <= l <= 4 ->
  dyadic (l * M) E (x + y).
Proof.
  intros [Fx Vx] [Fy Vy] -> Hk.
  destruct (multiple_bounds (j + k) Hk) as [HN Hb].
  destruct Hg as (_ & _ & HE & _).
  assert (Hv : (B2R x + B2R y)%R = F2R ((j + k) * M) E).
  { rewrite Vx, Vy, Z.mul_add_distr_r, F2R_add. done. }
  destruct (add_between x y (-3060) 3060 Fx Fy ltac:(lia) ltac:(lia))
    as [Ff _]; [by rewrite Hv|].
  split; [done|]. rewrite <- Hv.
  apply (add_exact x y ((j + k) * M) E); try done. lia.
Qed.

Lemma multiple_sub j k l x y :
  dyadic (j * M) E x -> dyadic (k * M) E y -> l = j - k -> -4 <= l <= 4 ->
  dyadic (l * M) E (x - y).
Proof.
  intros [Fx Vx] [Fy Vy] -> Hk.
  destruct (multiple_bounds (j - k) Hk) as [HN Hb].
  destruct Hg as (_ & _ & HE & _).
  assert (Hv : (B2R x - B2R y)%R = F2R ((j - k) * M) E).
  { rewrite Vx, Vy, Z.mul_sub_distr_r.
    replace (j * M - k * M) with (j * M + - (k * M)) by lia.
    rewrite F2R_add, F2R_opp. lra. }
  destruct (sub_between x y (-3060) 3060 Fx Fy ltac:(lia) ltac:(lia))
    as [Ff _]; [by rewrite Hv|].
  split; [done|]. rewrite <- Hv.
  apply (sub_exact x y ((j - k) * M) E); try done. lia.
Qed.

Lemma multiple_scale n k l x :
  0 <= n <= 4 -> dyadic (k * M) E x -> l = n * k -> -4 <= l <= 4 ->
  dyadic (l * M) E (ofZ64 n * x).
Proof.
  intros Hn [Fx Vx] -> Hk.
  destruct (multiple_bounds (n * k) Hk) as [HN Hb].
  destruct Hg as (_ & _ & HE & _).
  destruct (ofZ64_value n ltac:(lia)) as [Fn Vn].
  assert (Hv : (B2R (ofZ64 n) * B2R x)%R = F2R (n * k * M) E).
  { rewrite Vn, Vx. replace (n * k * M) with (n * (k * M)) by lia.
    by rewrite (F2R_scale n (k * M)). }
  destruct (mul_between (ofZ64 n) x (-3060) 3060 Fn Fx ltac:(lia) ltac:(lia))
    as [Ff _]; [by rewrite Hv|].
  split; [done|]. rewrite <- Hv.
  apply (mul_exact (ofZ64 n) x (n * k * M) E); try done. lia.
Qed.

Lemma multiple_0 x : dyadic (0 * M) E x -> within 0 0 x.
Proof.
  intros [Hf Hv]. split; [done|]. rewrite Hv, Z.mul_0_l, F2R_0. lra.
Qed.

Ltac multiple :=
  lazymatch goal with
  | |- dyadic _ _ g => exact multiple_1
  | |- dyadic _ _ (- _)%float =>
      eapply multiple_opp; [multiple | reflexivity]
  | |- dyadic _ _ (ofZ64 _ * _)%float =>
      eapply multiple_scale; [lia | multiple | reflexivity | lia]
  | |- dyadic _ _ (_ + _)%float =>
      eapply multiple_add; [multiple | multiple | reflexivity | lia]
  | |- dyadic _ _ (_ - _)%float =>
      eapply multiple_sub; [multiple | multiple | reflexivity | lia]
  end.

(** The Laplacian and the Sobel sums of a plane with the value [g] in
    every cell are zeros: no step of either rounds. *)
Lemma laplacian_flat : within 0 0 (- g - g - g - g + ofZ64 4 * g)%float.
Proof. apply multiple_0. multiple. Qed.

Lemma sobel_flat :
  within 0 0 (- g - ofZ64 2 * g - g + g + ofZ64 2 * g + g)%float.
Proof. apply multiple_0. multiple. Qed.
End Multiples.

(** ** Images of one colour *)

Lemma within_zero x : within 0 0 x -> is_zero x.
Proof.
  intros [Hf [Hl Hu]]. assert (Hv : B2R x = 0%R) by lra.
  unfold finite in Hf. unfold B2R in Hv. unfold is_zero.
  destruct (Prim2SF x) as [s|s| |s m e] eqn:Ex; try done.
  - destruct s; [right|left]; apply Prim2SF_inj; by rewrite Ex.
  - rewrite SF2R_cond_Zopp in Hv.
    pose proof (F2R_pos (Z.pos m) e ltac:(lia)). destruct s; lra.
Qed.

Lemma zero_div_count n : 0 < n < 2 ^ 53 -> (0 / ofZ64 n)%float = 0%float.
Proof.
  intros Hn. destruct (ofZ64_value n ltac:(lia)) as [Hf Hv].
  destruct (positive_finite (ofZ64 n) Hf) as (m & e & En).
  { rewrite Hv. apply IZR_lt. lia. }
  apply Prim2SF_inj. rewrite FloatAxioms.div_spec, En. reflexivity.
Qed.

Lemma wf_flat_image w h r g b a :
  0 <= w * h -> byte r -> byte g -> byte b -> byte a ->
  wf_image (flat_image w h r g b a).
Proof.
  intros Hwh Hr Hg Hb Ha. split; simpl.
  - rewrite len_flat. lia.
  - by apply flat_bytes.
Qed.

Lemma Math_hypot64_zeros : hypot_of_zeros Math_hypot64.
Proof. intros x y [-> | ->] [-> | ->]; reflexivity. Qed.

Section Flat.
Variable hyp : float -> float -> float.
Hypothesis Hzero : hypot_of_zeros hyp.

Lemma gray_at_flat (w h r g b a x y : Z) :
  1 <= w -> 1 <= h -> 0 <= x < w -> 0 <= y < h ->
  gray_at (H := float_arith_with hyp) w
    (grayscale (H := float_arith_with hyp) (flat_image w h r g b a)) x y
  = gray_of (H := float_arith_with hyp) (flat_image w h r g b a) 0.
Proof.
  intros Hw Hh Hx Hy.
  assert (Hwh : 1 <= w * h) by nia.
  pose proof (gray_at_pixel (H := float_arith_with hyp)
                (flat_image w h r g b a) x y) as E.
  simpl in E. rewrite E; [| lia | rewrite len_flat; lia | lia | lia].
  unfold gray_of, byte_at, idx. simpl data.
  assert (Hj : 0 <= y * w + x < Z.of_nat (Z.to_nat (w * h))) by nia.
  replace (4 * (y * w + x)) with (4 * (y * w + x) + 0) at 1 by lia.
  replace (4 * 0) with (4 * 0 + 0) at 1 by lia.
  rewrite !load_flat_at by lia. reflexivity.
Qed.

Lemma laplacian_uniform (w h : Z) (gray : list float) (g : float) M E :
  single M E g ->
  (forall x y, 0 <= x < w -> 0 <= y < h ->
     gray_at (H := float_arith_with hyp) w gray x y = g) ->
  let st := laplacian (H := float_arith_with hyp) w h gray in
  Forall is_zero st.1.1 /\ st.1.2 = 0%float.
Proof.
  intros Hg Hc. unfold laplacian. cbv zeta.
  apply (foldl_invariant
    (fun st : list float * float * Z =>
       Forall is_zero st.1.1 /\ st.1.2 = 0%float)).
  { split; [|done]. simpl. apply Forall_replicate. by left. }
  intros st y Hy%elem_of_zrange Hst.
  apply foldl_invariant; [exact Hst|].
  intros [[lap mean] count] x Hx%elem_of_zrange [Hlap Hmean].
  cbn [fst snd] in *. subst mean.
  rewrite !Hc by lia. arith_ops.
  pose proof (within_zero _ (laplacian_flat g M E Hg)) as Hv.
  split.
  - unfold f32_store. apply Forall_store; [done|]. arith_ops.
    destruct Hv as [-> | ->]; [by left | by right].
  - by destruct Hv as [-> | ->].
Qed.

Lemma sum_sq_dev_uniform (lap : list float) :
  Forall is_zero lap ->
  sum_sq_dev (H := float_arith_with hyp) lap 0%float = 0%float.
Proof.
  intros Hlap. unfold sum_sq_dev.
  apply (foldl_invariant (fun s : float => s = 0%float)); [done|].
  intros s l Hl ->. rewrite Forall_forall in Hlap.
  by destruct (Hlap l Hl) as [-> | ->].
Qed.

Lemma sobel_sum_uniform (w h : Z) (gray : list float) (g : float) M E :
  single M E g ->
  (forall x y, 0 <= x < w -> 0 <= y < h ->
     gray_at (H := float_arith_with hyp) w gray x y = g) ->
  sobel_sum (H := float_arith_with hyp) w h gray = 0%float.
Proof.
  intros Hg Hc. unfold sobel_sum.
  apply (foldl_invariant (fun s : float => s = 0%float)); [done|].
  intros s y Hy%elem_of_zrange ->.
  apply (foldl_invariant (fun s : float => s = 0%float)); [done|].
  intros s x Hx%elem_of_zrange ->. cbv zeta.
  unfold sobel_gx, sobel_gy. rewrite !Hc by lia. arith_ops.
  pose proof (within_zero _ (sobel_flat g M E Hg)) as Hv.
  by rewrite (Hzero _ _ Hv Hv).
Qed.

Lemma gray_of_single (d : ImageData) j :
  wf_image d -> 0 <= j < width d * height d ->
  exists M E, single M E (gray_of (H := float_arith_with hyp) d j).
Proof.
  intros [Hlen Hbytes] Hj. unfold gray_of.
  pose proof (byte_at_within hyp (data d) (4 * j) Hbytes ltac:(lia)) as Hr.
  pose proof (byte_at_within hyp (data d) (4 * j + 1) Hbytes ltac:(lia)) as Hg.
  pose proof (byte_at_within hyp (data d) (4 * j + 2) Hbytes ltac:(lia)) as Hb.
  arith_ops. apply fround64_single. within_bounds.
Qed.

(** X11. In the doubles of the program, for every [Math.hypot] that
    returns +0 on zeros (as ECMAScript prescribes): on an image of one
    colour, of width and height at least 1 (and fewer than 2^53 cells),
    [computeMetrics] returns [blurVariance = 0] and [gradientEnergy = 0];
    [symmetryScore] is 1 and [spoofRisk] the double 0.7 when the width is at
    least 2, and 0 and the double 0.6 when the width is 1. A cell of the
    grayscale plane is a single-precision number, so that no step of the
    Laplacian or of the Sobel sums rounds. *)
Theorem flat_image_metrics (w h r g b a : Z) :
  1 <= w -> 1 <= h -> 4 * w * h < 2 ^ 53 ->
  byte r -> byte g -> byte b -> byte a ->
  let m := computeMetrics (H := float_arith_with hyp)
             (flat_image w h r g b a) in
  blurVariance m = 0%float /\ gradientEnergy m = 0%float /\
  symmetryScore m = (if w =? 1 then 0%float else 1%float) /\
  spoofRisk m = (if w =? 1 then lit64 0.6 else lit64 0.7).
Proof.
  intros Hw Hh Hsize Hr Hg Hb Ha. cbv zeta.
  set (d := flat_image w h r g b a).
  assert (Hwh : 1 <= w * h) by nia.
  assert (Hd : wf_image d) by (apply wf_flat_image; try done; lia).
  assert (Hlen : len (data d) < 2 ^ 53).
  { destruct Hd as [-> _]. done. }
  destruct (gray_of_single d 0 Hd ltac:(simpl; lia)) as (M & E & Hs).
  assert (Hflat : forall x y, 0 <= x < w -> 0 <= y < h ->
            gray_at (H := float_arith_with hyp) w
              (grayscale (H := float_arith_with hyp) d) x y
            = gray_of (H := float_arith_with hyp) d 0).
  { intros x y Hx Hy. by apply gray_at_flat. }
  unfold computeMetrics. cbv zeta.
  change (width d) with w. change (height d) with h.
  destruct (laplacian_uniform w h _ _ M E Hs Hflat) as [Hlap Hmean].
  pose proof (laplacian_count (H := float_arith_with hyp) w h
                (grayscale (H := float_arith_with hyp) d)) as Hcount.
  rewrite (sobel_sum_uniform w h _ _ M E Hs Hflat).
  assert (Hsym :
    let st := symmetry_sum (H := float_arith_with hyp) w h
                (grayscale (H := float_arith_with hyp) d) in
    (st.1 / ofZ64 (Z.max 1 st.2))%float
    = if w =? 1 then 0%float else 1%float).
  { cbv zeta. destruct (Z.eqb_spec w 1) as [->|Hne].
    - by rewrite symmetry_sum_no_pair.
    - assert (Hmid : 1 <= w / 2) by (apply Z.div_le_lower_bound; lia).
      assert (Hhalf : 2 * (w / 2) <= w) by (apply Z.mul_div_le; lia).
      pose proof (symmetry_sum_mirror hyp d Hd) as Hm.
      change (width d) with w in Hm. change (height d) with h in Hm.
      rewrite Hm; [|lia|lia|done|].
      + cbn [fst snd]. rewrite Z.max_r by nia. apply count_ratio. nia.
      + intros x y Hx Hy. by rewrite !Hflat by lia. }
  cbv zeta in Hlap, Hmean, Hsym.
  destruct (laplacian w h (grayscale d)) as [[lap mean] count].
  destruct (symmetry_sum w h (grayscale d)) as [sym pix].
  cbn [fst snd] in *. subst mean.
  cbn [blurVariance gradientEnergy symmetryScore spoofRisk]. arith_ops.
  rewrite Hsym.
  assert (Hc : 0 < Z.max 1 count < 2 ^ 53) by nia.
  assert (Hi : 0 < Z.max 1 ((w - 2) * (h - 2)) < 2 ^ 53) by nia.
  rewrite !(zero_div_count _ Hc), (sum_sq_dev_uniform lap Hlap).
  rewrite !(zero_div_count _ Hc), !(zero_div_count _ Hi).
  split; [done|]. split; [done|]. split; [done|].
  by destruct (w =? 1).
Qed.
End Flat.

Lemma flat_image_metrics_witness :
  blurVariance (computeMetrics (F := float) (flat_image 4 3 230 140 20 255))
    = 0%float /\
  gradientEnergy (computeMetrics (F := float) (flat_image 4 3 230 140 20 255))
    = 0%float /\
  symmetryScore (computeMetrics (F := float) (flat_image 4 3 230 140 20 255))
    = 1%float /\
  spoofRisk (computeMetrics (F := float) (flat_image 4 3 230 140 20 255))
    = lit64 0.7.
Proof.
  apply (flat_image_metrics Math_hypot64 Math_hypot64_zeros
           4 3 230 140 20 255); unfold byte; lia.
Defined.
